(** * dom-movement: locations and spaces over a DOM forest

    A verification development for [src/dom-movement.ts].  The host DOM is
    modelled as a forest of finite trees; a node is addressed by the index of
    its tree and the list of child indices leading to it (innermost first), so
    that [parentNode] is the tail of the address and the position of a node
    among its siblings is the head.  The library code itself ([DOMLoc],
    [DOMSpace]) is transcribed function by function on top of that model, in
    an error monad that carries the exceptions of the source. *)

From Stdlib Require Import ZArith List Bool Lia String Sorted.
Import ListNotations.
Open Scope Z_scope.

(* ------------------------------------------------------------------ *)
(** ** Exceptions and the error monad *)

(** The exception classes of the source.  [Error] is the plain JavaScript
    [Error] with its message (interpolated values are left out). *)
Inductive exn : Type :=
| Error (msg : string)
| DOMSpaceScopeError
| CannotEscapeIrrelevantNode
| ReversedRangeError
| ComparingDisconnectedNodes.

Inductive result (A : Type) : Type :=
| Ok (a : A)
| Throw (e : exn).
Arguments Ok {A} a.
Arguments Throw {A} e.

Definition bind {A B : Type} (r : result A) (k : A -> result B) : result B :=
  match r with
  | Ok a => k a
  | Throw e => Throw e
  end.

Notation "x <- r ;; k" := (bind r (fun x => k))
  (at level 61, r at next level, right associativity).

(* ------------------------------------------------------------------ *)
(** ** The host DOM *)

Inductive NodeType : Type :=
| ELEMENT_NODE
| TEXT_NODE
| DOCUMENT_NODE
| DOCUMENT_FRAGMENT_NODE
| OTHER_NODE.

(** A DOM tree.  Only elements, documents and document fragments have
    children; a text node has character data of some length; every other kind
    (comment, processing instruction, CDATA section, doctype) is a leaf. *)
#[warnings="-register-all"]
Inductive tree : Type :=
| Element (children : list tree)
| Document (children : list tree)
| DocumentFragment (children : list tree)
| Text (data_length : nat)
| Other.

Definition tree_type (t : tree) : NodeType :=
  match t with
  | Element _ => ELEMENT_NODE
  | Document _ => DOCUMENT_NODE
  | DocumentFragment _ => DOCUMENT_FRAGMENT_NODE
  | Text _ => TEXT_NODE
  | Other => OTHER_NODE
  end.

Definition tree_children (t : tree) : list tree :=
  match t with
  | Element l | Document l | DocumentFragment l => l
  | Text _ | Other => []
  end.

Definition tree_length (t : tree) : Z :=
  match t with
  | Text n => Z.of_nat n
  | _ => 0
  end.

(** A node identity: the tree it lives in and its address in that tree,
    innermost child index first. *)
Record Node : Type := mkNode { root : nat; rpath : list nat }.

Fixpoint path_eqb (p q : list nat) : bool :=
  match p, q with
  | [], [] => true
  | x :: p', y :: q' => Nat.eqb x y && path_eqb p' q'
  | _, _ => false
  end.

(** [a === b] on nodes. *)
Definition Node_eqb (a b : Node) : bool :=
  Nat.eqb (root a) (root b) && path_eqb (rpath a) (rpath b).

(** JavaScript indexing [l[k]]: [undefined] outside the list. *)
Definition item {A : Type} (l : list A) (k : Z) : option A :=
  if k <? 0 then None else nth_error l (Z.to_nat k).

(** [Array.prototype.indexOf]: the first index holding [el], or -1. *)
Fixpoint indexOf_from (i : Z) (l : list Node) (el : Node) : Z :=
  match l with
  | [] => -1
  | x :: l' => if Node_eqb x el then i else indexOf_from (i + 1) l' el
  end.

Definition indexOf (arrayLike : list Node) (el : Node) : Z :=
  indexOf_from 0 arrayLike el.

Definition DOCUMENT_POSITION_DISCONNECTED : Z := 1.
Definition DOCUMENT_POSITION_PRECEDING : Z := 2.
Definition DOCUMENT_POSITION_FOLLOWING : Z := 4.
Definition DOCUMENT_POSITION_CONTAINS : Z := 8.
Definition DOCUMENT_POSITION_CONTAINED_BY : Z := 16.
Definition DOCUMENT_POSITION_IMPLEMENTATION_SPECIFIC : Z := 32.

(** Position of the node at root path [q] relative to the node at root path
    [p], both in one tree, as the DOM standard defines
    [compareDocumentPosition]: an ancestor contains and precedes, a descendant
    is contained and follows, otherwise tree (pre-)order decides. *)
Fixpoint path_position (p q : list nat) : Z :=
  match p, q with
  | [], [] => 0
  | [], _ :: _ =>
      DOCUMENT_POSITION_CONTAINED_BY + DOCUMENT_POSITION_FOLLOWING
  | _ :: _, [] =>
      DOCUMENT_POSITION_CONTAINS + DOCUMENT_POSITION_PRECEDING
  | x :: p', y :: q' =>
      if Nat.eqb x y then path_position p' q'
      else if Nat.ltb y x then DOCUMENT_POSITION_PRECEDING
           else DOCUMENT_POSITION_FOLLOWING
  end.

(** [this.compareDocumentPosition(other)].  Nodes of different trees are
    disconnected; the standard then asks for an implementation-specific but
    consistent preceding/following bit, taken here from the tree indices. *)
Definition compareDocumentPosition (this other : Node) : Z :=
  if Nat.eqb (root this) (root other) then
    path_position (rev (rpath this)) (rev (rpath other))
  else
    DOCUMENT_POSITION_DISCONNECTED
    + DOCUMENT_POSITION_IMPLEMENTATION_SPECIFIC
    + (if Nat.ltb (root other) (root this)
       then DOCUMENT_POSITION_PRECEDING
       else DOCUMENT_POSITION_FOLLOWING).

Definition parentNode (n : Node) : option Node :=
  match rpath n with
  | [] => None
  | _ :: up => Some (mkNode (root n) up)
  end.

(* ------------------------------------------------------------------ *)
(** ** DOMLoc *)

(** The fields of a location.  Offsets are the integers among the
    JavaScript numbers; the constructor below rejects the negative ones. *)
Record DOMLoc : Type := mkLoc { node : Node; offset : Z }.

(** [new DOMLoc(node, offset)] *)
Definition new_DOMLoc (n : Node) (o : Z) : result DOMLoc :=
  if o <? 0 then Throw (Error "offset cannot be negative")
  else Ok (mkLoc n o).

(** A method that answers either its receiver ([this]) or a freshly
    allocated location. *)
Inductive instance : Type :=
| This
| Fresh (l : DOMLoc).

Definition deref (this : DOMLoc) (i : instance) : DOMLoc :=
  match i with
  | This => this
  | Fresh l => l
  end.

Section Dom.

(** The trees the program works on. *)
Variable doc : list tree.

(** The tree at an address: tree [r] of the forest for the empty address,
    child [i] of the tree at [up] for the address [i :: up]. *)
Fixpoint lookup_path (r : nat) (rp : list nat) : option tree :=
  match rp with
  | [] => nth_error doc r
  | i :: up =>
      match lookup_path r up with
      | Some t => nth_error (tree_children t) i
      | None => None
      end
  end.

Definition lookup (n : Node) : option tree := lookup_path (root n) (rpath n).

(** A node of the forest. *)
Definition valid (n : Node) : Prop := lookup n <> None.

Definition validb (n : Node) : bool :=
  match lookup n with Some _ => true | None => false end.

(** [node.nodeType], by kind.  An address that names no node of the forest
    has none of the supported kinds. *)
Definition nodeType (n : Node) : NodeType :=
  match lookup n with
  | Some t => tree_type t
  | None => OTHER_NODE
  end.

(** [node.childNodes] *)
Definition childNodes (n : Node) : list Node :=
  match lookup n with
  | Some t =>
      map (fun i => mkNode (root n) (i :: rpath n))
          (seq 0 (List.length (tree_children t)))
  | None => []
  end.

(** [node.childNodes.length] *)
Definition childCount (n : Node) : Z := Z.of_nat (List.length (childNodes n)).

(** [(node as Text).length] *)
Definition textLength (n : Node) : Z :=
  match lookup n with
  | Some t => tree_length t
  | None => 0
  end.

(* ------------------------------------------------------------------ *)
(** ** DOMLoc methods *)

Definition pointedCompare (n : Node) (o : Z) (child : Node) : Z :=
  match item (childNodes n) o with
  | None => 1
  | Some pointed =>
      if Node_eqb pointed child
         || negb (Z.land (compareDocumentPosition pointed child)
                         DOCUMENT_POSITION_FOLLOWING =? 0)
      then -1
      else 1
  end.

Definition makePointingTo (n : Node) : result DOMLoc :=
  match parentNode n with
  | None => Throw (Error "cannot point a node without a parent")
  | Some parent => new_DOMLoc parent (indexOf (childNodes parent) n)
  end.

Definition newIfDifferent (this : DOMLoc) (n : Node) (o : Z)
  : result instance :=
  if Node_eqb (node this) n && (offset this =? o) then Ok This
  else l <- new_DOMLoc n o ;; Ok (Fresh l).

Definition pointedNode (this : DOMLoc) : option Node :=
  match nodeType (node this) with
  | TEXT_NODE => Some (node this)
  | _ => item (childNodes (node this)) (offset this)
  end.

Definition normalizedOffset (this : DOMLoc) : result Z :=
  match nodeType (node this) with
  | DOCUMENT_NODE | DOCUMENT_FRAGMENT_NODE | ELEMENT_NODE =>
      let length := childCount (node this) in
      Ok (if offset this >? length then length else offset this)
  | TEXT_NODE =>
      let length := textLength (node this) in
      Ok (if offset this >? length then length else offset this)
  | OTHER_NODE => Throw (Error "cannot normalize offset in a node of type")
  end.

Definition isNormalized (this : DOMLoc) : result bool :=
  n <- normalizedOffset this ;; Ok (offset this =? n).

Definition normalizeOffset (this : DOMLoc) : result instance :=
  normalized <- normalizedOffset this ;;
  if normalized =? offset this then Ok This
  else l <- new_DOMLoc (node this) normalized ;; Ok (Fresh l).

(** [equals]: an absent [other] is [None].  Two references to one instance
    have the same fields, so the identity test is subsumed by the field
    test. *)
Definition equals (this : DOMLoc) (other : option DOMLoc) : bool :=
  match other with
  | None => false
  | Some o => Node_eqb (node this) (node o) && (offset this =? offset o)
  end.

Definition compare (this other : DOMLoc) : result Z :=
  if equals this (Some other) then Ok 0
  else if Node_eqb (node this) (node other) then
    Ok (if offset this - offset other <? 0 then -1 else 1)
  else
    let result := compareDocumentPosition (node this) (node other) in
    if negb (Z.land result DOCUMENT_POSITION_DISCONNECTED =? 0) then
      Throw ComparingDisconnectedNodes
    else if negb (Z.land result DOCUMENT_POSITION_FOLLOWING =? 0) then
      Ok (if negb (Z.land result DOCUMENT_POSITION_CONTAINED_BY =? 0)
          then pointedCompare (node this) (offset this) (node other)
          else -1)
    else if Z.land result DOCUMENT_POSITION_PRECEDING =? 0 then
      Throw (Error "neither preceding nor following: this should not happen")
    else
      Ok (if negb (Z.land result DOCUMENT_POSITION_CONTAINS =? 0)
             && (pointedCompare (node other) (offset other) (node this) >? 0)
          then -1
          else 1).

(* ------------------------------------------------------------------ *)
(** ** DOMSpace *)

Definition NodeTest : Type := Node -> bool.

Record DOMSpace : Type :=
  mkSpace { min : DOMLoc; max : DOMLoc; relevanceTest : NodeTest }.

Definition isRelevantWith (test : NodeTest) (n : Node) : bool :=
  match nodeType n with
  | ELEMENT_NODE | TEXT_NODE | DOCUMENT_NODE | DOCUMENT_FRAGMENT_NODE => test n
  | OTHER_NODE => false
  end.

Definition isRelevant (s : DOMSpace) (n : Node) : bool :=
  isRelevantWith (relevanceTest s) n.

(** [new DOMSpace(min, max, relevanceTest)] *)
Definition new_DOMSpace (mn mx : DOMLoc) (test : NodeTest) : result DOMSpace :=
  if negb (isRelevantWith test (node mn) && isRelevantWith test (node mx))
  then Throw CannotEscapeIrrelevantNode
  else
    c <- compare mx mn ;;
    if c <? 0 then Throw ReversedRangeError
    else Ok (mkSpace mn mx test).

Definition makeSpanningNode (n : Node) (test : NodeTest) : result DOMSpace :=
  mn <- new_DOMLoc n 0 ;;
  mx <- new_DOMLoc n (childCount n) ;;
  new_DOMSpace mn mx test.

(** [contains]: the [try] block, then the [catch] clause, which turns
    [ComparingDisconnectedNodes] into [false] and rethrows the rest. *)
Definition contains (s : DOMSpace) (loc : DOMLoc) : result bool :=
  match
    (a <- compare (min s) loc ;;
     if a <=? 0 then b <- compare (max s) loc ;; Ok (b >=? 0)
     else Ok false)
  with
  | Throw ComparingDisconnectedNodes => Ok false
  | r => r
  end.

Definition containsNode (s : DOMSpace) (n : Node) : result bool :=
  match parentNode n with
  | None => Ok false
  | Some _ => l <- makePointingTo n ;; contains s l
  end.

(** The [while] loop of [escapeIrrelevantNode], collecting [node] and its
    ancestors for as long as they are contained nodes.  [parentNode] drops the
    head of the address, so the loop is a recursion on the address. *)
Fixpoint ancestorsAndSelf_at (s : DOMSpace) (r : nat) (rp : list nat)
  : result (list Node) :=
  c <- containsNode s (mkNode r rp) ;;
  if c then
    match rp with
    | [] => Ok [mkNode r rp]
    | _ :: up =>
        rest <- ancestorsAndSelf_at s r up ;; Ok (mkNode r rp :: rest)
    end
  else Ok [].

Definition ancestorsAndSelf (s : DOMSpace) (n : Node) : result (list Node) :=
  ancestorsAndSelf_at s (root n) (rpath n).

Definition same_node (a : Node) (b : option Node) : bool :=
  match b with
  | Some b' => Node_eqb a b'
  | None => false
  end.

(** The [for ... of reversed] loop: [Some l] when it returns the location
    [l], [None] when it runs to its end. *)
Fixpoint scan (s : DOMSpace) (first : option Node) (reversed : list Node)
  : result (option DOMLoc) :=
  match reversed with
  | [] => Ok None
  | candidate :: rest =>
      if negb (isRelevant s candidate) then
        if same_node candidate first then
          Throw (Error "internal error: we should always be able to escape a location which is inside the space")
        else
          match parentNode candidate with
          | None => Throw (Error "TypeError: parentNode is null")
          | Some parent =>
              l <- new_DOMLoc parent (indexOf (childNodes parent) candidate) ;;
              Ok (Some l)
          end
      else scan s first rest
  end.

Definition escapeIrrelevantNode (s : DOMSpace) (location : DOMLoc)
  : result instance :=
  c <- contains s location ;;
  if negb c then Throw DOMSpaceScopeError
  else
    normalized <- normalizeOffset location ;;
    chain <- ancestorsAndSelf s (node (deref location normalized)) ;;
    let reversed := rev chain in
    let first := nth_error reversed 0 in
    found <- scan s first reversed ;;
    match found with
    | Some l => Ok (Fresh l)
    | None => Ok normalized
    end.

(** The tail shared by [next] and [previous]: clip to the space. *)
Definition clip (s : DOMSpace) (loc : DOMLoc) : result (option DOMLoc) :=
  c <- contains s loc ;; Ok (if c then Some loc else None).

Definition next (s : DOMSpace) (start : DOMLoc) : result (option DOMLoc) :=
  escaped <- escapeIrrelevantNode s start ;;
  let n := node (deref start escaped) in
  let o := offset (deref start escaped) in
  loc <-
    match nodeType n with
    | DOCUMENT_FRAGMENT_NODE | DOCUMENT_NODE | ELEMENT_NODE =>
        match item (childNodes n) o with
        | Some pointed =>
            if isRelevant s pointed
            then l <- new_DOMLoc pointed 0 ;; Ok (Some l)
            else l <- new_DOMLoc n (o + 1) ;; Ok (Some l)
        | None => Ok None
        end
    | TEXT_NODE =>
        if o + 1 <=? textLength n
        then l <- new_DOMLoc n (o + 1) ;; Ok (Some l)
        else Ok None
    | OTHER_NODE => Throw (Error "internal error: unexpected type")
    end ;;
  match loc with
  | Some l => clip s l
  | None =>
      match parentNode n with
      | None => Ok None
      | Some parent =>
          l <- new_DOMLoc parent (indexOf (childNodes parent) n + 1) ;;
          clip s l
      end
  end.

Definition previous (s : DOMSpace) (start : DOMLoc)
  : result (option DOMLoc) :=
  escaped <- escapeIrrelevantNode s start ;;
  let n := node (deref start escaped) in
  let o := offset (deref start escaped) in
  loc <-
    match nodeType n with
    | DOCUMENT_FRAGMENT_NODE | DOCUMENT_NODE | ELEMENT_NODE =>
        match item (childNodes n) (o - 1) with
        | Some pointed =>
            if isRelevant s pointed
            then
              l <- new_DOMLoc pointed
                     (match nodeType pointed with
                      | TEXT_NODE => textLength pointed
                      | _ => childCount pointed
                      end) ;;
              Ok (Some l)
            else l <- new_DOMLoc n (o - 1) ;; Ok (Some l)
        | None => Ok None
        end
    | TEXT_NODE =>
        if o - 1 >=? 0
        then l <- new_DOMLoc n (o - 1) ;; Ok (Some l)
        else Ok None
    | OTHER_NODE => Throw (Error "internal error: unexpected type")
    end ;;
  match loc with
  | Some l => clip s l
  | None =>
      match parentNode n with
      | None => Ok None
      | Some parent =>
          l <- new_DOMLoc parent (indexOf (childNodes parent) n) ;;
          clip s l
      end
  end.

(** The generators [[Symbol.iterator]] and [reversed]: yield [current], then
    step, until the step answers [null].  The generator is lazy; [fuel]
    bounds the number of locations a consumer pulls from it. *)
Fixpoint iterate (step : DOMLoc -> result (option DOMLoc)) (fuel : nat)
         (current : DOMLoc) : result (list DOMLoc) :=
  match fuel with
  | O => Ok []
  | S fuel' =>
      following <- step current ;;
      match following with
      | None => Ok [current]
      | Some l => rest <- iterate step fuel' l ;; Ok (current :: rest)
      end
  end.

Definition iterator (s : DOMSpace) (fuel : nat) : result (list DOMLoc) :=
  iterate (next s) fuel (min s).

Definition reversed (s : DOMSpace) (fuel : nat) : result (list DOMLoc) :=
  iterate (previous s) fuel (max s).

End Dom.

(* ------------------------------------------------------------------ *)
(** ** Specification-side notions *)

(** The address of a location read from the root: the child indices from the
    root down to the node, then the offset. *)
Definition key (l : DOMLoc) : list Z :=
  map Z.of_nat (rev (rpath (node l))) ++ [offset l].

(** Lexicographic comparison, a proper prefix coming first. *)
Fixpoint lex (p q : list Z) : Z :=
  match p, q with
  | [], [] => 0
  | [], _ :: _ => -1
  | _ :: _, [] => 1
  | x :: p', y :: q' =>
      if x =? y then lex p' q' else if x <? y then -1 else 1
  end.

(** [a] is a strict ancestor of [n]. *)
Definition ancestor (a n : Node) : Prop :=
  root a = root n /\ exists i l, rpath n = l ++ i :: rpath a.

(** The depth-first, left-to-right walk of a tree: the root paths of its
    nodes in the order in which the walk meets them. *)
Fixpoint walk_children (walk : tree -> list (list nat)) (i : nat)
         (l : list tree) : list (list nat) :=
  match l with
  | [] => []
  | c :: l' => map (cons i) (walk c) ++ walk_children walk (S i) l'
  end.

Fixpoint preorder (t : tree) : list (list nat) :=
  [] :: match t with
        | Element l | Document l | DocumentFragment l =>
            walk_children preorder 0 l
        | Text _ | Other => []
        end.

(** [p] comes before [q] in the list [l]. *)
Definition before {A : Type} (p q : A) (l : list A) : Prop :=
  exists l1 l2 l3, l = l1 ++ p :: l2 ++ q :: l3.

(** Document order on the nodes of one tree: [a] is met before [b] by the
    depth-first, left-to-right walk of their tree. *)
Definition precedes (doc : list tree) (a b : Node) : Prop :=
  root a = root b
  /\ exists t, nth_error doc (root a) = Some t
               /\ before (rev (rpath a)) (rev (rpath b)) (preorder t).

(** The order of root paths: lexicographic, a proper prefix first. *)
Definition path_lt (p q : list nat) : Prop :=
  lex (map Z.of_nat p) (map Z.of_nat q) = -1.

(** Induction on trees, with the induction hypothesis for every child. *)
Section TreeInduction.

Variable P : tree -> Prop.
Hypothesis P_Element : forall l, Forall P l -> P (Element l).
Hypothesis P_Document : forall l, Forall P l -> P (Document l).
Hypothesis P_Fragment : forall l, Forall P l -> P (DocumentFragment l).
Hypothesis P_Text : forall n, P (Text n).
Hypothesis P_Other : P Other.

Fixpoint tree_nested_ind (t : tree) : P t :=
  let all :=
    fix all (l : list tree) : Forall P l :=
      match l with
      | [] => Forall_nil P
      | c :: l' => Forall_cons c (tree_nested_ind c) (all l')
      end in
  match t with
  | Element l => P_Element l (all l)
  | Document l => P_Document l (all l)
  | DocumentFragment l => P_Fragment l (all l)
  | Text n => P_Text n
  | Other => P_Other
  end.

End TreeInduction.

(** The node at a root path of a tree. *)
Fixpoint subtree (t : tree) (p : list nat) : option tree :=
  match p with
  | [] => Some t
  | i :: p' =>
      match nth_error (tree_children t) i with
      | Some c => subtree c p'
      | None => None
      end
  end.

(** A location the caller can build: a node of the forest and an offset that
    the constructor accepts. *)
Definition locb (doc : list tree) (l : DOMLoc) : bool :=
  validb doc (node l) && (0 <=? offset l).

(** A space the caller can build: both end points are such locations and
    the constructor accepts them. *)
Definition spaceb (doc : list tree) (s : DOMSpace) : bool :=
  locb doc (min s) && locb doc (max s)
  && match new_DOMSpace doc (min s) (max s) (relevanceTest s) with
     | Ok _ => true
     | Throw _ => false
     end.

(** [l] lies between the end points of [s] in the order of addresses. *)
Definition inside (s : DOMSpace) (l : DOMLoc) : Prop :=
  root (node l) = root (node (min s))
  /\ lex (key (min s)) (key l) <= 0 /\ lex (key l) (key (max s)) <= 0.

Definition is_container (ty : NodeType) : bool :=
  match ty with
  | ELEMENT_NODE | DOCUMENT_NODE | DOCUMENT_FRAGMENT_NODE => true
  | TEXT_NODE | OTHER_NODE => false
  end.

(** The largest offset that is in range for a node, when its kind is one of
    the four supported kinds. *)
Definition bound (doc : list tree) (n : Node) : option Z :=
  match nodeType doc n with
  | ELEMENT_NODE | DOCUMENT_NODE | DOCUMENT_FRAGMENT_NODE =>
      Some (childCount doc n)
  | TEXT_NODE => Some (textLength doc n)
  | OTHER_NODE => None
  end.

(** [n] and every ancestor of [n] is relevant. *)
Fixpoint all_relevant_at (doc : list tree) (s : DOMSpace) (r : nat)
         (rp : list nat) : bool :=
  isRelevant doc s (mkNode r rp)
  && match rp with
     | [] => true
     | _ :: up => all_relevant_at doc s r up
     end.

Definition all_relevant (doc : list tree) (s : DOMSpace) (n : Node) : bool :=
  all_relevant_at doc s (root n) (rpath n).

(** The chain scanned by [escapeIrrelevantNode] from [n] exists and holds
    relevant nodes only. *)
Definition relevant_chain (doc : list tree) (s : DOMSpace) (n : Node) : Prop :=
  exists chain,
    ancestorsAndSelf doc s n = Ok chain
    /\ Forall (fun m => isRelevant doc s m = true) chain.

(** A location that [escapeIrrelevantNode] has nothing to do on: it is in
    the space, normalized, and every node on the chain the method scans is
    relevant. *)
Definition settled (doc : list tree) (s : DOMSpace) (x : DOMLoc) : Prop :=
  contains doc s x = Ok true
  /\ isNormalized doc x = Ok true
  /\ relevant_chain doc s (node x).

(** The "ascend" step of [next]: the location in the parent just after
    [n], clipped to the space; nothing when [n] has no parent. *)
Definition ascend_after (doc : list tree) (s : DOMSpace) (n : Node)
  : result (option DOMLoc) :=
  match parentNode n with
  | None => Ok None
  | Some parent =>
      l <- new_DOMLoc parent (indexOf (childNodes doc parent) n + 1) ;;
      clip doc s l
  end.

(** The "ascend" step of [previous]: the location in the parent pointing at
    [n]. *)
Definition ascend_at (doc : list tree) (s : DOMSpace) (n : Node)
  : result (option DOMLoc) :=
  match parentNode n with
  | None => Ok None
  | Some parent =>
      l <- new_DOMLoc parent (indexOf (childNodes doc parent) n) ;;
      clip doc s l
  end.

(** The offset at the end of a node, where [previous] lands when it descends
    into it. *)
Definition end_offset (doc : list tree) (n : Node) : Z :=
  match nodeType doc n with
  | TEXT_NODE => textLength doc n
  | _ => childCount doc n
  end.

(** A list of locations each of which is taken to the following one by
    [step]. *)
Fixpoint links (step : DOMLoc -> result (option DOMLoc)) (l : list DOMLoc)
  : Prop :=
  match l with
  | x :: rest =>
      match rest with
      | y :: _ => step x = Ok (Some y) /\ links step rest
      | [] => True
      end
  | [] => True
  end.

(** A location of the space on which [escapeIrrelevantNode] has nothing to
    do, in a relevant node. *)
Definition at_rest (doc : list tree) (s : DOMSpace) (l : DOMLoc) : Prop :=
  locb doc l = true
  /\ contains doc s l = Ok true
  /\ escapeIrrelevantNode doc s l = Ok This
  /\ isRelevant doc s (node l) = true.



(* ------------------------------------------------------------------ *)
(** ** Sample documents *)

(** The document of the test suite,
    [<div><div>A <p>paragraph with <b>text</b> and stuff</p></div>
     <div>Another div.</div></div>],
    and next to it an element that was created but never attached. *)
Definition sample : list tree :=
  [ Document
      [ Element
          [ Element [ Text 2;
                      Element [ Text 15; Element [ Text 4 ]; Text 10 ] ];
            Element [ Text 12 ] ] ];
    Element [ Text 3 ] ].

Definition the_document : Node := mkNode 0 [].
Definition top_div : Node := mkNode 0 [0]%nat.
Definition div_1 : Node := mkNode 0 [0; 0]%nat.
Definition text_A : Node := mkNode 0 [0; 0; 0]%nat.
Definition par : Node := mkNode 0 [1; 0; 0]%nat.
Definition bold : Node := mkNode 0 [1; 1; 0; 0]%nat.
Definition bold_text : Node := mkNode 0 [0; 1; 1; 0; 0]%nat.
Definition div_2 : Node := mkNode 0 [1; 0]%nat.
Definition text_another : Node := mkNode 0 [0; 1; 0]%nat.
Definition text_paragraph : Node := mkNode 0 [0; 1; 0; 0]%nat.
Definition text_stuff : Node := mkNode 0 [2; 1; 0; 0]%nat.
Definition detached_div : Node := mkNode 1 [].

(** The locations of a text node of the given length, in order. *)
Definition text_locs (n : Node) (len : nat) : list DOMLoc :=
  map (fun k => mkLoc n (Z.of_nat k)) (seq 0 (S len)).

(** [expectedPositions] of the test suite for the document with no relevance
    restriction. *)
Definition expectedPositions : list DOMLoc :=
  [mkLoc the_document 0; mkLoc top_div 0; mkLoc div_1 0]
  ++ text_locs text_A 2
  ++ [mkLoc div_1 1; mkLoc par 0]
  ++ text_locs text_paragraph 15
  ++ [mkLoc par 1; mkLoc bold 0]
  ++ text_locs bold_text 4
  ++ [mkLoc bold 1; mkLoc par 2]
  ++ text_locs text_stuff 10
  ++ [mkLoc par 3; mkLoc div_1 2; mkLoc top_div 1; mkLoc div_2 0]
  ++ text_locs text_another 12
  ++ [mkLoc div_2 1; mkLoc top_div 2; mkLoc the_document 1].

(** The default relevance test. *)
Definition any_node : NodeTest := fun _ => true.

(** [DOMSpace.makeSpanningNode(doc)] *)
Definition whole_document : DOMSpace :=
  mkSpace (mkLoc the_document 0) (mkLoc the_document 1) any_node.

(** A space that starts inside the [b] element while the [p] element around
    it is ruled out by the relevance test. *)
Definition without_par : NodeTest := fun n => negb (Node_eqb n par).


(** The zero-width space at the start of the sample document. *)
Definition zero_width : DOMSpace :=
  mkSpace (mkLoc the_document 0) (mkLoc the_document 0) any_node.

(** The "arbitrary span" of the test suite: from the start of the [p]
    element to offset 3 of the text ["Another div."]. *)
Definition arbitrary_span : DOMSpace :=
  mkSpace (mkLoc par 0) (mkLoc text_another 3) any_node.

(** A relevance test that rules out the top [div], and the space from the
    start of the document to the middle of the text ["A "] under it. *)
Definition without_top_div : NodeTest := fun n => negb (Node_eqb n top_div).

Definition up_to_text_A : DOMSpace :=
  mkSpace (mkLoc the_document 0) (mkLoc text_A 1) without_top_div.

(* ------------------------------------------------------------------ *)
(** ** Basic facts about the host model *)

Lemma path_eqb_eq (p q : list nat) : path_eqb p q = true <-> p = q.
Proof.
  revert q; induction p as [|x p IH]; intros [|y q]; simpl;
    try (split; [discriminate | discriminate]); try tauto.
  rewrite andb_true_iff, Nat.eqb_eq, IH.
  split; [intros [-> ->]; reflexivity | intros H; inversion H; auto].
Qed.

Lemma Node_eqb_eq (a b : Node) : Node_eqb a b = true <-> a = b.
Proof.
  destruct a as [ra pa], b as [rb pb]; unfold Node_eqb; simpl.
  rewrite andb_true_iff, Nat.eqb_eq, path_eqb_eq.
  split; [intros [-> ->]; reflexivity | intros H; inversion H; auto].
Qed.

Lemma Node_eqb_refl (a : Node) : Node_eqb a a = true.
Proof. apply Node_eqb_eq; reflexivity. Qed.

Lemma Node_eqb_neq (a b : Node) : Node_eqb a b = false <-> a <> b.
Proof.
  split.
  - intros H E. apply Node_eqb_eq in E. congruence.
  - intros H. destruct (Node_eqb a b) eqn:E; [|reflexivity].
    apply Node_eqb_eq in E. contradiction.
Qed.

Lemma item_Some {A : Type} (l : list A) (k : Z) (x : A) :
  item l k = Some x <-> 0 <= k /\ nth_error l (Z.to_nat k) = Some x.
Proof.
  unfold item. destruct (Z.ltb_spec k 0).
  - split; [discriminate | lia].
  - split; [auto | tauto].
Qed.

Lemma item_None {A : Type} (l : list A) (k : Z) :
  item l k = None <-> k < 0 \/ Z.of_nat (List.length l) <= k.
Proof.
  unfold item. destruct (Z.ltb_spec k 0).
  - split; [auto | reflexivity].
  - rewrite nth_error_None. lia.
Qed.

Lemma indexOf_from_map_seq (r : nat) (up : list nat) (i a n : nat) (k : Z) :
  (a <= i < a + n)%nat ->
  indexOf_from k (map (fun j => mkNode r (j :: up)) (seq a n))
               (mkNode r (i :: up)) = k + Z.of_nat (i - a).
Proof.
  revert a k. induction n as [|n IH]; intros a k H; [lia|].
  simpl. destruct (Node_eqb (mkNode r (a :: up)) (mkNode r (i :: up))) eqn:E.
  - apply Node_eqb_eq in E. inversion E; subst.
    replace (i - i)%nat with 0%nat by lia. lia.
  - apply Node_eqb_neq in E.
    assert (a <> i) by (intros ->; apply E; reflexivity).
    rewrite IH by lia. lia.
Qed.

(* ------------------------------------------------------------------ *)
(** ** The lexicographic order on addresses *)

Lemma lex_refl (p : list Z) : lex p p = 0.
Proof. induction p as [|x p IH]; simpl; [|rewrite Z.eqb_refl]; auto. Qed.

Lemma lex_range (p q : list Z) : lex p q = -1 \/ lex p q = 0 \/ lex p q = 1.
Proof.
  revert q; induction p as [|x p IH]; intros [|y q]; simpl; auto.
  destruct (x =? y); [apply IH|]. destruct (x <? y); auto.
Qed.

Lemma lex_antisym (p q : list Z) : lex q p = - lex p q.
Proof.
  revert q; induction p as [|x p IH]; intros [|y q]; simpl; auto.
  destruct (Z.eqb_spec x y) as [->|N].
  - rewrite Z.eqb_refl. apply IH.
  - destruct (Z.eqb_spec y x); [congruence|].
    destruct (Z.ltb_spec x y), (Z.ltb_spec y x); lia.
Qed.

Lemma lex_eq (p q : list Z) : lex p q = 0 <-> p = q.
Proof.
  revert q; induction p as [|x p IH]; intros [|y q]; simpl;
    try (split; [lia | discriminate]); try tauto.
  destruct (Z.eqb_spec x y) as [->|N].
  - rewrite IH. split; [intros ->; reflexivity | intros H; inversion H; auto].
  - split; [destruct (x <? y); lia | intros H; inversion H; contradiction].
Qed.

Lemma lex_trans (p q r : list Z) :
  lex p q = -1 -> lex q r = -1 -> lex p r = -1.
Proof.
  revert q r; induction p as [|x p IH]; intros [|y q] [|z r]; simpl;
    try lia; auto.
  destruct (Z.eqb_spec x y) as [->|N1].
  - destruct (Z.eqb_spec y z) as [->|N2]; [apply IH | auto].
  - destruct (Z.ltb_spec x y); [|lia].
    destruct (Z.eqb_spec y z) as [->|N2].
    + intros _ _. destruct (Z.eqb_spec x z); [lia|].
      destruct (Z.ltb_spec x z); lia.
    + destruct (Z.ltb_spec y z); [|lia]. intros _ _.
      destruct (Z.eqb_spec x z); [lia|]. destruct (Z.ltb_spec x z); lia.
Qed.

Lemma lex_le_lt_trans (p q r : list Z) :
  lex p q <= 0 -> lex q r = -1 -> lex p r = -1.
Proof.
  intros H1 H2. destruct (lex_range p q) as [E|[E|E]]; [| |lia].
  - eapply lex_trans; eauto.
  - apply lex_eq in E. subst. assumption.
Qed.

Lemma lex_lt_le_trans (p q r : list Z) :
  lex p q = -1 -> lex q r <= 0 -> lex p r = -1.
Proof.
  intros H1 H2. destruct (lex_range q r) as [E|[E|E]]; [| |lia].
  - eapply lex_trans; eauto.
  - apply lex_eq in E. subst. assumption.
Qed.

Lemma lex_app (l p q : list Z) : lex (l ++ p) (l ++ q) = lex p q.
Proof. induction l as [|x l IH]; simpl; [|rewrite Z.eqb_refl]; auto. Qed.

Lemma lex_prefix (p r : list Z) (x : Z) : lex p (p ++ x :: r) = -1.
Proof.
  rewrite <- (app_nil_r p) at 1. rewrite lex_app. reflexivity.
Qed.

(** Between an address and its right neighbour there are only addresses
    that extend it. *)
Lemma lex_between (K : list Z) (a : Z) (m : list Z) :
  lex (K ++ [a]) m = -1 -> lex m (K ++ [a + 1]) = -1 ->
  exists rest, rest <> [] /\ m = K ++ a :: rest.
Proof.
  revert m. induction K as [|k K IH]; intros [|x m]; simpl; try lia.
  - destruct (Z.eqb_spec a x) as [->|N].
    + intros H _. exists m. split; [|reflexivity].
      destruct m; [discriminate | congruence].
    + destruct (Z.ltb_spec a x); [|lia]. intros _.
      destruct (Z.eqb_spec x (a + 1)).
      * destruct m; simpl; lia.
      * destruct (Z.ltb_spec x (a + 1)); lia.
  - destruct (Z.eqb_spec k x) as [->|N].
    + rewrite Z.eqb_refl. intros H1 H2.
      destruct (IH m H1 H2) as (rest & R & ->). exists rest. auto.
    + destruct (Z.eqb_spec x k); [congruence|].
      destruct (Z.ltb_spec k x), (Z.ltb_spec x k); lia.
Qed.

(** Nothing but a negative index fits between an address and the start of
    what it points at. *)
Lemma lex_between_start (K : list Z) (a : Z) (m : list Z) :
  lex (K ++ [a]) m = -1 -> lex m (K ++ [a; 0]) = -1 ->
  exists x rest, m = K ++ a :: x :: rest /\ x < 0.
Proof.
  intros H1 H2.
  assert (H3 : lex m (K ++ [a + 1]) = -1).
  { eapply lex_trans; [exact H2|]. rewrite lex_app. simpl.
    destruct (Z.eqb_spec a (a + 1)); [lia|].
    destruct (Z.ltb_spec a (a + 1)); lia. }
  destruct (lex_between K a m H1 H3) as (rest & R & ->).
  rewrite lex_app in H2. simpl in H2. rewrite Z.eqb_refl in H2.
  destruct rest as [|x rest]; [congruence|]. simpl in H2.
  exists x, rest. split; [reflexivity|].
  destruct (Z.eqb_spec x 0).
  - destruct rest; simpl in H2; lia.
  - destruct (Z.ltb_spec x 0); lia.
Qed.

(** Reading an address back as a root path and an offset. *)
Lemma key_decode_list (A N : list nat) (x a : Z) (rest : list Z) :
  map Z.of_nat A ++ [x] = map Z.of_nat N ++ a :: rest -> rest <> [] ->
  exists a' A', A = N ++ a' :: A' /\ a = Z.of_nat a'
                /\ rest = map Z.of_nat A' ++ [x].
Proof.
  revert A. induction N as [|n N IH]; intros [|a0 A]; simpl; intros H R.
  - inversion H. congruence.
  - inversion H. exists a0, A. auto.
  - inversion H as [[H1 H2]]. destruct (map Z.of_nat N); discriminate.
  - inversion H as [[H1 H2]]. apply Nat2Z.inj in H1. subst a0.
    destruct (IH A H2 R) as (a' & A' & -> & -> & ->).
    exists a', A'. auto.
Qed.

Lemma path_position_app (l p q : list nat) :
  path_position (l ++ p) (l ++ q) = path_position p q.
Proof. induction l as [|x l IH]; simpl; [|rewrite Nat.eqb_refl]; auto. Qed.

(** Two root paths share a longest common prefix, after which they stop or
    differ. *)
Lemma path_split (p q : list nat) :
  exists l p' q', p = l ++ p' /\ q = l ++ q' /\
    match p', q' with
    | x :: _, y :: _ => x <> y
    | _, _ => True
    end.
Proof.
  revert q; induction p as [|x p IH]; intros q.
  - exists [], [], q. simpl. auto.
  - destruct q as [|y q].
    + exists [], (x :: p), []. simpl. auto.
    + destruct (Nat.eq_dec x y) as [->|N].
      * destruct (IH q) as (l & p' & q' & -> & -> & H).
        exists (y :: l), p', q'. simpl. auto.
      * exists [], (x :: p), (y :: q). simpl. auto.
Qed.

Lemma rev_inj {A : Type} (l1 l2 : list A) : rev l1 = rev l2 -> l1 = l2.
Proof.
  intros H. rewrite <- (rev_involutive l1), <- (rev_involutive l2).
  f_equal. exact H.
Qed.

Lemma map_of_nat_inj (l1 l2 : list nat) :
  map Z.of_nat l1 = map Z.of_nat l2 -> l1 = l2.
Proof.
  revert l2; induction l1 as [|x l1 IH]; intros [|y l2]; simpl;
    try discriminate; auto.
  intros H. inversion H. f_equal; [lia | auto].
Qed.

Lemma key_inj (a b : DOMLoc) :
  root (node a) = root (node b) -> key a = key b -> a = b.
Proof.
  destruct a as [[ra pa] oa], b as [[rb pb] ob]. unfold key. simpl.
  intros -> H. apply app_inj_tail in H. destruct H as [H1 H2].
  apply map_of_nat_inj, rev_inj in H1. congruence.
Qed.

Section DomFacts.

Variable doc : list tree.


Lemma validb_valid (n : Node) : validb doc n = true <-> valid doc n.
Proof.
  unfold validb, valid.
  destruct (lookup doc n); split; congruence.
Qed.

Lemma childCount_lookup (n : Node) (t : tree) :
  lookup doc n = Some t ->
  childCount doc n = Z.of_nat (List.length (tree_children t)).
Proof.
  intros H. unfold childCount, childNodes.
  rewrite H, length_map, length_seq. reflexivity.
Qed.

Lemma childCount_nonneg (n : Node) : 0 <= childCount doc n.
Proof. unfold childCount. lia. Qed.

Lemma item_childNodes (n : Node) (o : Z) :
  0 <= o < childCount doc n ->
  item (childNodes doc n) o = Some (mkNode (root n) (Z.to_nat o :: rpath n)).
Proof.
  intros H. apply item_Some. split; [lia|].
  unfold childCount, childNodes in *.
  destruct (lookup doc n) as [t|]; [|simpl in H; lia].
  rewrite length_map, length_seq in H.
  rewrite nth_error_map, nth_error_seq.
  destruct (Nat.ltb_spec (Z.to_nat o) (List.length (tree_children t)));
    [reflexivity | lia].
Qed.

Lemma item_childNodes_inv (n m : Node) (o : Z) :
  item (childNodes doc n) o = Some m ->
  0 <= o < childCount doc n /\ m = mkNode (root n) (Z.to_nat o :: rpath n).
Proof.
  intros H.
  assert (R : 0 <= o < childCount doc n).
  { destruct (Z.ltb_spec o 0) as [L|L].
    - unfold item in H. apply Z.ltb_lt in L. rewrite L in H. discriminate.
    - split; [assumption|].
      destruct (Z.ltb_spec o (childCount doc n)); [assumption|].
      assert (N : item (childNodes doc n) o = None)
        by (apply item_None; right; exact H0).
      congruence. }
  split; [exact R|]. rewrite (item_childNodes n o R) in H. congruence.
Qed.

Lemma valid_child (r i : nat) (up : list nat) :
  valid doc (mkNode r (i :: up)) ->
  valid doc (mkNode r up) /\ Z.of_nat i < childCount doc (mkNode r up).
Proof.
  unfold valid, lookup. simpl. intros H.
  destruct (lookup_path doc r up) as [t|] eqn:E; [|congruence].
  split; [congruence|].
  rewrite (childCount_lookup (mkNode r up) t E).
  apply nth_error_Some in H. lia.
Qed.

Lemma valid_of_child (r i : nat) (up : list nat) :
  0 <= Z.of_nat i < childCount doc (mkNode r up) -> valid doc (mkNode r (i :: up)).
Proof.
  unfold valid, lookup. simpl. intros H.
  unfold childCount, childNodes, lookup in H.
  simpl in H.
  destruct (lookup_path doc r up) as [t|] eqn:E; [|simpl in H; lia].
  rewrite length_map, length_seq in H.
  apply nth_error_Some. lia.
Qed.

Lemma valid_suffix (r : nat) (l up : list nat) :
  valid doc (mkNode r (l ++ up)) -> valid doc (mkNode r up).
Proof.
  induction l as [|i l IH]; simpl; [auto|].
  intros H. apply valid_child in H. tauto.
Qed.

Lemma indexOf_child (r i : nat) (up : list nat) :
  valid doc (mkNode r (i :: up)) ->
  indexOf (childNodes doc (mkNode r up)) (mkNode r (i :: up)) = Z.of_nat i.
Proof.
  intros H. destruct (valid_child _ _ _ H) as [Hp Hi].
  unfold valid in Hp.
  destruct (lookup doc (mkNode r up)) as [t|] eqn:E; [|congruence].
  rewrite (childCount_lookup _ t E) in Hi.
  unfold indexOf, childNodes. rewrite E. simpl.
  rewrite indexOf_from_map_seq by lia. lia.
Qed.

Lemma nodeType_valid (n : Node) : nodeType doc n <> OTHER_NODE -> valid doc n.
Proof.
  unfold nodeType, valid.
  destruct (lookup doc n); congruence.
Qed.

(** Only elements, documents and fragments have children. *)
Lemma parent_is_container (n : Node) :
  0 < childCount doc n ->
  nodeType doc n = ELEMENT_NODE \/ nodeType doc n = DOCUMENT_NODE
  \/ nodeType doc n = DOCUMENT_FRAGMENT_NODE.
Proof.
  unfold childCount, childNodes, nodeType.
  destruct (lookup doc n) as [t|]; simpl; [|lia].
  rewrite length_map, length_seq.
  destruct t; simpl; auto; lia.
Qed.

(* ------------------------------------------------------------------ *)
(** ** [compare] is the lexicographic comparison of addresses *)

(** The tie-break, when [m] lies under the child of [n] at index [c]. *)
Lemma pointedCompare_spec (n m : Node) (o : Z) (c : nat) (rest : list nat) :
  root m = root n ->
  rev (rpath m) = rev (rpath n) ++ c :: rest ->
  valid doc m -> 0 <= o ->
  pointedCompare doc n o m = if o <=? Z.of_nat c then -1 else 1.
Proof.
  intros Hr Hp Hv Ho.
  destruct n as [r R], m as [r' M]. simpl in *. subst r'.
  assert (HM : M = rev rest ++ c :: R).
  { apply rev_inj. rewrite Hp, rev_app_distr. simpl.
    rewrite rev_involutive, <- app_assoc. reflexivity. }
  assert (Hc : Z.of_nat c < childCount doc (mkNode r R)).
  { rewrite HM in Hv. apply valid_suffix in Hv.
    apply valid_child in Hv. tauto. }
  unfold pointedCompare.
  destruct (Z.ltb_spec o (childCount doc (mkNode r R))) as [L|L].
  - rewrite item_childNodes by lia. simpl.
    unfold compareDocumentPosition. simpl. rewrite Nat.eqb_refl, Hp.
    rewrite path_position_app. simpl.
    destruct (Nat.eqb_spec (Z.to_nat o) c) as [E|E].
    + destruct (Z.leb_spec o (Z.of_nat c)); [|lia].
      destruct rest as [|x rest]; simpl.
      * simpl in HM. subst M.
        replace (Node_eqb _ _) with true; [reflexivity|].
        symmetry. apply Node_eqb_eq. congruence.
      * rewrite orb_true_r. reflexivity.
    + replace (Node_eqb _ _) with false.
      * destruct (Nat.ltb_spec c (Z.to_nat o));
          destruct (Z.leb_spec o (Z.of_nat c)); try lia; reflexivity.
      * symmetry. apply Node_eqb_neq. intros H. inversion H as [H'].
        assert (X : rev (Z.to_nat o :: R) = rev M) by (rewrite H'; auto).
        simpl in X. rewrite Hp in X. apply app_inv_head in X.
        inversion X. contradiction.
  - replace (item _ o) with (@None Node)
      by (symmetry; apply item_None; right;
          unfold childCount in L; exact L).
    destruct (Z.leb_spec o (Z.of_nat c)); [lia | reflexivity].
Qed.

Lemma key_split (l : DOMLoc) (p q : list nat) :
  rev (rpath (node l)) = p ++ q ->
  key l = map Z.of_nat p ++ (map Z.of_nat q ++ [offset l]).
Proof.
  intros H. unfold key. rewrite H, map_app, <- app_assoc. reflexivity.
Qed.

Theorem compare_lex (a b : DOMLoc) :
  locb doc a = true -> locb doc b = true ->
  root (node a) = root (node b) ->
  compare doc a b = Ok (lex (key a) (key b)).
Proof.
  unfold locb. rewrite !andb_true_iff, !validb_valid, !Z.leb_le.
  intros [Va Oa] [Vb Ob] Hr.
  destruct (path_split (rev (rpath (node a))) (rev (rpath (node b))))
    as (l & p' & q' & Hp & Hq & Hd).
  rewrite (key_split a l p' Hp), (key_split b l q' Hq), lex_app.
  unfold compare, equals.
  destruct p' as [|x p'], q' as [|y q'].
  - (* the same node *)
    rewrite app_nil_r in Hp, Hq.
    assert (E : node a = node b).
    { destruct (node a) as [ra pa], (node b) as [rb pb]. simpl in *.
      f_equal; [assumption|]. apply rev_inj. congruence. }
    rewrite E, Node_eqb_refl. simpl.
    destruct (Z.eqb_spec (offset a) (offset b)); [reflexivity|].
    destruct (Z.ltb_spec (offset a - offset b) 0),
             (Z.ltb_spec (offset a) (offset b)); try lia; reflexivity.
  - (* [b] lies under [a] *)
    rewrite app_nil_r in Hp.
    assert (N : Node_eqb (node a) (node b) = false).
    { apply Node_eqb_neq. intros E. rewrite E in Hp. rewrite Hp in Hq.
      rewrite <- (app_nil_r l) in Hq at 1. apply app_inv_head in Hq.
      discriminate. }
    rewrite N. simpl.
    assert (PP : path_position (rev (rpath (node a))) (rev (rpath (node b)))
                 = 20).
    { rewrite Hq, Hp. rewrite <- (app_nil_r l) at 1.
      rewrite path_position_app. reflexivity. }
    unfold compareDocumentPosition. rewrite Hr, Nat.eqb_refl, PP. simpl.
    rewrite (pointedCompare_spec (node a) (node b) (offset a) y q');
      auto; [|congruence].
    destruct (Z.eqb_spec (offset a) (Z.of_nat y)).
    + destruct (Z.leb_spec (offset a) (Z.of_nat y)); [|lia].
      destruct (map Z.of_nat q' ++ [offset b]) eqn:X; [|reflexivity].
      apply app_eq_nil in X. destruct X; discriminate.
    + destruct (Z.leb_spec (offset a) (Z.of_nat y)),
               (Z.ltb_spec (offset a) (Z.of_nat y)); try lia; reflexivity.
  - (* [a] lies under [b] *)
    rewrite app_nil_r in Hq.
    assert (N : Node_eqb (node a) (node b) = false).
    { apply Node_eqb_neq. intros E. rewrite <- E in Hq. rewrite Hq in Hp.
      rewrite <- (app_nil_r l) in Hp at 1. apply app_inv_head in Hp.
      discriminate. }
    rewrite N. simpl.
    assert (PP : path_position (rev (rpath (node a))) (rev (rpath (node b)))
                 = 10).
    { rewrite Hq, Hp. rewrite <- (app_nil_r l) at 2.
      rewrite path_position_app. reflexivity. }
    unfold compareDocumentPosition. rewrite Hr, Nat.eqb_refl, PP. simpl.
    rewrite (pointedCompare_spec (node b) (node a) (offset b) x p');
      auto; [|congruence].
    destruct (Z.eqb_spec (Z.of_nat x) (offset b)).
    + destruct (Z.leb_spec (offset b) (Z.of_nat x)); [|lia]. simpl.
      destruct (map Z.of_nat p' ++ [offset a]) eqn:X; [|reflexivity].
      apply app_eq_nil in X. destruct X; discriminate.
    + destruct (Z.leb_spec (offset b) (Z.of_nat x)),
               (Z.ltb_spec (Z.of_nat x) (offset b)); try lia; reflexivity.
  - (* neither contains the other *)
    assert (N : Node_eqb (node a) (node b) = false).
    { apply Node_eqb_neq. intros E. rewrite E in Hp. rewrite Hp in Hq.
      apply app_inv_head in Hq. inversion Hq. congruence. }
    rewrite N. simpl.
    unfold compareDocumentPosition. rewrite Hr, Nat.eqb_refl.
    rewrite Hp, Hq, path_position_app. simpl.
    destruct (Nat.eqb_spec x y); [contradiction|].
    destruct (Z.eqb_spec (Z.of_nat x) (Z.of_nat y)); [lia|].
    destruct (Nat.ltb_spec y x), (Z.ltb_spec (Z.of_nat x) (Z.of_nat y));
      try lia; reflexivity.
Qed.

Lemma path_position_values (p q : list nat) :
  (path_position p q = 0 /\ p = q) \/ path_position p q = 20
  \/ path_position p q = 10 \/ path_position p q = 2
  \/ path_position p q = 4.
Proof.
  revert q; induction p as [|x p IH]; intros [|y q]; simpl; auto.
  destruct (Nat.eqb_spec x y) as [->|N].
  - destruct (IH q) as [[E ->]|H]; auto.
  - destruct (y <? x)%nat; auto 6.
Qed.

Lemma compare_disconnected (a b : DOMLoc) :
  root (node a) <> root (node b) ->
  compare doc a b = Throw ComparingDisconnectedNodes.
Proof.
  intros H. unfold compare, equals, Node_eqb, compareDocumentPosition.
  apply Nat.eqb_neq in H. rewrite H. simpl.
  destruct (_ <? _)%nat; reflexivity.
Qed.

(** [compare] throws nothing but [ComparingDisconnectedNodes]: the "neither
    preceding nor following" branch is dead code. *)
Lemma compare_throw (a b : DOMLoc) (e : exn) :
  compare doc a b = Throw e -> e = ComparingDisconnectedNodes.
Proof.
  unfold compare.
  destruct (equals a (Some b)); [discriminate|].
  destruct (Node_eqb (node a) (node b)) eqn:N; [discriminate|].
  unfold compareDocumentPosition.
  destruct (Nat.eqb_spec (root (node a)) (root (node b))) as [R|R].
  - destruct (path_position_values (rev (rpath (node a)))
                                   (rev (rpath (node b))))
      as [[_ E]|[E|[E|[E|E]]]]; try (rewrite E; simpl; discriminate).
    apply rev_inj in E. apply Node_eqb_neq in N. exfalso. apply N.
    destruct (node a), (node b); simpl in *; congruence.
  - simpl. destruct (_ <? _)%nat; simpl; congruence.
Qed.

Lemma contains_total (s : DOMSpace) (l : DOMLoc) :
  exists b, contains doc s l = Ok b.
Proof.
  unfold contains.
  destruct (compare doc (min s) l) as [a|e] eqn:A; simpl.
  - destruct (a <=? 0); [|eauto].
    destruct (compare doc (max s) l) as [b|e] eqn:B; simpl; [eauto|].
    apply compare_throw in B. subst. eauto.
  - apply compare_throw in A. subst. eauto.
Qed.

Lemma contains_other_root (s : DOMSpace) (l : DOMLoc) :
  root (node l) <> root (node (min s)) -> contains doc s l = Ok false.
Proof.
  intros H. unfold contains.
  rewrite compare_disconnected by congruence. reflexivity.
Qed.

Lemma isRelevantWith_valid (test : NodeTest) (n : Node) :
  isRelevantWith doc test n = true -> valid doc n.
Proof.
  unfold isRelevantWith. intros H. apply nodeType_valid.
  destruct (nodeType doc n); congruence.
Qed.

Lemma isRelevant_type (s : DOMSpace) (n : Node) :
  isRelevant doc s n = true ->
  is_container (nodeType doc n) = true \/ nodeType doc n = TEXT_NODE.
Proof.
  unfold isRelevant, isRelevantWith.
  destruct (nodeType doc n); simpl; auto; discriminate.
Qed.

Lemma locb_inv (l : DOMLoc) :
  locb doc l = true -> valid doc (node l) /\ 0 <= offset l.
Proof.
  unfold locb. rewrite andb_true_iff, validb_valid, Z.leb_le. auto.
Qed.

Lemma locb_intro (n : Node) (o : Z) :
  valid doc n -> 0 <= o -> locb doc (mkLoc n o) = true.
Proof.
  intros V O. unfold locb. simpl.
  rewrite andb_true_iff, validb_valid, Z.leb_le. auto.
Qed.

(** What the constructor establishes. *)
Lemma space_inv (s : DOMSpace) :
  spaceb doc s = true ->
  locb doc (min s) = true /\ locb doc (max s) = true
  /\ root (node (min s)) = root (node (max s))
  /\ isRelevant doc s (node (min s)) = true
  /\ isRelevant doc s (node (max s)) = true
  /\ lex (key (min s)) (key (max s)) <= 0.
Proof.
  unfold spaceb, new_DOMSpace. rewrite !andb_true_iff.
  intros [[Lmin Lmax] H].
  destruct (isRelevantWith doc (relevanceTest s) (node (min s))) eqn:R1;
    [|discriminate].
  destruct (isRelevantWith doc (relevanceTest s) (node (max s))) eqn:R2;
    [|discriminate].
  simpl in H.
  destruct (Nat.eq_dec (root (node (max s))) (root (node (min s))))
    as [R|R].
  - rewrite (compare_lex _ _ Lmax Lmin R) in H. simpl in H.
    destruct (Z.ltb_spec (lex (key (max s)) (key (min s))) 0);
      [discriminate|].
    rewrite (lex_antisym (key (min s)) (key (max s))) in *.
    repeat split; auto. lia.
  - rewrite (compare_disconnected _ _ R) in H. discriminate.
Qed.

Lemma contains_lex (s : DOMSpace) (l : DOMLoc) :
  spaceb doc s = true -> locb doc l = true ->
  (contains doc s l = Ok true <-> inside s l).
Proof.
  intros Hs Hl. destruct (space_inv s Hs) as (Lmin & Lmax & R & _ & _ & _).
  unfold inside.
  destruct (Nat.eq_dec (root (node l)) (root (node (min s)))) as [E|E].
  - unfold contains.
    rewrite (compare_lex _ _ Lmin Hl) by congruence.
    rewrite (compare_lex _ _ Lmax Hl) by congruence. simpl.
    pose proof (lex_antisym (key l) (key (max s))) as AS.
    destruct (Z.leb_spec (lex (key (min s)) (key l)) 0); simpl.
    + rewrite Z.geb_leb.
      destruct (Z.leb_spec 0 (lex (key (max s)) (key l))).
      * split; auto. intros _. repeat split; auto; lia.
      * split; [discriminate|]. intros (_ & _ & X). lia.
    + split; [discriminate|]. intros (_ & X & _). lia.
  - rewrite contains_other_root by assumption.
    split; [discriminate | tauto].
Qed.

Lemma contains_false_lex (s : DOMSpace) (l : DOMLoc) :
  spaceb doc s = true -> locb doc l = true ->
  (contains doc s l = Ok false <-> ~ inside s l).
Proof.
  intros Hs Hl. pose proof (contains_lex s l Hs Hl) as C.
  destruct (contains_total s l) as [[|] E]; rewrite E in *.
  - split; [discriminate|]. intros N. exfalso. apply N, C. reflexivity.
  - split; auto. intros _ I. apply C in I. discriminate.
Qed.

(* ------------------------------------------------------------------ *)
(** ** Locations: construction and normalization *)

Lemma new_DOMLoc_ok (n : Node) (o : Z) :
  0 <= o -> new_DOMLoc n o = Ok (mkLoc n o).
Proof.
  intros P. unfold new_DOMLoc. destruct (Z.ltb_spec o 0); [lia | reflexivity].
Qed.

Lemma new_DOMLoc_inv (n : Node) (o : Z) (l : DOMLoc) :
  new_DOMLoc n o = Ok l -> l = mkLoc n o /\ 0 <= o.
Proof.
  unfold new_DOMLoc. destruct (Z.ltb_spec o 0) as [L|L]; [discriminate|].
  intros E. inversion E. auto.
Qed.

Lemma textLength_nonneg (n : Node) : 0 <= textLength doc n.
Proof.
  unfold textLength. destruct (lookup doc n) as [[]|]; simpl; lia.
Qed.

Lemma bound_nonneg (n : Node) (b : Z) : bound doc n = Some b -> 0 <= b.
Proof.
  unfold bound. pose proof (childCount_nonneg n).
  pose proof (textLength_nonneg n).
  destruct (nodeType doc n); intros E; inversion E; subst; auto.
Qed.

Lemma bound_container (n : Node) :
  is_container (nodeType doc n) = true ->
  bound doc n = Some (childCount doc n).
Proof. unfold bound. destruct (nodeType doc n); simpl; congruence. Qed.

Lemma bound_text (n : Node) :
  nodeType doc n = TEXT_NODE -> bound doc n = Some (textLength doc n).
Proof. unfold bound. intros ->. reflexivity. Qed.

Lemma normalizedOffset_bound (l : DOMLoc) (b : Z) :
  bound doc (node l) = Some b ->
  normalizedOffset doc l = Ok (Z.min (offset l) b).
Proof.
  unfold bound, normalizedOffset.
  destruct (nodeType doc (node l)); intros E; inversion E; subst;
    match goal with
    | |- Ok (if ?o >? ?c then _ else _) = _ =>
        destruct (Z.gtb_spec o c); f_equal; lia
    end.
Qed.

Lemma normalizedOffset_unsupported (l : DOMLoc) :
  bound doc (node l) = None ->
  normalizedOffset doc l
  = Throw (Error "cannot normalize offset in a node of type").
Proof.
  unfold bound, normalizedOffset.
  destruct (nodeType doc (node l)); intros E; try discriminate; reflexivity.
Qed.

Lemma isNormalized_iff (l : DOMLoc) :
  isNormalized doc l = Ok true <->
  exists b, bound doc (node l) = Some b /\ offset l <= b.
Proof.
  unfold isNormalized. destruct (bound doc (node l)) as [b|] eqn:B.
  - rewrite (normalizedOffset_bound l b B). simpl. split.
    + intros H. exists b. split; [reflexivity|].
      inversion H as [H']. apply Z.eqb_eq in H'. lia.
    + intros (b' & E & L). inversion E; subst.
      f_equal. apply Z.eqb_eq. lia.
  - rewrite (normalizedOffset_unsupported l B). simpl.
    split; [discriminate | intros (b & E & _); discriminate].
Qed.

Lemma normalizeOffset_This (l : DOMLoc) :
  normalizeOffset doc l = Ok This <-> isNormalized doc l = Ok true.
Proof.
  unfold normalizeOffset, isNormalized.
  destruct (normalizedOffset doc l) as [k|e]; simpl; [|split; discriminate].
  rewrite (Z.eqb_sym k). destruct (offset l =? k).
  - split; reflexivity.
  - destruct (new_DOMLoc (node l) k); simpl; split; discriminate.
Qed.

Lemma normalizeOffset_node (l : DOMLoc) (i : instance) :
  normalizeOffset doc l = Ok i -> node (deref l i) = node l.
Proof.
  unfold normalizeOffset.
  destruct (normalizedOffset doc l) as [k|e]; simpl; [|discriminate].
  destruct (k =? offset l).
  - intros H. inversion H. reflexivity.
  - destruct (new_DOMLoc (node l) k) as [l'|] eqn:E; simpl; [|discriminate].
    intros H. inversion H. apply new_DOMLoc_inv in E. destruct E as [-> _].
    reflexivity.
Qed.

(* ------------------------------------------------------------------ *)
(** ** Spaces: containment of nodes, the scanned chain, escaping *)

Lemma clip_Some (s : DOMSpace) (l y : DOMLoc) :
  clip doc s l = Ok (Some y) -> y = l /\ contains doc s l = Ok true.
Proof.
  unfold clip. destruct (contains doc s l) as [[|]|]; simpl;
    intros H; inversion H; auto.
Qed.

Lemma clip_true (s : DOMSpace) (l : DOMLoc) :
  contains doc s l = Ok true -> clip doc s l = Ok (Some l).
Proof. unfold clip. intros ->. reflexivity. Qed.

Lemma containsNode_root (s : DOMSpace) (n : Node) :
  parentNode n = None -> containsNode doc s n = Ok false.
Proof. unfold containsNode. intros ->. reflexivity. Qed.

Lemma makePointingTo_child (r i : nat) (up : list nat) :
  valid doc (mkNode r (i :: up)) ->
  makePointingTo doc (mkNode r (i :: up))
  = Ok (mkLoc (mkNode r up) (Z.of_nat i)).
Proof.
  intros V. unfold makePointingTo. simpl.
  rewrite indexOf_child by assumption. apply new_DOMLoc_ok. lia.
Qed.

Lemma containsNode_child (s : DOMSpace) (r i : nat) (up : list nat) :
  valid doc (mkNode r (i :: up)) ->
  containsNode doc s (mkNode r (i :: up))
  = contains doc s (mkLoc (mkNode r up) (Z.of_nat i)).
Proof.
  intros V. unfold containsNode.
  rewrite (makePointingTo_child r i up V). reflexivity.
Qed.

Lemma scan_None (s : DOMSpace) (first : option Node) (l : list Node) :
  scan doc s first l = Ok None <->
  Forall (fun n => isRelevant doc s n = true) l.
Proof.
  induction l as [|c l IH]; simpl.
  - split; auto.
  - destruct (isRelevant doc s c) eqn:R; simpl.
    + rewrite IH. split; [auto | intros H; inversion H; auto].
    + split.
      * destruct (same_node c first); [discriminate|].
        destruct (parentNode c); [|discriminate].
        destruct (new_DOMLoc _ _); simpl; discriminate.
      * intros H. inversion H. congruence.
Qed.

Lemma escape_This_iff (s : DOMSpace) (x : DOMLoc) :
  escapeIrrelevantNode doc s x = Ok This <-> settled doc s x.
Proof.
  unfold escapeIrrelevantNode, settled, relevant_chain. split.
  - destruct (contains doc s x) as [[|]|]; simpl; try discriminate.
    destruct (normalizeOffset doc x) as [i|] eqn:N; simpl; [|discriminate].
    rewrite (normalizeOffset_node x i N).
    destruct (ancestorsAndSelf doc s (node x)) as [chain|]; simpl;
      [|discriminate].
    destruct (scan doc s _ (rev chain)) as [[l|]|] eqn:S; simpl;
      try discriminate.
    intros H. inversion H; subst.
    split; [reflexivity|]. split; [apply normalizeOffset_This; exact N|].
    exists chain. split; [reflexivity|].
    apply scan_None in S. apply Forall_rev in S.
    rewrite rev_involutive in S. exact S.
  - intros (C & N & chain & A & F).
    rewrite C. simpl. apply normalizeOffset_This in N. rewrite N. simpl.
    rewrite A. simpl.
    apply Forall_rev in F.
    match goal with
    | |- bind (scan doc s ?f _) _ = _ =>
        apply (scan_None s f) in F; rewrite F
    end.
    reflexivity.
Qed.

(* ------------------------------------------------------------------ *)
(** ** One step of [next] and [previous], case by case *)

Section Steps.

Variables (s : DOMSpace) (x : DOMLoc) (e : instance) (n : Node) (o : Z).
Hypothesis He : escapeIrrelevantNode doc s x = Ok e.
Hypothesis Hn : deref x e = mkLoc n o.

Lemma next_at_child (c : Node) :
  is_container (nodeType doc n) = true ->
  item (childNodes doc n) o = Some c ->
  isRelevant doc s c = true ->
  next doc s x = clip doc s (mkLoc c 0).
Proof.
  intros T I R. unfold next. rewrite He. simpl. rewrite Hn. simpl.
  destruct (nodeType doc n); try discriminate; rewrite I, R; reflexivity.
Qed.

Lemma next_over_child (c : Node) :
  is_container (nodeType doc n) = true ->
  item (childNodes doc n) o = Some c ->
  isRelevant doc s c = false ->
  next doc s x = clip doc s (mkLoc n (o + 1)).
Proof.
  intros T I R. unfold next. rewrite He. simpl. rewrite Hn. simpl.
  assert (O : 0 <= o) by (apply item_Some in I; tauto).
  destruct (nodeType doc n); try discriminate; rewrite I, R;
    rewrite new_DOMLoc_ok by lia; reflexivity.
Qed.

Lemma next_at_end :
  is_container (nodeType doc n) = true ->
  item (childNodes doc n) o = None ->
  next doc s x = ascend_after doc s n.
Proof.
  intros T I. unfold next. rewrite He. simpl. rewrite Hn. simpl.
  destruct (nodeType doc n); try discriminate; rewrite I; reflexivity.
Qed.

Lemma next_in_text :
  nodeType doc n = TEXT_NODE ->
  0 <= o -> o + 1 <= textLength doc n ->
  next doc s x = clip doc s (mkLoc n (o + 1)).
Proof.
  intros T O L. unfold next. rewrite He. simpl. rewrite Hn. simpl.
  rewrite T. destruct (Z.leb_spec (o + 1) (textLength doc n)); [|lia].
  rewrite new_DOMLoc_ok by lia. reflexivity.
Qed.

Lemma next_text_end :
  nodeType doc n = TEXT_NODE ->
  textLength doc n < o + 1 ->
  next doc s x = ascend_after doc s n.
Proof.
  intros T L. unfold next. rewrite He. simpl. rewrite Hn. simpl.
  rewrite T. destruct (Z.leb_spec (o + 1) (textLength doc n)); [lia|].
  reflexivity.
Qed.

Lemma previous_into_child (c : Node) :
  is_container (nodeType doc n) = true ->
  item (childNodes doc n) (o - 1) = Some c ->
  isRelevant doc s c = true ->
  previous doc s x = clip doc s (mkLoc c (end_offset doc c)).
Proof.
  intros T I R. unfold previous. rewrite He. simpl. rewrite Hn. simpl.
  assert (E : 0 <= end_offset doc c).
  { unfold end_offset. pose proof (childCount_nonneg c).
    pose proof (textLength_nonneg c). destruct (nodeType doc c); auto. }
  fold (end_offset doc c).
  destruct (nodeType doc n); try discriminate; rewrite I, R;
    rewrite new_DOMLoc_ok by exact E; reflexivity.
Qed.

Lemma previous_over_child (c : Node) :
  is_container (nodeType doc n) = true ->
  item (childNodes doc n) (o - 1) = Some c ->
  isRelevant doc s c = false ->
  previous doc s x = clip doc s (mkLoc n (o - 1)).
Proof.
  intros T I R. unfold previous. rewrite He. simpl. rewrite Hn. simpl.
  assert (O : 0 <= o - 1) by (apply item_Some in I; tauto).
  destruct (nodeType doc n); try discriminate; rewrite I, R;
    rewrite new_DOMLoc_ok by lia; reflexivity.
Qed.

Lemma previous_at_start :
  is_container (nodeType doc n) = true ->
  item (childNodes doc n) (o - 1) = None ->
  previous doc s x = ascend_at doc s n.
Proof.
  intros T I. unfold previous. rewrite He. simpl. rewrite Hn. simpl.
  destruct (nodeType doc n); try discriminate; rewrite I; reflexivity.
Qed.

Lemma previous_in_text :
  nodeType doc n = TEXT_NODE ->
  0 <= o - 1 ->
  previous doc s x = clip doc s (mkLoc n (o - 1)).
Proof.
  intros T O. unfold previous. rewrite He. simpl. rewrite Hn. simpl.
  rewrite T. rewrite Z.geb_leb. destruct (Z.leb_spec 0 (o - 1)); [|lia].
  rewrite new_DOMLoc_ok by lia. reflexivity.
Qed.

Lemma previous_text_start :
  nodeType doc n = TEXT_NODE ->
  o - 1 < 0 ->
  previous doc s x = ascend_at doc s n.
Proof.
  intros T O. unfold previous. rewrite He. simpl. rewrite Hn. simpl.
  rewrite T. rewrite Z.geb_leb. destruct (Z.leb_spec 0 (o - 1)); [lia|].
  reflexivity.
Qed.

End Steps.

Lemma ascend_after_child (s : DOMSpace) (r i : nat) (up : list nat) :
  valid doc (mkNode r (i :: up)) ->
  ascend_after doc s (mkNode r (i :: up))
  = clip doc s (mkLoc (mkNode r up) (Z.of_nat i + 1)).
Proof.
  intros V. unfold ascend_after. simpl.
  rewrite indexOf_child by assumption.
  rewrite new_DOMLoc_ok by lia. reflexivity.
Qed.

Lemma ascend_at_child (s : DOMSpace) (r i : nat) (up : list nat) :
  valid doc (mkNode r (i :: up)) ->
  ascend_at doc s (mkNode r (i :: up))
  = clip doc s (mkLoc (mkNode r up) (Z.of_nat i)).
Proof.
  intros V. unfold ascend_at. simpl.
  rewrite indexOf_child by assumption.
  rewrite new_DOMLoc_ok by lia. reflexivity.
Qed.

(* ------------------------------------------------------------------ *)
(** ** The scanned chain along the parent link *)

Lemma chain_cons (s : DOMSpace) (r i : nat) (up : list nat) :
  valid doc (mkNode r (i :: up)) ->
  ancestorsAndSelf_at doc s r (i :: up)
  = (c <- contains doc s (mkLoc (mkNode r up) (Z.of_nat i)) ;;
     if c then
       rest <- ancestorsAndSelf_at doc s r up ;;
       Ok (mkNode r (i :: up) :: rest)
     else Ok []).
Proof.
  intros V. simpl. rewrite <- (containsNode_child s r i up V). reflexivity.
Qed.

Lemma key_child(r i : nat) (up : list nat) (o : Z) :
  key (mkLoc (mkNode r (i :: up)) o)
  = key (mkLoc (mkNode r up) (Z.of_nat i)) ++ [o].
Proof.
  unfold key. simpl. rewrite map_app. reflexivity.
Qed.

Lemma relevant_chain_child (s : DOMSpace) (r i : nat) (up : list nat) :
  valid doc (mkNode r (i :: up)) ->
  isRelevant doc s (mkNode r (i :: up)) = true ->
  relevant_chain doc s (mkNode r up) ->
  relevant_chain doc s (mkNode r (i :: up)).
Proof.
  intros V R (chain & A & F). unfold relevant_chain, ancestorsAndSelf in *.
  cbn [root rpath] in *. rewrite (chain_cons s r i up V), A.
  destruct (contains_total s (mkLoc (mkNode r up) (Z.of_nat i))) as [b ->].
  simpl. destruct b; eauto.
Qed.

(** A node that is not a contained node has no contained ancestor, as long
    as some location in it is in the space. *)
Lemma relevant_chain_parent (s : DOMSpace) (r i : nat) (up : list nat)
      (o : Z) :
  spaceb doc s = true ->
  valid doc (mkNode r (i :: up)) -> 0 <= o ->
  contains doc s (mkLoc (mkNode r (i :: up)) o) = Ok true ->
  relevant_chain doc s (mkNode r (i :: up)) ->
  relevant_chain doc s (mkNode r up).
Proof.
  intros Hs V O C (chain & A & F). unfold relevant_chain, ancestorsAndSelf in *.
  cbn [root rpath] in *. rewrite (chain_cons s r i up V) in A.
  destruct (valid_child r i up V) as [Vp Hi].
  destruct (contains_total s (mkLoc (mkNode r up) (Z.of_nat i))) as [b Cb].
  rewrite Cb in A. simpl in A. destruct b.
  - destruct (ancestorsAndSelf_at doc s r up) as [rest|]; simpl in A;
      [|discriminate].
    inversion A; subst. inversion F; subst. eauto.
  - destruct up as [|j up']; [exists []; split; [reflexivity | constructor]|].
    exists []. split; [|constructor].
    rewrite (chain_cons s r j up' Vp).
    destruct (valid_child r j up' Vp) as [Vq Hj].
    replace (contains doc s (mkLoc (mkNode r up') (Z.of_nat j)))
      with (@Ok bool false); [reflexivity|].
    symmetry. apply contains_false_lex;
      [assumption | apply locb_intro; [assumption | lia] |].
    apply contains_false_lex in Cb;
      [|assumption | apply locb_intro; [assumption | lia]].
    apply contains_lex in C;
      [|assumption | apply locb_intro; assumption].
    intros (Rq & Q1 & Q2). apply Cb.
    destruct C as (Rx & X1 & X2). unfold inside. simpl in *.
    split; [assumption|].
    pose proof (lex_prefix (key (mkLoc (mkNode r up') (Z.of_nat j)))
                           [] (Z.of_nat i)) as P1.
    rewrite <- key_child in P1.
    pose proof (lex_prefix (key (mkLoc (mkNode r (j :: up')) (Z.of_nat i)))
                           [] o) as P2.
    rewrite <- key_child in P2.
    split.
    + rewrite (lex_le_lt_trans _ _ _ Q1 P1). lia.
    + rewrite (lex_lt_le_trans _ _ _ P2 X2). lia.
Qed.

Lemma bound_end (s : DOMSpace) (c : Node) :
  isRelevant doc s c = true -> bound doc c = Some (end_offset doc c).
Proof.
  unfold isRelevant, isRelevantWith, bound, end_offset.
  destruct (nodeType doc c); intros H; try discriminate; reflexivity.
Qed.

Lemma settled_intro (s : DOMSpace) (n : Node) (o b : Z) :
  contains doc s (mkLoc n o) = Ok true ->
  bound doc n = Some b -> o <= b ->
  relevant_chain doc s n ->
  escapeIrrelevantNode doc s (mkLoc n o) = Ok This.
Proof.
  intros C B L R. apply escape_This_iff. split; [assumption|].
  split; [|assumption]. apply isNormalized_iff. exists b. auto.
Qed.

(* ------------------------------------------------------------------ *)
(** ** Stepping back and forth *)

Lemma item_child (r i : nat) (up : list nat) :
  valid doc (mkNode r (i :: up)) ->
  item (childNodes doc (mkNode r up)) (Z.of_nat i) = Some (mkNode r (i :: up)).
Proof.
  intros V. destruct (valid_child r i up V) as [_ Hi].
  rewrite item_childNodes by lia. simpl. rewrite Nat2Z.id. reflexivity.
Qed.

Lemma parent_type (r i : nat) (up : list nat) :
  valid doc (mkNode r (i :: up)) ->
  is_container (nodeType doc (mkNode r up)) = true.
Proof.
  intros V. destruct (valid_child r i up V) as [_ Hi].
  destruct (parent_is_container (mkNode r up)) as [T|[T|T]];
    [lia | rewrite T; reflexivity ..].
Qed.


(** Descending to the end of the node undoes the ascent of [next]. *)
Lemma previous_after_ascend_after (s : DOMSpace) (n : Node) (y : DOMLoc) :
  spaceb doc s = true ->
  isRelevant doc s n = true ->
  contains doc s (mkLoc n (end_offset doc n)) = Ok true ->
  relevant_chain doc s n ->
  ascend_after doc s n = Ok (Some y) ->
  previous doc s y = Ok (Some (mkLoc n (end_offset doc n))).
Proof.
  intros Hs Rn C Ch A. destruct n as [r [|i up]]; [discriminate|].
  assert (V : valid doc (mkNode r (i :: up)))
    by (eapply isRelevantWith_valid; exact Rn).
  destruct (valid_child r i up V) as [Vp Hi].
  rewrite (ascend_after_child s r i up V) in A.
  apply clip_Some in A. destruct A as [-> Cy].
  pose proof (parent_type r i up V) as Tp.
  assert (E : 0 <= end_offset doc (mkNode r (i :: up))).
  { eapply bound_nonneg. eapply bound_end. exact Rn. }
  assert (He : escapeIrrelevantNode doc s
                 (mkLoc (mkNode r up) (Z.of_nat i + 1)) = Ok This).
  { eapply settled_intro; [exact Cy | apply bound_container; exact Tp | lia |].
    eapply relevant_chain_parent; eauto. }
  assert (I : item (childNodes doc (mkNode r up)) (Z.of_nat i + 1 - 1)
              = Some (mkNode r (i :: up))).
  { replace (Z.of_nat i + 1 - 1) with (Z.of_nat i) by lia.
    apply item_child. exact V. }
  rewrite (previous_into_child s _ This (mkNode r up) (Z.of_nat i + 1) He
             eq_refl (mkNode r (i :: up)) Tp I Rn).
  apply clip_true. exact C.
Qed.

Lemma settled_data (s : DOMSpace) (n : Node) (o : Z) :
  escapeIrrelevantNode doc s (mkLoc n o) = Ok This ->
  contains doc s (mkLoc n o) = Ok true
  /\ (exists b, bound doc n = Some b /\ o <= b)
  /\ relevant_chain doc s n.
Proof.
  intros H. apply escape_This_iff in H. destruct H as (C & N & Ch).
  apply isNormalized_iff in N. auto.
Qed.


Lemma previous_of_next (s : DOMSpace) (n : Node) (o : Z) (y : DOMLoc) :
  spaceb doc s = true -> 0 <= o ->
  escapeIrrelevantNode doc s (mkLoc n o) = Ok This ->
  isRelevant doc s n = true ->
  next doc s (mkLoc n o) = Ok (Some y) ->
  previous doc s y = Ok (Some (mkLoc n o)).
Proof.
  intros Hs O He Rn P.
  destruct (settled_data s n o He) as (C & (b & B & L) & Ch).
  assert (V : valid doc n) by (eapply isRelevantWith_valid; exact Rn).
  destruct (isRelevant_type s n Rn) as [T|T].
  - (* an element, a document or a fragment *)
    rewrite (bound_container n T) in B. inversion B; subst b; clear B.
    destruct (item (childNodes doc n) o) as [c|] eqn:I.
    + destruct (item_childNodes_inv n c o I) as [Ro Ec].
      assert (Vc : valid doc c)
        by (subst c; apply valid_of_child; destruct n; simpl in *; lia).
      assert (Io : Z.of_nat (Z.to_nat o) = o) by lia.
      destruct (isRelevant doc s c) eqn:Rc.
      * rewrite (next_at_child s _ This n o He eq_refl c T I Rc) in P.
        apply clip_Some in P. destruct P as [-> Cy].
        destruct (bound doc c) as [bc|] eqn:Bc;
          [|rewrite (bound_end s c Rc) in Bc; discriminate].
        assert (He' : escapeIrrelevantNode doc s (mkLoc c 0) = Ok This).
        { eapply settled_intro;
            [exact Cy | exact Bc | eapply bound_nonneg; exact Bc |].
          subst c. destruct n as [r rp]. simpl in *.
          apply relevant_chain_child; assumption. }
        assert (A : ascend_at doc s c = Ok (Some (mkLoc n o))).
        { subst c. destruct n as [r rp]. simpl in *.
          rewrite ascend_at_child by assumption.
          rewrite Io. apply clip_true. exact C. }
        destruct (isRelevant_type s c Rc) as [Tc|Tc].
        -- rewrite (previous_at_start s _ This c 0 He' eq_refl Tc);
             [exact A | reflexivity].
        -- rewrite (previous_text_start s _ This c 0 He' eq_refl Tc);
             [exact A | lia].
      * rewrite (next_over_child s _ This n o He eq_refl c T I Rc) in P.
        apply clip_Some in P. destruct P as [-> Cy].
        assert (He' : escapeIrrelevantNode doc s (mkLoc n (o + 1)) = Ok This).
        { eapply settled_intro;
            [exact Cy | apply bound_container; exact T | lia | exact Ch]. }
        assert (I' : item (childNodes doc n) (o + 1 - 1) = Some c)
          by (replace (o + 1 - 1) with o by lia; exact I).
        rewrite (previous_over_child s _ This n (o + 1) He' eq_refl c T I' Rc).
        replace (o + 1 - 1) with o by lia. apply clip_true. exact C.
    + assert (E : o = end_offset doc n).
      { apply item_None in I. unfold end_offset, childCount in *.
        destruct (nodeType doc n); try discriminate; lia. }
      rewrite (next_at_end s _ This n o He eq_refl T I) in P.
      rewrite E in *. eapply previous_after_ascend_after; eauto.
  - (* a text node *)
    rewrite (bound_text n T) in B. inversion B; subst b; clear B.
    destruct (Z_le_dec (o + 1) (textLength doc n)) as [Q|Q].
    + rewrite (next_in_text s _ This n o He eq_refl T O Q) in P.
      apply clip_Some in P. destruct P as [-> Cy].
      assert (He' : escapeIrrelevantNode doc s (mkLoc n (o + 1)) = Ok This).
      { eapply settled_intro;
          [exact Cy | apply bound_text; exact T | lia | exact Ch]. }
      rewrite (previous_in_text s _ This n (o + 1) He' eq_refl T) by lia.
      replace (o + 1 - 1) with o by lia. apply clip_true. exact C.
    + assert (E : o = end_offset doc n)
        by (unfold end_offset; rewrite T; lia).
      rewrite (next_text_end s _ This n o He eq_refl T) in P by lia.
      rewrite E in *. eapply previous_after_ascend_after; eauto.
Qed.

(* ------------------------------------------------------------------ *)
(** ** No location of the space hides between a location and its neighbour *)

Lemma key_nonneg (l : DOMLoc) : 0 <= offset l -> Forall (fun z => 0 <= z) (key l).
Proof.
  intros O. unfold key. apply Forall_app. split.
  - apply Forall_forall. intros z Hz. apply in_map_iff in Hz.
    destruct Hz as (k & <- & _). lia.
  - constructor; [assumption | constructor].
Qed.

Lemma key_extends_under (m : DOMLoc) (n : Node) (a : nat) (rest : list Z) :
  rest <> [] ->
  key m = key (mkLoc n (Z.of_nat a)) ++ rest ->
  exists l, rpath (node m) = l ++ a :: rpath n.
Proof.
  intros R H. unfold key in H. simpl in H. rewrite <- app_assoc in H.
  simpl in H. apply key_decode_list in H; [|exact R].
  destruct H as (a' & A' & H1 & H2 & _). apply Nat2Z.inj in H2. subst a'.
  exists (rev A'). apply rev_inj. rewrite H1, rev_app_distr. simpl.
  rewrite !rev_involutive, <- app_assoc. reflexivity.
Qed.

Lemma all_relevant_suffix (s : DOMSpace) (r : nat) (l up : list nat) :
  all_relevant_at doc s r (l ++ up) = true ->
  isRelevant doc s (mkNode r up) = true.
Proof.
  induction l as [|i l IH]; simpl.
  - destruct up; simpl; rewrite andb_true_iff; tauto.
  - rewrite andb_true_iff. intros [_ H]. auto.
Qed.

Lemma all_relevant_chain (s : DOMSpace) (r : nat) (rp : list nat) :
  valid doc (mkNode r rp) ->
  all_relevant_at doc s r rp = true ->
  relevant_chain doc s (mkNode r rp).
Proof.
  induction rp as [|i up IH]; intros V A.
  - exists []. split; [reflexivity | constructor].
  - simpl in A. rewrite andb_true_iff in A. destruct A as [R A].
    apply relevant_chain_child; auto.
    apply IH; auto. apply valid_child in V. tauto.
Qed.

Lemma childCount_text (n : Node) :
  nodeType doc n = TEXT_NODE -> childCount doc n = 0.
Proof.
  unfold nodeType, childCount, childNodes.
  destruct (lookup doc n) as [[]|]; simpl; try discriminate; reflexivity.
Qed.

Lemma childCount_le_end (s : DOMSpace) (c : Node) :
  isRelevant doc s c = true -> childCount doc c <= end_offset doc c.
Proof.
  intros R. unfold end_offset.
  destruct (nodeType doc c) eqn:T; try lia.
  rewrite (childCount_text c T). apply textLength_nonneg.
Qed.

(** No normalized location in or under a relevant node [c] comes after the
    end of [c]. *)
Lemma no_loc_beyond_end (s : DOMSpace) (c : Node) (m : DOMLoc)
      (rest : list Z) :
  isRelevant doc s c = true ->
  locb doc m = true -> isNormalized doc m = Ok true ->
  root (node m) = root c ->
  key m = map Z.of_nat (rev (rpath c)) ++ rest ->
  lex [end_offset doc c] rest = -1 ->
  False.
Proof.
  intros Rc Lm Nm Hr Hk Hl. apply locb_inv in Lm. destruct Lm as [Vm Om].
  destruct rest as [|k rest]; simpl in Hl; [lia|].
  pose proof (childCount_le_end s c Rc) as CE.
  destruct rest as [|k2 rest].
  - (* [m] is a location of [c] *)
    unfold key in Hk. apply app_inj_tail in Hk. destruct Hk as [Hp Ho].
    apply map_of_nat_inj, rev_inj in Hp.
    assert (E : node m = c) by (destruct (node m), c; simpl in *; congruence).
    apply isNormalized_iff in Nm. destruct Nm as (b & B & L).
    rewrite E, (bound_end s c Rc) in B. inversion B; subst b.
    destruct (Z.eqb_spec (end_offset doc c) k); [lia|].
    destruct (Z.ltb_spec (end_offset doc c) k); lia.
  - (* [m] is under a child of [c] *)
    unfold key in Hk. apply key_decode_list in Hk; [|discriminate].
    destruct Hk as (k' & A' & H1 & -> & _).
    assert (Hm : rpath (node m) = rev A' ++ k' :: rpath c).
    { apply rev_inj. rewrite H1, rev_app_distr. simpl.
      rewrite rev_involutive, <- app_assoc. reflexivity. }
    destruct (node m) as [rm pm]. simpl in *. subst rm pm.
    apply valid_suffix, valid_child in Vm. destruct Vm as [_ Hc].
    destruct c as [rc pc]. simpl in *.
    destruct (Z.eqb_spec (end_offset doc (mkNode rc pc)) (Z.of_nat k'));
      [lia|].
    destruct (Z.ltb_spec (end_offset doc (mkNode rc pc)) (Z.of_nat k')); lia.
Qed.

(** Nothing lies between the location pointing at a node and the start of
    that node. *)
Lemma no_loc_before_start (n : Node) (a : Z) (m : DOMLoc) :
  0 <= offset m ->
  lex (key (mkLoc n a)) (key m) = -1 ->
  lex (key m) (key (mkLoc n a) ++ [0]) = -1 ->
  False.
Proof.
  intros Om H1 H2. unfold key in H1, H2. simpl in H1, H2.
  rewrite <- app_assoc in H2. simpl in H2.
  destruct (lex_between_start _ _ _ H1 H2) as (x & rest & E & X).
  pose proof (key_nonneg m Om) as F. unfold key in F. rewrite E in F.
  apply Forall_app in F. destruct F as [_ F].
  inversion F as [|? ? _ F']. inversion F'. lia.
Qed.

(** What lies between two neighbouring offsets of [n] is in or under the
    child between them. *)
Lemma between_offsets (n : Node) (a : Z) (m : DOMLoc) :
  lex (key (mkLoc n a)) (key m) = -1 ->
  lex (key m) (key (mkLoc n (a + 1))) = -1 ->
  exists rest, rest <> [] /\ key m = key (mkLoc n a) ++ rest.
Proof.
  intros H1 H2. unfold key in H1, H2. simpl in H1, H2.
  destruct (lex_between _ _ _ H1 H2) as (rest & R & E).
  exists rest. split; [exact R|]. unfold key at 2. simpl.
  rewrite <- app_assoc. exact E.
Qed.

Lemma inside_pred (s : DOMSpace) (x cand : DOMLoc) :
  inside s x ->
  root (node cand) = root (node x) ->
  lex (key cand) (key x) = -1 ->
  (lex (key cand) (key (min s)) = -1 -> False) ->
  inside s cand.
Proof.
  intros (R & X1 & X2) Rc L N. split; [congruence|]. split.
  - destruct (lex_range (key (min s)) (key cand)) as [E|[E|E]]; try lia.
    exfalso. apply N. rewrite lex_antisym, E. reflexivity.
  - rewrite (lex_lt_le_trans _ _ _ L X2). lia.
Qed.

Lemma inside_succ (s : DOMSpace) (x cand : DOMLoc) :
  inside s x ->
  root (node cand) = root (node x) ->
  lex (key x) (key cand) = -1 ->
  (lex (key (max s)) (key cand) = -1 -> False) ->
  inside s cand.
Proof.
  intros (R & X1 & X2) Rc L N. split; [congruence|]. split.
  - rewrite (lex_le_lt_trans _ _ _ X1 L). lia.
  - destruct (lex_range (key cand) (key (max s))) as [E|[E|E]]; try lia.
    exfalso. apply N. rewrite lex_antisym, E. reflexivity.
Qed.

(* ------------------------------------------------------------------ *)
(** ** Inside the space, a step exists *)

Lemma key_same_node_lt (n : Node) (a b : Z) :
  a < b -> lex (key (mkLoc n a)) (key (mkLoc n b)) = -1.
Proof.
  intros H. unfold key. simpl. rewrite lex_app. simpl.
  destruct (Z.eqb_spec a b); [lia|]. destruct (Z.ltb_spec a b); lia.
Qed.

Lemma key_child_lt (n : Node) (a b e : Z) :
  a < b -> lex (key (mkLoc n a) ++ [e]) (key (mkLoc n b)) = -1.
Proof.
  intros H. unfold key. simpl. rewrite <- app_assoc, lex_app. simpl.
  destruct (Z.eqb_spec a b); [lia|]. destruct (Z.ltb_spec a b); lia.
Qed.

Lemma key_as_child (r a : nat) (rp : list nat) :
  key (mkLoc (mkNode r rp) (Z.of_nat a))
  = map Z.of_nat (rev (rpath (mkNode r (a :: rp)))).
Proof. unfold key. simpl. rewrite map_app. reflexivity. Qed.

(** A location of the space strictly between two neighbouring offsets of
    [n] makes the child between them an ancestor-or-self of its node. *)
Lemma under_child (n : Node) (a : nat) (m : DOMLoc) :
  root (node m) = root n ->
  lex (key (mkLoc n (Z.of_nat a))) (key m) = -1 ->
  lex (key m) (key (mkLoc n (Z.of_nat a + 1))) = -1 ->
  exists l, node m = mkNode (root n) (l ++ a :: rpath n).
Proof.
  intros R H1 H2.
  destruct (between_offsets n _ m H1 H2) as (rest & N & E).
  destruct (key_extends_under m n a rest N E) as [l Hl].
  exists l. destruct (node m); simpl in *; congruence.
Qed.

Lemma not_under_irrelevant (s : DOMSpace) (n : Node) (a : nat) (m : DOMLoc) :
  all_relevant doc s (node m) = true ->
  isRelevant doc s (mkNode (root n) (a :: rpath n)) = false ->
  root (node m) = root n ->
  lex (key (mkLoc n (Z.of_nat a))) (key m) = -1 ->
  lex (key m) (key (mkLoc n (Z.of_nat a + 1))) = -1 ->
  False.
Proof.
  intros A Rc R H1 H2. destruct (under_child n a m R H1 H2) as [l E].
  unfold all_relevant in A. rewrite E in A. simpl in A.
  apply all_relevant_suffix in A. congruence.
Qed.

Lemma not_under_text (n : Node) (a : nat) (m : DOMLoc) :
  valid doc (node m) ->
  nodeType doc n = TEXT_NODE ->
  root (node m) = root n ->
  lex (key (mkLoc n (Z.of_nat a))) (key m) = -1 ->
  lex (key m) (key (mkLoc n (Z.of_nat a + 1))) = -1 ->
  False.
Proof.
  intros V T R H1 H2. destruct (under_child n a m R H1 H2) as [l E].
  rewrite E in V. apply valid_suffix, valid_child in V.
  destruct n as [r rp]. simpl in *. destruct V as [_ V].
  rewrite (childCount_text _ T) in V. lia.
Qed.



Lemma ascend_after_exists (s : DOMSpace) (n : Node) :
  spaceb doc s = true -> isRelevant doc s n = true ->
  isNormalized doc (max s) = Ok true ->
  inside s (mkLoc n (end_offset doc n)) ->
  lex (key (mkLoc n (end_offset doc n))) (key (max s)) = -1 ->
  exists y, ascend_after doc s n = Ok (Some y).
Proof.
  intros Hs Rn Nmax I L.
  assert (V : valid doc n) by (eapply isRelevantWith_valid; exact Rn).
  destruct (space_inv s Hs) as (_ & Lmax & Rmm & _).
  assert (Rmax : root (node (max s)) = root n)
    by (destruct I as [R _]; simpl in R; congruence).
  destruct n as [r [|i up]].
  - exfalso. apply (no_loc_beyond_end s (mkNode r []) (max s) (key (max s)));
      auto.
  - destruct (valid_child r i up V) as [Vp Hi].
    rewrite (ascend_after_child s r i up V).
    eexists. apply clip_true. apply contains_lex;
      [assumption | apply locb_intro; [assumption | lia] |].
    apply (inside_succ s (mkLoc (mkNode r (i :: up))
                                (end_offset doc (mkNode r (i :: up))))); auto.
    + rewrite key_child. apply key_child_lt. lia.
    + intros G.
      assert (G1 : lex (key (mkLoc (mkNode r up) (Z.of_nat i)))
                       (key (max s)) = -1).
      { eapply lex_trans; [|exact L]. rewrite key_child. apply lex_prefix. }
      destruct (between_offsets (mkNode r up) _ (max s) G1)
        as (rest & Nr & Er).
      { exact G. }
      apply (no_loc_beyond_end s (mkNode r (i :: up)) (max s) rest); auto.
      * rewrite Er, key_as_child. reflexivity.
      * rewrite key_child, Er, lex_app in L. exact L.
Qed.

Lemma next_exists (s : DOMSpace) (n : Node) (o : Z) :
  spaceb doc s = true -> 0 <= o ->
  escapeIrrelevantNode doc s (mkLoc n o) = Ok This ->
  isRelevant doc s n = true ->
  isNormalized doc (max s) = Ok true ->
  all_relevant doc s (node (max s)) = true ->
  lex (key (mkLoc n o)) (key (max s)) = -1 ->
  exists y, next doc s (mkLoc n o) = Ok (Some y).
Proof.
  intros Hs O He Rn Nmax Amax L.
  destruct (settled_data s n o He) as (C & (b & B & Lb) & Ch).
  assert (V : valid doc n) by (eapply isRelevantWith_valid; exact Rn).
  destruct (space_inv s Hs) as (_ & Lmax & _).
  pose proof Lmax as Lmax'. apply locb_inv in Lmax'.
  destruct Lmax' as [Vmax Omax].
  assert (I : inside s (mkLoc n o))
    by (apply contains_lex; auto; apply locb_intro; auto).
  assert (Rmax : root (node (max s)) = root n).
  { apply space_inv in Hs. destruct I as [R _]. simpl in R.
    destruct Hs as (_ & _ & R' & _). congruence. }
  assert (Step : forall cand,
             root (node cand) = root n -> valid doc (node cand) ->
             0 <= offset cand ->
             lex (key (mkLoc n o)) (key cand) = -1 ->
             (lex (key (max s)) (key cand) = -1 -> False) ->
             exists y, clip doc s cand = Ok (Some y)).
  { intros cand Rc Vc Oc Lc G. eexists. apply clip_true.
    apply contains_lex; [assumption | |].
    - destruct cand. apply locb_intro; assumption.
    - apply (inside_succ s (mkLoc n o)); auto. }
  assert (Eo : Z.of_nat (Z.to_nat o) = o) by lia.
  destruct (isRelevant_type s n Rn) as [T|T].
  - rewrite (bound_container n T) in B. inversion B; subst b; clear B.
    destruct (item (childNodes doc n) o) as [c|] eqn:It.
    + destruct (item_childNodes_inv n c o It) as [Ro Ec].
      assert (Vc : valid doc c)
        by (subst c; apply valid_of_child; destruct n; simpl in *; lia).
      destruct (isRelevant doc s c) eqn:Rc.
      * rewrite (next_at_child s _ This n o He eq_refl c T It Rc).
        assert (Kc : key (mkLoc c 0) = key (mkLoc n o) ++ [0]).
        { subst c. destruct n. simpl. rewrite key_child, Eo. reflexivity. }
        apply Step; simpl; auto; [subst c; reflexivity | lia | |].
        -- rewrite Kc. apply lex_prefix.
        -- intros G. rewrite Kc in G.
           eapply (no_loc_before_start n o (max s)); eauto.
      * rewrite (next_over_child s _ This n o He eq_refl c T It Rc).
        apply Step; simpl; auto; [lia | apply key_same_node_lt; lia |].
        intros G. rewrite <- Eo in G, L.
        eapply (not_under_irrelevant s n (Z.to_nat o) (max s)); eauto.
        rewrite <- Ec. exact Rc.
    + assert (E : o = end_offset doc n).
      { apply item_None in It. unfold end_offset, childCount in *.
        destruct (nodeType doc n); try discriminate; lia. }
      rewrite (next_at_end s _ This n o He eq_refl T It).
      rewrite E in *. apply ascend_after_exists; auto.
  - rewrite (bound_text n T) in B. inversion B; subst b; clear B.
    destruct (Z_le_dec (o + 1) (textLength doc n)) as [Q|Q].
    + rewrite (next_in_text s _ This n o He eq_refl T O Q).
      apply Step; simpl; auto; [lia | apply key_same_node_lt; lia |].
      intros G. rewrite <- Eo in G, L.
      eapply (not_under_text n (Z.to_nat o) (max s)); eauto.
    + assert (E : o = end_offset doc n)
        by (unfold end_offset; rewrite T; lia).
      rewrite (next_text_end s _ This n o He eq_refl T) by lia.
      rewrite E in *. apply ascend_after_exists; auto.
Qed.

Lemma new_DOMSpace_inv (mn mx : DOMLoc) (test : NodeTest) (s : DOMSpace) :
  new_DOMSpace doc mn mx test = Ok s ->
  s = mkSpace mn mx test
  /\ isRelevantWith doc test (node mn) = true
  /\ isRelevantWith doc test (node mx) = true.
Proof.
  unfold new_DOMSpace.
  destruct (isRelevantWith doc test (node mn)); [|discriminate].
  destruct (isRelevantWith doc test (node mx)); [|discriminate].
  simpl. destruct (compare doc mx mn) as [c|]; simpl; [|discriminate].
  destruct (c <? 0); [discriminate|]. intros H. inversion H. auto.
Qed.

Lemma spaceb_intro (mn mx : DOMLoc) (test : NodeTest) (s : DOMSpace) :
  new_DOMSpace doc mn mx test = Ok s ->
  0 <= offset mn -> 0 <= offset mx ->
  spaceb doc s = true.
Proof.
  intros H On Ox. destruct (new_DOMSpace_inv mn mx test s H) as (E & Rn & Rx).
  subst s. unfold spaceb. simpl. rewrite H.
  destruct mn as [nn on], mx as [nx ox]. simpl in *.
  rewrite !locb_intro; auto; eapply isRelevantWith_valid; eauto.
Qed.

End DomFacts.

(* ------------------------------------------------------------------ *)
(** ** Steps move strictly forward and strictly backward *)

Section Monotone.

Variable doc : list tree.

Lemma clip_cases (s : DOMSpace) (l : DOMLoc) :
  clip doc s l = Ok None
  \/ (clip doc s l = Ok (Some l) /\ contains doc s l = Ok true).
Proof.
  unfold clip. destruct (contains_total doc s l) as [[|] ->]; simpl; auto.
Qed.

Lemma supported_valid (n : Node) :
  is_container (nodeType doc n) = true \/ nodeType doc n = TEXT_NODE ->
  valid doc n.
Proof.
  intros [T|T]; apply nodeType_valid; destruct (nodeType doc n); discriminate.
Qed.

(** Whatever [next] returns lies strictly after the escaped location, and
    after every out-of-range location of the same node when the escaped
    offset is the end of the node. *)
Lemma next_result (s : DOMSpace) (x : DOMLoc) (e : instance) (n : Node)
      (k : Z) :
  escapeIrrelevantNode doc s x = Ok e ->
  deref x e = mkLoc n k -> 0 <= k ->
  is_container (nodeType doc n) = true \/ nodeType doc n = TEXT_NODE ->
  next doc s x = Ok None
  \/ exists y,
       next doc s x = Ok (Some y)
       /\ contains doc s y = Ok true
       /\ locb doc y = true
       /\ forall o', o' = k \/ (bound doc n = Some k /\ k <= o') ->
                     lex (key (mkLoc n o')) (key y) = -1.
Proof.
  intros He Hn O T.
  pose proof (supported_valid n T) as V.
  assert (Up : ascend_after doc s n = Ok None
               \/ exists y,
                    ascend_after doc s n = Ok (Some y)
                    /\ contains doc s y = Ok true
                    /\ locb doc y = true
                    /\ forall o', lex (key (mkLoc n o')) (key y) = -1).
  { destruct n as [r [|i up]]; [left; reflexivity|].
    rewrite (ascend_after_child doc s r i up V).
    destruct (clip_cases s (mkLoc (mkNode r up) (Z.of_nat i + 1)))
      as [C|[C1 C2]]; [left; exact C | right].
    destruct (valid_child doc r i up V) as [Vp _].
    eexists. split; [exact C1|]. split; [exact C2|].
    split; [apply locb_intro; [exact Vp | lia]|].
    intros o'. rewrite key_child. apply key_child_lt. lia. }
  assert (Up' : ascend_after doc s n = Ok None
               \/ exists y,
                    ascend_after doc s n = Ok (Some y)
                    /\ contains doc s y = Ok true
                    /\ locb doc y = true
                    /\ forall o', o' = k \/ (bound doc n = Some k /\ k <= o') ->
                                  lex (key (mkLoc n o')) (key y) = -1).
  { destruct Up as [U|(y & U1 & U2 & U3 & U4)]; [left; exact U | right].
    exists y. auto. }
  destruct T as [T|T].
  - destruct (item (childNodes doc n) k) as [c|] eqn:I.
    + destruct (item_childNodes_inv doc n c k I) as [Rk Ec].
      assert (Only : forall o', o' = k \/ (bound doc n = Some k /\ k <= o') ->
                                o' = k).
      { intros o' [E|[B _]]; [exact E|].
        rewrite (bound_container doc n T) in B. inversion B. lia. }
      assert (Vc : valid doc c)
        by (subst c; apply valid_of_child; destruct n; simpl in *; lia).
      destruct (isRelevant doc s c) eqn:Rc.
      * rewrite (next_at_child doc s x e n k He Hn c T I Rc).
        destruct (clip_cases s (mkLoc c 0)) as [C|[C1 C2]];
          [left; exact C | right].
        eexists. split; [exact C1|]. split; [exact C2|].
        split; [apply locb_intro; [exact Vc | lia]|].
        intros o' Ho. rewrite (Only o' Ho). subst c. destruct n as [r rp].
        simpl. rewrite key_child.
        replace (Z.of_nat (Z.to_nat k)) with k by lia. apply lex_prefix.
      * rewrite (next_over_child doc s x e n k He Hn c T I Rc).
        destruct (clip_cases s (mkLoc n (k + 1))) as [C|[C1 C2]];
          [left; exact C | right].
        eexists. split; [exact C1|]. split; [exact C2|].
        split; [apply locb_intro; [exact V | lia]|].
        intros o' Ho. rewrite (Only o' Ho). apply key_same_node_lt. lia.
    + rewrite (next_at_end doc s x e n k He Hn T I). exact Up'.
  - destruct (Z_le_dec (k + 1) (textLength doc n)) as [Q|Q].
    + rewrite (next_in_text doc s x e n k He Hn T O Q).
      destruct (clip_cases s (mkLoc n (k + 1))) as [C|[C1 C2]];
        [left; exact C | right].
      eexists. split; [exact C1|]. split; [exact C2|].
      split; [apply locb_intro; [exact V | lia]|].
      intros o' [->|[B _]]; [apply key_same_node_lt; lia|].
      rewrite (bound_text doc n T) in B. inversion B. lia.
    + rewrite (next_text_end doc s x e n k He Hn T) by lia. exact Up'.
Qed.

(** Whatever [previous] returns lies strictly before the escaped
    location. *)
Lemma previous_result (s : DOMSpace) (x : DOMLoc) (e : instance) (n : Node)
      (k : Z) :
  escapeIrrelevantNode doc s x = Ok e ->
  deref x e = mkLoc n k -> 0 <= k ->
  is_container (nodeType doc n) = true \/ nodeType doc n = TEXT_NODE ->
  previous doc s x = Ok None
  \/ exists y,
       previous doc s x = Ok (Some y)
       /\ contains doc s y = Ok true
       /\ locb doc y = true
       /\ lex (key y) (key (mkLoc n k)) = -1.
Proof.
  intros He Hn O T.
  pose proof (supported_valid n T) as V.
  assert (Up : ascend_at doc s n = Ok None
               \/ exists y,
                    ascend_at doc s n = Ok (Some y)
                    /\ contains doc s y = Ok true
                    /\ locb doc y = true
                    /\ lex (key y) (key (mkLoc n k)) = -1).
  { destruct n as [r [|i up]]; [left; reflexivity|].
    rewrite (ascend_at_child doc s r i up V).
    destruct (clip_cases s (mkLoc (mkNode r up) (Z.of_nat i)))
      as [C|[C1 C2]]; [left; exact C | right].
    destruct (valid_child doc r i up V) as [Vp _].
    eexists. split; [exact C1|]. split; [exact C2|].
    split; [apply locb_intro; [exact Vp | lia]|].
    rewrite key_child. apply lex_prefix. }
  destruct T as [T|T].
  - destruct (item (childNodes doc n) (k - 1)) as [c|] eqn:I.
    + destruct (item_childNodes_inv doc n c (k - 1) I) as [Rk Ec].
      assert (Vc : valid doc c)
        by (subst c; apply valid_of_child; destruct n; simpl in *; lia).
      destruct (isRelevant doc s c) eqn:Rc.
      * rewrite (previous_into_child doc s x e n k He Hn c T I Rc).
        destruct (clip_cases s (mkLoc c (end_offset doc c))) as [C|[C1 C2]];
          [left; exact C | right].
        eexists. split; [exact C1|]. split; [exact C2|].
        split.
        { apply locb_intro; [exact Vc|].
          eapply bound_nonneg. eapply bound_end. exact Rc. }
        subst c. destruct n as [r rp]. simpl. rewrite key_child.
        apply key_child_lt. lia.
      * rewrite (previous_over_child doc s x e n k He Hn c T I Rc).
        destruct (clip_cases s (mkLoc n (k - 1))) as [C|[C1 C2]];
          [left; exact C | right].
        eexists. split; [exact C1|]. split; [exact C2|].
        split; [apply locb_intro; [exact V | lia]|].
        apply key_same_node_lt. lia.
    + rewrite (previous_at_start doc s x e n k He Hn T I). exact Up.
  - destruct (Z_le_dec 0 (k - 1)) as [Q|Q].
    + rewrite (previous_in_text doc s x e n k He Hn T Q).
      destruct (clip_cases s (mkLoc n (k - 1))) as [C|[C1 C2]];
        [left; exact C | right].
      eexists. split; [exact C1|]. split; [exact C2|].
      split; [apply locb_intro; [exact V | lia]|].
      apply key_same_node_lt. lia.
    + rewrite (previous_text_start doc s x e n k He Hn T) by lia. exact Up.
Qed.

(* ------------------------------------------------------------------ *)
(** ** Stepping off the ends of a space *)

Lemma contains_min (s : DOMSpace) :
  spaceb doc s = true -> contains doc s (min s) = Ok true.
Proof.
  intros Hs. destruct (space_inv doc s Hs) as (Lmin & _ & _ & _ & _ & L).
  apply contains_lex; auto. split; [reflexivity|].
  rewrite lex_refl. split; [lia | exact L].
Qed.

Lemma contains_max (s : DOMSpace) :
  spaceb doc s = true -> contains doc s (max s) = Ok true.
Proof.
  intros Hs. destruct (space_inv doc s Hs) as (_ & Lmax & R & _ & _ & L).
  apply contains_lex; auto. split; [congruence|].
  rewrite lex_refl. split; [exact L | lia].
Qed.

Lemma normalizeOffset_total (l : DOMLoc) (b : Z) :
  bound doc (node l) = Some b -> 0 <= offset l ->
  exists i, normalizeOffset doc l = Ok i
            /\ deref l i = mkLoc (node l) (Z.min (offset l) b).
Proof.
  intros B O. unfold normalizeOffset.
  rewrite (normalizedOffset_bound doc l b B). simpl.
  pose proof (bound_nonneg doc _ _ B).
  destruct (Z.eqb_spec (Z.min (offset l) b) (offset l)) as [E|E].
  - exists This. split; [reflexivity|]. simpl. rewrite E.
    destruct l; reflexivity.
  - rewrite new_DOMLoc_ok by lia. eexists. split; reflexivity.
Qed.

(** The node of [min] is never a contained node: the location pointing at it
    comes before [min]. *)
Lemma chain_min (s : DOMSpace) :
  spaceb doc s = true -> ancestorsAndSelf doc s (node (min s)) = Ok [].
Proof.
  intros Hs. destruct (space_inv doc s Hs) as (Lmin & _).
  apply locb_inv in Lmin. destruct Lmin as [V O].
  unfold ancestorsAndSelf.
  destruct (min s) as [[r [|i up]] o] eqn:M; [reflexivity|].
  cbn [node root rpath] in *. rewrite (chain_cons doc s r i up V).
  destruct (valid_child doc r i up V) as [Vp _].
  replace (contains doc s (mkLoc (mkNode r up) (Z.of_nat i)))
    with (@Ok bool false); [reflexivity|].
  symmetry. apply contains_false_lex;
    [assumption | apply locb_intro; [assumption | lia] |].
  intros (_ & L & _). rewrite M, key_child in L.
  rewrite lex_antisym, lex_prefix in L. lia.
Qed.

(** [previous(min)] is none, in every space. *)
Theorem previous_of_min (s : DOMSpace) :
  spaceb doc s = true -> previous doc s (min s) = Ok None.
Proof.
  intros Hs.
  destruct (space_inv doc s Hs) as (Lmin & _ & _ & Rmin & _ & _).
  pose proof (locb_inv doc _ Lmin) as [V O].
  pose proof (bound_end doc s _ Rmin) as B.
  destruct (normalizeOffset_total (min s) _ B O) as (i & N & D).
  assert (He : escapeIrrelevantNode doc s (min s) = Ok i).
  { unfold escapeIrrelevantNode. rewrite (contains_min s Hs). simpl.
    rewrite N. simpl. rewrite D. cbn [node]. rewrite (chain_min s Hs).
    reflexivity. }
  destruct (previous_result s (min s) i _ _ He D) as [P|(y & P & C & Ly & L)].
  - pose proof (bound_nonneg doc _ _ B). lia.
  - apply (isRelevant_type doc s). exact Rmin.
  - exact P.
  - exfalso. apply contains_lex in C; [|assumption|].
    + destruct C as (_ & C & _).
      assert (L' : lex (key y) (key (min s)) = -1).
      { eapply lex_lt_le_trans; [exact L|].
        destruct (Z.eq_dec (Z.min (offset (min s))
                                  (end_offset doc (node (min s))))
                           (offset (min s))) as [E|E].
        - rewrite E. destruct (min s); simpl. rewrite lex_refl. lia.
        - replace (key (min s))
            with (key (mkLoc (node (min s)) (offset (min s))))
            by (destruct (min s); reflexivity).
          rewrite key_same_node_lt; lia. }
      rewrite lex_antisym, L' in C. lia.
    + exact Ly.
Qed.

Lemma chain_total (s : DOMSpace) (r : nat) (rp : list nat) :
  valid doc (mkNode r rp) ->
  exists chain,
    ancestorsAndSelf_at doc s r rp = Ok chain
    /\ Forall (fun c => exists l0 i up,
                   rp = l0 ++ i :: up /\ c = mkNode r (i :: up)) chain.
Proof.
  induction rp as [|i up IH]; intros V.
  - exists []. split; [reflexivity | constructor].
  - rewrite (chain_cons doc s r i up V).
    destruct (valid_child doc r i up V) as [Vp _].
    destruct (IH Vp) as (rest & E & F). rewrite E.
    destruct (contains_total doc s (mkLoc (mkNode r up) (Z.of_nat i)))
      as [[|] ->]; simpl.
    + eexists. split; [reflexivity|]. constructor.
      * exists [], i, up. auto.
      * eapply Forall_impl; [|exact F].
        intros c (l0 & j & up' & -> & ->). exists (i :: l0), j, up'. auto.
    + exists []. split; [reflexivity | constructor].
Qed.

(** The three ways the scan of [escapeIrrelevantNode] can end. *)
Lemma scan_cases (s : DOMSpace) (first : option Node) (l : list Node) :
  Forall (fun c => valid doc c /\ exists i up, rpath c = i :: up) l ->
  scan doc s first l = Ok None
  \/ (exists r i up,
         In (mkNode r (i :: up)) l
         /\ isRelevant doc s (mkNode r (i :: up)) = false
         /\ scan doc s first l
            = Ok (Some (mkLoc (mkNode r up) (Z.of_nat i))))
  \/ scan doc s first l
     = Throw (Error "internal error: we should always be able to escape a location which is inside the space").
Proof.
  induction l as [|c l IH]; intros F; [left; reflexivity|].
  inversion F as [|? ? [V (i & up & E)] F']; subst. simpl.
  destruct (isRelevant doc s c) eqn:R; simpl.
  - destruct (IH F') as [H|[(r & j & up' & I & Rj & H)|H]]; auto.
    right. left. exists r, j, up'. auto.
  - destruct (same_node c first); [right; right; reflexivity|].
    right. left. destruct c as [r rp]. simpl in E. subst rp.
    exists r, i, up. split; [left; reflexivity|]. split; [exact R|].
    unfold parentNode. simpl. rewrite indexOf_child by exact V.
    rewrite new_DOMLoc_ok by lia. reflexivity.
Qed.

(** [next(max)] is none unless [escapeIrrelevantNode] gives up with its
    internal error. *)
Theorem next_of_max (s : DOMSpace) :
  spaceb doc s = true ->
  next doc s (max s) = Ok None
  \/ next doc s (max s)
     = Throw (Error "internal error: we should always be able to escape a location which is inside the space").
Proof.
  intros Hs.
  destruct (space_inv doc s Hs) as (_ & Lmax & _ & _ & Rmax & _).
  pose proof (locb_inv doc _ Lmax) as [V O].
  pose proof (bound_end doc s _ Rmax) as B.
  pose proof (bound_nonneg doc _ _ B) as Bn.
  destruct (normalizeOffset_total (max s) _ B O) as (i & N & D).
  destruct (max s) as [[r rp] o] eqn:M. cbn [node offset root rpath] in *.
  destruct (chain_total s r rp V) as (chain & A & F).
  assert (F' : Forall (fun c => valid doc c /\ exists i up, rpath c = i :: up)
                      (rev chain)).
  { apply Forall_rev. eapply Forall_impl; [|exact F].
    intros c (l0 & j & up & -> & ->). split; [|simpl; eauto].
    eapply valid_suffix. exact V. }
  assert (Esc : forall found,
             scan doc s (nth_error (rev chain) 0) (rev chain) = found ->
             escapeIrrelevantNode doc s (mkLoc (mkNode r rp) o)
             = (f <- found ;;
                match f with
                | Some l => Ok (Fresh l)
                | None => Ok i
                end)).
  { intros found <-. unfold escapeIrrelevantNode.
    rewrite <- M, (contains_max s Hs), M. simpl. rewrite N. simpl.
    rewrite D. unfold ancestorsAndSelf. cbn [node root rpath].
    rewrite A. reflexivity. }
  destruct (scan_cases s (nth_error (rev chain) 0) (rev chain) F')
    as [S|[(rc & j & up & I & Rc & S)|S]].
  - (* nothing to escape *)
    pose proof (Esc _ S) as He. simpl in He.
    destruct (next_result s _ i _ _ He D) as [P|(y & P & C & Ly & L)].
    + lia.
    + apply (isRelevant_type doc s). exact Rmax.
    + left. exact P.
    + exfalso. apply contains_lex in C; [|assumption | exact Ly].
      destruct C as (_ & _ & C). rewrite M in C.
      rewrite lex_antisym, (L o) in C; [lia|].
      destruct (Z.min_spec o (end_offset doc (mkNode r rp)))
        as [[_ E]|[Q E]]; rewrite E; [left; reflexivity | right].
      split; [exact B | lia].
  - (* escaped to the parent of an irrelevant ancestor *)
    pose proof (Esc _ S) as He. simpl in He.
    apply in_rev in I. rewrite Forall_forall in F.
    destruct (F _ I) as (l0 & j' & up' & Erp & Ec).
    inversion Ec; subst rc j' up'.
    assert (Vc : valid doc (mkNode r (j :: up)))
      by (eapply valid_suffix; rewrite <- Erp; exact V).
    destruct (valid_child doc r j up Vc) as [Vp Hj].
    rewrite (next_over_child doc s _ _ (mkNode r up) (Z.of_nat j) He eq_refl
               (mkNode r (j :: up)) (parent_type doc r j up Vc)
               (item_child doc r j up Vc) Rc).
    left. unfold clip.
    replace (contains doc s (mkLoc (mkNode r up) (Z.of_nat j + 1)))
      with (@Ok bool false); [reflexivity|].
    symmetry. apply contains_false_lex;
      [assumption | apply locb_intro; [assumption | lia] |].
    intros (_ & _ & C). rewrite M in C.
    assert (K : key (mkLoc (mkNode r rp) o)
                = key (mkLoc (mkNode r up) (Z.of_nat j))
                  ++ (map Z.of_nat (rev l0) ++ [o])).
    { unfold key. simpl. rewrite Erp, rev_app_distr. simpl.
      rewrite <- !app_assoc, !map_app, <- !app_assoc. reflexivity. }
    rewrite K in C. unfold key in C. simpl in C.
    rewrite <- app_assoc, lex_app in C. cbn [app lex] in C.
    destruct (Z.eqb_spec (Z.of_nat j + 1) (Z.of_nat j)); [lia|].
    destruct (Z.ltb_spec (Z.of_nat j + 1) (Z.of_nat j)); lia.
  - right. unfold next. rewrite (Esc _ S). reflexivity.
Qed.

End Monotone.

(* ------------------------------------------------------------------ *)
(** ** Containment *)

(** C7: [contains(loc)] is true exactly when [min.compare(loc) <= 0] and
    [max.compare(loc) >= 0]; when a comparison fails with
    [ComparingDisconnectedNodes] the answer is [false], and no error ever
    leaves [contains]. *)
Theorem contains_spec (doc : list tree) (s : DOMSpace) (loc : DOMLoc) :
  (contains doc s loc = Ok true <->
   exists a b, compare doc (min s) loc = Ok a /\ a <= 0
               /\ compare doc (max s) loc = Ok b /\ b >= 0)
  /\ (compare doc (min s) loc = Throw ComparingDisconnectedNodes
      \/ compare doc (max s) loc = Throw ComparingDisconnectedNodes ->
      contains doc s loc = Ok false)
  /\ (exists b, contains doc s loc = Ok b).
Proof.
  split; [|split; [|apply contains_total]].
  - unfold contains.
    destruct (compare doc (min s) loc) as [a|e] eqn:A; simpl.
    + destruct (Z.leb_spec a 0) as [La|La].
      * destruct (compare doc (max s) loc) as [b|e] eqn:B; simpl.
        -- rewrite Z.geb_leb. destruct (Z.leb_spec 0 b) as [Lb|Lb].
           ++ split; [|reflexivity]. intros _. exists a, b.
              repeat split; auto; lia.
           ++ split; [discriminate|].
              intros (a' & b' & Ea & _ & Eb & Hb). inversion Eb. lia.
        -- split.
           ++ destruct e; discriminate.
           ++ intros (a' & b' & _ & _ & Eb & _). discriminate.
      * split; [discriminate|].
        intros (a' & b' & Ea & Ha & _). inversion Ea. lia.
    + split.
      * destruct e; discriminate.
      * intros (a' & b' & Ea & _). discriminate.
  - intros H. unfold contains.
    destruct (compare doc (min s) loc) as [a|e] eqn:A; simpl.
    + destruct H as [H|H]; [discriminate|]. rewrite H. simpl.
      destruct (a <=? 0); reflexivity.
    + apply compare_throw in A. subst. reflexivity.
Qed.

Lemma contains_spec_witness :
  contains sample whole_document (mkLoc detached_div 0) = Ok false.
Proof.
  apply (proj1 (proj2 (contains_spec sample whole_document
                                     (mkLoc detached_div 0)))).
  left. reflexivity.
Defined.

(* ------------------------------------------------------------------ *)
(** ** Normalization *)

(** C8: for a node of a supported kind and an offset [o >= 0], the
    normalized offset is [min(o, bound)], the bound being the child count of
    an element, document or fragment and the length of a text node;
    normalizing is idempotent and an already normalized location is returned
    as the same instance; for any other kind of node, normalization fails with
    the unsupported-node-type error. *)
Theorem normalization_spec (doc : list tree) (n : Node) (o : Z) :
  0 <= o ->
  (is_container (nodeType doc n) = true ->
   normalizedOffset doc (mkLoc n o) = Ok (Z.min o (childCount doc n)))
  /\ (nodeType doc n = TEXT_NODE ->
      normalizedOffset doc (mkLoc n o) = Ok (Z.min o (textLength doc n)))
  /\ (forall k, normalizedOffset doc (mkLoc n o) = Ok k ->
      normalizedOffset doc (mkLoc n k) = Ok k)
  /\ (forall i, normalizeOffset doc (mkLoc n o) = Ok i ->
      normalizeOffset doc (deref (mkLoc n o) i) = Ok This)
  /\ (isNormalized doc (mkLoc n o) = Ok true ->
      normalizeOffset doc (mkLoc n o) = Ok This)
  /\ (nodeType doc n = OTHER_NODE ->
      normalizedOffset doc (mkLoc n o)
      = Throw (Error "cannot normalize offset in a node of type")
      /\ isNormalized doc (mkLoc n o)
         = Throw (Error "cannot normalize offset in a node of type")
      /\ normalizeOffset doc (mkLoc n o)
         = Throw (Error "cannot normalize offset in a node of type")).
Proof.
  intros O.
  assert (Idem : forall k, normalizedOffset doc (mkLoc n o) = Ok k ->
                           normalizedOffset doc (mkLoc n k) = Ok k).
  { intros k H. destruct (bound doc n) as [b|] eqn:B.
    - rewrite (normalizedOffset_bound doc (mkLoc n o) b B) in H.
      rewrite (normalizedOffset_bound doc (mkLoc n k) b B).
      simpl in *. inversion H. f_equal. lia.
    - rewrite (normalizedOffset_unsupported doc (mkLoc n o) B) in H.
      discriminate. }
  repeat split.
  - intros T.
    apply (normalizedOffset_bound doc (mkLoc n o) _ (bound_container doc n T)).
  - intros T.
    apply (normalizedOffset_bound doc (mkLoc n o) _ (bound_text doc n T)).
  - exact Idem.
  - intros i H. apply normalizeOffset_This. unfold isNormalized.
    unfold normalizeOffset in H.
    destruct (normalizedOffset doc (mkLoc n o)) as [k|] eqn:N; simpl in H;
      [|discriminate].
    simpl in H. destruct (Z.eqb_spec k o) as [->|D].
    + inversion H; subst. simpl. rewrite N. simpl.
      rewrite Z.eqb_refl. reflexivity.
    + destruct (new_DOMLoc n k) as [l|] eqn:L; simpl in H; [|discriminate].
      inversion H; subst. apply new_DOMLoc_inv in L. destruct L as [-> _].
      simpl. rewrite (Idem k eq_refl). simpl. rewrite Z.eqb_refl.
      reflexivity.
  - apply normalizeOffset_This.
  - apply normalizedOffset_unsupported. unfold bound. simpl. rewrite H.
    reflexivity.
  - unfold isNormalized. rewrite normalizedOffset_unsupported; [reflexivity|].
    unfold bound. simpl. rewrite H. reflexivity.
  - unfold normalizeOffset.
    rewrite normalizedOffset_unsupported; [reflexivity|].
    unfold bound. simpl. rewrite H. reflexivity.
Qed.

Lemma normalization_spec_witness :
  normalizedOffset sample (mkLoc bold 9999) = Ok (Z.min 9999 1).
Proof.
  apply (proj1 (normalization_spec sample bold 9999 ltac:(lia))).
  reflexivity.
Defined.

(* ------------------------------------------------------------------ *)
(** ** Construction of a space *)

(** C9: when the two end points are in unrelated trees and both end-point
    nodes are relevant, the constructor fails with
    [ComparingDisconnectedNodes], thrown by [max.compare(min)]. *)
Theorem new_DOMSpace_disconnected (doc : list tree) (mn mx : DOMLoc)
        (test : NodeTest) :
  root (node mn) <> root (node mx) ->
  isRelevantWith doc test (node mn) = true ->
  isRelevantWith doc test (node mx) = true ->
  compare doc mx mn = Throw ComparingDisconnectedNodes
  /\ new_DOMSpace doc mn mx test = Throw ComparingDisconnectedNodes.
Proof.
  intros R Rn Rx.
  assert (C : compare doc mx mn = Throw ComparingDisconnectedNodes)
    by (apply compare_disconnected; congruence).
  split; [exact C|].
  unfold new_DOMSpace. rewrite Rn, Rx, C. reflexivity.
Qed.

Lemma new_DOMSpace_disconnected_witness :
  new_DOMSpace sample (mkLoc the_document 0) (mkLoc detached_div 0) any_node
  = Throw ComparingDisconnectedNodes.
Proof.
  apply (proj2 (new_DOMSpace_disconnected sample (mkLoc the_document 0)
                  (mkLoc detached_div 0) any_node
                  ltac:(discriminate) eq_refl eq_refl)).
Defined.

(** C6, as the code has it: the constructor fails with
    [CannotEscapeIrrelevantNode] whenever the node of either end point is not
    relevant; when both are relevant it fails with [ReversedRangeError]
    whenever [max] precedes [min]; and when both are relevant, the end points
    are locations of one tree and [max] does not precede [min], it succeeds. *)
Theorem new_DOMSpace_spec (doc : list tree) (mn mx : DOMLoc)
        (test : NodeTest) :
  (isRelevantWith doc test (node mn) = false
   \/ isRelevantWith doc test (node mx) = false ->
   new_DOMSpace doc mn mx test = Throw CannotEscapeIrrelevantNode)
  /\ (isRelevantWith doc test (node mn) = true ->
      isRelevantWith doc test (node mx) = true ->
      compare doc mx mn = Ok (-1) ->
      new_DOMSpace doc mn mx test = Throw ReversedRangeError)
  /\ (isRelevantWith doc test (node mn) = true ->
      isRelevantWith doc test (node mx) = true ->
      root (node mn) = root (node mx) ->
      0 <= offset mn -> 0 <= offset mx ->
      compare doc mx mn <> Ok (-1) ->
      new_DOMSpace doc mn mx test = Ok (mkSpace mn mx test)).
Proof.
  unfold new_DOMSpace. repeat split.
  - intros [H|H]; rewrite H; [|rewrite andb_false_r]; reflexivity.
  - intros Rn Rx C. rewrite Rn, Rx, C. reflexivity.
  - intros Rn Rx R On Ox C. rewrite Rn, Rx. simpl.
    assert (Ln : locb doc mn = true).
    { destruct mn. apply locb_intro; [|assumption].
      eapply isRelevantWith_valid. exact Rn. }
    assert (Lx : locb doc mx = true).
    { destruct mx. apply locb_intro; [|assumption].
      eapply isRelevantWith_valid. exact Rx. }
    rewrite (compare_lex doc mx mn Lx Ln) in * by congruence. simpl.
    destruct (lex_range (key mx) (key mn)) as [E|[E|E]]; rewrite E in *;
      [congruence | reflexivity | reflexivity].
Qed.

Lemma new_DOMSpace_spec_witness :
  new_DOMSpace sample (mkLoc top_div 0) (mkLoc the_document 0) any_node
  = Throw ReversedRangeError
  /\ new_DOMSpace sample (mkLoc the_document 0) (mkLoc the_document 0)
                  any_node
     = Ok (mkSpace (mkLoc the_document 0) (mkLoc the_document 0) any_node).
Proof.
  split.
  - apply (proj1 (proj2 (new_DOMSpace_spec sample (mkLoc top_div 0)
                           (mkLoc the_document 0) any_node)));
      reflexivity.
  - apply (proj2 (proj2 (new_DOMSpace_spec sample (mkLoc the_document 0)
                           (mkLoc the_document 0) any_node)));
      try reflexivity; simpl; try lia; discriminate.
Defined.

(** C6 as stated fails twice on the code.  With relevant end points in
    unrelated trees [max] does not precede [min], yet nothing is constructed;
    and with an irrelevant end point and [max] before [min] the error is not
    the reversed-range one. *)
Lemma new_DOMSpace_not_as_stated :
  (isRelevantWith sample any_node the_document = true
   /\ isRelevantWith sample any_node detached_div = true
   /\ compare sample (mkLoc detached_div 0) (mkLoc the_document 0)
      <> Ok (-1)
   /\ new_DOMSpace sample (mkLoc the_document 0) (mkLoc detached_div 0)
                   any_node
      = Throw ComparingDisconnectedNodes)
  /\ (compare sample (mkLoc the_document 0) (mkLoc top_div 0) = Ok (-1)
      /\ new_DOMSpace sample (mkLoc top_div 0) (mkLoc the_document 0)
                      (fun n => Node_eqb n the_document)
         = Throw CannotEscapeIrrelevantNode).
Proof.
  repeat split; try reflexivity. discriminate.
Qed.

(* ------------------------------------------------------------------ *)
(** ** Containment of nodes *)



(* ------------------------------------------------------------------ *)
(** ** Escaping *)

(** C5: [escapeIrrelevantNode] fails with [DOMSpaceScopeError] on a location
    that the space does not contain; on a contained, normalized location
    whose scanned chain holds relevant nodes only, it returns the very
    location it was given. *)
Theorem escapeIrrelevantNode_spec (doc : list tree) (s : DOMSpace)
        (loc : DOMLoc) :
  (contains doc s loc = Ok false ->
   escapeIrrelevantNode doc s loc = Throw DOMSpaceScopeError)
  /\ (contains doc s loc = Ok true ->
      isNormalized doc loc = Ok true ->
      (exists chain,
          ancestorsAndSelf doc s (node loc) = Ok chain
          /\ Forall (fun n => isRelevant doc s n = true) chain) ->
      escapeIrrelevantNode doc s loc = Ok This).
Proof.
  split.
  - intros C. unfold escapeIrrelevantNode. rewrite C. reflexivity.
  - intros C N Ch. apply escape_This_iff. split; [exact C|].
    split; [exact N | exact Ch].
Qed.

Lemma escapeIrrelevantNode_spec_witness :
  escapeIrrelevantNode sample whole_document (mkLoc detached_div 0)
  = Throw DOMSpaceScopeError
  /\ escapeIrrelevantNode sample whole_document (mkLoc bold 0) = Ok This.
Proof.
  split.
  - apply (proj1 (escapeIrrelevantNode_spec sample whole_document
                    (mkLoc detached_div 0))).
    reflexivity.
  - apply (proj2 (escapeIrrelevantNode_spec sample whole_document
                    (mkLoc bold 0)));
      [reflexivity | reflexivity |].
    exists [bold; par; div_1; top_div].
    split; [reflexivity | repeat constructor].
Defined.

(* ------------------------------------------------------------------ *)
(** ** Document order is the order of root paths *)

Lemma path_lt_irrefl (p : list nat) : ~ path_lt p p.
Proof. unfold path_lt. rewrite lex_refl. lia. Qed.

Lemma path_lt_asym (p q : list nat) : path_lt p q -> ~ path_lt q p.
Proof. unfold path_lt. intros H. rewrite lex_antisym, H. lia. Qed.

Lemma path_lt_cons (i : nat) (p q : list nat) :
  path_lt (i :: p) (i :: q) <-> path_lt p q.
Proof. unfold path_lt. simpl. rewrite Z.eqb_refl. tauto. Qed.

Lemma path_lt_heads (i j : nat) (p q : list nat) :
  (i < j)%nat -> path_lt (i :: p) (j :: q).
Proof.
  intros H. unfold path_lt. simpl.
  destruct (Z.eqb_spec (Z.of_nat i) (Z.of_nat j)); [lia|].
  destruct (Z.ltb_spec (Z.of_nat i) (Z.of_nat j)); lia.
Qed.

Lemma preorder_unfold (t : tree) :
  preorder t = [] :: walk_children preorder 0 (tree_children t).
Proof. destruct t; reflexivity. Qed.

Lemma in_walk_children (k : nat) (l : list tree) (p : list nat) :
  In p (walk_children preorder k l) <->
  exists i p' c, p = (k + i)%nat :: p' /\ nth_error l i = Some c
                 /\ In p' (preorder c).
Proof.
  revert k. induction l as [|c l IH]; intros k; simpl.
  - split; [tauto|]. intros (i & p' & c & _ & H & _). destruct i; discriminate.
  - rewrite in_app_iff, in_map_iff, IH. split.
    + intros [(p' & <- & H)|(i & p' & c' & -> & H1 & H2)].
      * exists 0%nat, p', c. rewrite Nat.add_0_r. auto.
      * exists (S i), p', c'. rewrite Nat.add_succ_r. auto.
    + intros (i & p' & c' & -> & H1 & H2). destruct i as [|i].
      * left. simpl in H1. inversion H1; subst c'. exists p'.
        rewrite Nat.add_0_r. auto.
      * right. exists i, p', c'. rewrite Nat.add_succ_r. auto.
Qed.

(** The walk meets exactly the nodes of the tree. *)
Lemma in_preorder (p : list nat) :
  forall t, In p (preorder t) <-> subtree t p <> None.
Proof.
  induction p as [|i p IH]; intros t; rewrite preorder_unfold; simpl.
  - split; [discriminate | auto].
  - rewrite in_walk_children. split.
    + intros [H|(j & p' & c & E & H1 & H2)]; [discriminate|].
      simpl in E. inversion E; subst. rewrite H1. apply IH. exact H2.
    + intros H. right.
      destruct (nth_error (tree_children t) i) as [c|] eqn:E; [|congruence].
      exists i, p, c. simpl. split; [reflexivity|]. split; [exact E|].
      apply IH. exact H.
Qed.

Lemma sorted_app {A : Type} (R : A -> A -> Prop) (l1 l2 : list A) :
  StronglySorted R l1 -> StronglySorted R l2 ->
  (forall x y, In x l1 -> In y l2 -> R x y) ->
  StronglySorted R (l1 ++ l2).
Proof.
  induction l1 as [|a l1 IH]; simpl; intros S1 S2 H; [exact S2|].
  inversion S1; subst. constructor.
  - apply IH; auto.
  - apply Forall_app. split; [assumption|].
    apply Forall_forall. intros y Hy. apply H; auto.
Qed.

Lemma sorted_map_cons (i : nat) (l : list (list nat)) :
  StronglySorted path_lt l -> StronglySorted path_lt (map (cons i) l).
Proof.
  induction 1 as [|a l S IH F]; simpl; constructor; auto.
  apply Forall_forall. intros q Hq. apply in_map_iff in Hq.
  destruct Hq as (q' & <- & Hq'). apply path_lt_cons.
  rewrite Forall_forall in F. auto.
Qed.

Lemma sorted_walk_children (l : list tree) :
  Forall (fun t => StronglySorted path_lt (preorder t)) l ->
  forall k, StronglySorted path_lt (walk_children preorder k l).
Proof.
  induction 1 as [|c l Hc F IH]; intros k; simpl; [constructor|].
  apply sorted_app; [apply sorted_map_cons; exact Hc | apply IH |].
  intros x y Hx Hy. apply in_map_iff in Hx. destruct Hx as (x' & <- & _).
  apply in_walk_children in Hy. destruct Hy as (i & p' & c' & -> & _).
  apply path_lt_heads. lia.
Qed.

(** The walk lists root paths in increasing order. *)
Lemma sorted_preorder (t : tree) : StronglySorted path_lt (preorder t).
Proof.
  assert (Root : forall l,
             Forall (fun t => StronglySorted path_lt (preorder t)) l ->
             StronglySorted path_lt ([] :: walk_children preorder 0 l)).
  { intros l F. constructor; [apply sorted_walk_children; exact F|].
    apply Forall_forall. intros q Hq. apply in_walk_children in Hq.
    destruct Hq as (i & p' & c & -> & _). reflexivity. }
  induction t using tree_nested_ind; simpl; auto;
    repeat constructor.
Qed.

Lemma sorted_before {A : Type} (R : A -> A -> Prop) (l : list A) (p q : A) :
  StronglySorted R l -> before p q l -> R p q.
Proof.
  intros S (l1 & l2 & l3 & ->).
  induction l1 as [|a l1 IH]; simpl in S; inversion S; subst.
  - rewrite Forall_forall in H2. apply H2.
    apply in_or_app. right. left. reflexivity.
  - auto.
Qed.

Lemma in_two_before {A : Type} (l : list A) (p q : A) :
  In p l -> In q l -> p <> q -> before p q l \/ before q p l.
Proof.
  intros Hp Hq N. apply in_split in Hp. destruct Hp as (l1 & l2 & ->).
  apply in_app_or in Hq. destruct Hq as [Hq|[Hq|Hq]]; [|congruence|].
  - right. apply in_split in Hq. destruct Hq as (m1 & m2 & ->).
    exists m1, m2, l2. rewrite <- app_assoc. reflexivity.
  - left. apply in_split in Hq. destruct Hq as (m1 & m2 & ->).
    exists l1, m1, m2. reflexivity.
Qed.

Lemma subtree_snoc (t : tree) (p : list nat) (i : nat) :
  subtree t (p ++ [i])
  = match subtree t p with
    | Some c => nth_error (tree_children c) i
    | None => None
    end.
Proof.
  revert t. induction p as [|j p IH]; intros t; simpl.
  - destruct (nth_error (tree_children t) i); reflexivity.
  - destruct (nth_error (tree_children t) j); [apply IH | reflexivity].
Qed.

Lemma lookup_subtree (doc : list tree) (n : Node) :
  lookup doc n
  = match nth_error doc (root n) with
    | Some t => subtree t (rev (rpath n))
    | None => None
    end.
Proof.
  destruct n as [r rp]. unfold lookup. simpl.
  induction rp as [|i up IH]; simpl.
  - destruct (nth_error doc r); reflexivity.
  - rewrite IH. destruct (nth_error doc r) as [t|]; [|reflexivity].
    rewrite subtree_snoc. reflexivity.
Qed.

(** Among the nodes of one tree, the walk meets [a] before [b] exactly when
    the root path of [a] is the smaller one. *)
Lemma precedes_lex (doc : list tree) (a b : Node) :
  valid doc a -> valid doc b -> root a = root b ->
  (precedes doc a b <->
   lex (map Z.of_nat (rev (rpath a))) (map Z.of_nat (rev (rpath b))) = -1).
Proof.
  unfold valid. rewrite !lookup_subtree. intros Va Vb R. rewrite <- R in Vb.
  destruct (nth_error doc (root a)) as [t|] eqn:T; [|congruence].
  apply in_preorder in Va, Vb. unfold precedes. rewrite T. split.
  - intros (_ & t' & E & B). inversion E; subst t'.
    apply (sorted_before path_lt _ _ _ (sorted_preorder t) B).
  - intros L. split; [exact R|]. exists t. split; [reflexivity|].
    destruct (in_two_before _ _ _ Va Vb) as [B|B]; [|exact B|].
    + intros E. rewrite E in L. exact (path_lt_irrefl _ L).
    + exfalso. apply (sorted_before path_lt _ _ _ (sorted_preorder t)) in B.
      exact (path_lt_asym _ _ L B).
Qed.

(* ------------------------------------------------------------------ *)
(** ** Comparison *)

Lemma lex_under (K rest : list Z) (o i : Z) :
  rest <> [] ->
  lex (K ++ [o]) (K ++ i :: rest) = if o <=? i then -1 else 1.
Proof.
  intros R. rewrite lex_app. cbn [lex].
  destruct (Z.eqb_spec o i).
  - destruct rest; [congruence|].
    destruct (Z.leb_spec o i); [reflexivity | lia].
  - destruct (Z.ltb_spec o i), (Z.leb_spec o i); try lia; reflexivity.
Qed.

Lemma key_under (a b : DOMLoc) (i : nat) (l : list nat) :
  rpath (node b) = l ++ i :: rpath (node a) ->
  lex (key a) (key b) = if offset a <=? Z.of_nat i then -1 else 1.
Proof.
  intros H. unfold key. rewrite H, rev_app_distr. simpl.
  rewrite <- !app_assoc, !map_app, <- !app_assoc. simpl.
  apply lex_under.
  intros E. apply app_eq_nil in E. destruct E; discriminate.
Qed.

(** Away from the ancestor relation, locations compare as their nodes. *)
Lemma key_apart (a b : DOMLoc) :
  node a <> node b -> root (node a) = root (node b) ->
  ~ ancestor (node a) (node b) -> ~ ancestor (node b) (node a) ->
  lex (key a) (key b)
  = lex (map Z.of_nat (rev (rpath (node a))))
        (map Z.of_nat (rev (rpath (node b)))).
Proof.
  intros N R Nab Nba.
  destruct (path_split (rev (rpath (node a))) (rev (rpath (node b))))
    as (l & p' & q' & Hp & Hq & Hd).
  assert (Back : forall (x y : Node) (k : list nat) (i : nat) (t : list nat),
             rev (rpath x) = k -> rev (rpath y) = k ++ i :: t ->
             rpath y = rev t ++ i :: rpath x).
  { intros x y k i t Hx Hy. apply rev_inj.
    rewrite Hy, rev_app_distr. simpl.
    rewrite rev_involutive, <- app_assoc, <- Hx. reflexivity. }
  destruct p' as [|x p'], q' as [|y q'].
  - exfalso. apply N. rewrite app_nil_r in Hp, Hq.
    destruct (node a), (node b). simpl in *. f_equal; [assumption|].
    apply rev_inj. congruence.
  - exfalso. apply Nab. split; [assumption|]. rewrite app_nil_r in Hp.
    exists y, (rev q'). eapply Back; eauto.
  - exfalso. apply Nba. split; [congruence|]. rewrite app_nil_r in Hq.
    exists x, (rev p'). eapply Back; eauto.
  - unfold key. rewrite Hp, Hq, !map_app, <- !app_assoc, !lex_app.
    cbn [map app lex].
    destruct (Z.eqb_spec (Z.of_nat x) (Z.of_nat y)); [lia | reflexivity].
Qed.

(** C1: on locations of one tree [compare] answers -1, 0 or 1 and is a total
    order: [compare(a,a) = 0], [compare(b,a) = -compare(a,b)],
    [compare(a,b) = 0] exactly when [equals(a,b)], and it is transitive.
    When neither node contains the other the answer is the document order of
    the two nodes; when one node contains the other it is [pointedCompare]
    of the containing location against the contained node, that is, whether
    the offset of the containing location is at most the index of the child
    through which the contained node is reached. *)
Theorem compare_total_order (doc : list tree) (a b c : DOMLoc) :
  locb doc a = true -> locb doc b = true -> locb doc c = true ->
  root (node a) = root (node b) -> root (node b) = root (node c) ->
  exists r,
    compare doc a b = Ok r
    /\ (r = -1 \/ r = 0 \/ r = 1)
    /\ compare doc a a = Ok 0
    /\ compare doc b a = Ok (- r)
    /\ (r = 0 <-> equals a (Some b) = true)
    /\ (r = -1 -> compare doc b c = Ok (-1) -> compare doc a c = Ok (-1))
    /\ (node a <> node b ->
        ~ ancestor (node a) (node b) -> ~ ancestor (node b) (node a) ->
        (r = -1 <-> precedes doc (node a) (node b))
        /\ (r = 1 <-> precedes doc (node b) (node a)))
    /\ (forall i l, rpath (node b) = l ++ i :: rpath (node a) ->
        r = pointedCompare doc (node a) (offset a) (node b)
        /\ (r = -1 <-> offset a <= Z.of_nat i))
    /\ (forall i l, rpath (node a) = l ++ i :: rpath (node b) ->
        r = - pointedCompare doc (node b) (offset b) (node a)
        /\ (r = 1 <-> offset b <= Z.of_nat i)).
Proof.
  intros La Lb Lc Rab Rbc. exists (lex (key a) (key b)).
  pose proof (locb_inv doc a La) as [Va Oa].
  pose proof (locb_inv doc b Lb) as [Vb Ob].
  split; [apply compare_lex; assumption|].
  split; [apply lex_range|].
  split; [rewrite (compare_lex doc a a La La eq_refl), lex_refl; reflexivity|].
  split.
  { rewrite (compare_lex doc b a Lb La) by congruence.
    rewrite (lex_antisym (key a) (key b)). reflexivity. }
  split.
  { rewrite lex_eq. unfold equals. rewrite andb_true_iff, Node_eqb_eq, Z.eqb_eq.
    split.
    - intros E. apply key_inj in E; [|assumption]. subst. auto.
    - intros [E1 E2]. destruct a, b. simpl in *. congruence. }
  split.
  { intros H1 H2. rewrite (compare_lex doc b c Lb Lc Rbc) in H2.
    inversion H2 as [H2']. rewrite H2'.
    rewrite (compare_lex doc a c La Lc) by congruence.
    f_equal. eapply lex_trans; eauto. }
  split.
  { intros N Nab Nba.
    rewrite (precedes_lex doc (node a) (node b) Va Vb Rab).
    rewrite (precedes_lex doc (node b) (node a) Vb Va (eq_sym Rab)).
    rewrite (key_apart a b N Rab Nab Nba).
    pose proof (lex_antisym (map Z.of_nat (rev (rpath (node a))))
                            (map Z.of_nat (rev (rpath (node b))))) as AS.
    split; split; lia. }
  split.
  - intros i l H. rewrite (key_under a b i l H).
    assert (Hp : rev (rpath (node b)) = rev (rpath (node a)) ++ i :: rev l).
    { rewrite H, rev_app_distr. simpl. rewrite <- app_assoc. reflexivity. }
    rewrite (pointedCompare_spec doc (node a) (node b) (offset a) i (rev l));
      auto.
    destruct (Z.leb_spec (offset a) (Z.of_nat i)); split; auto; split; lia.
  - intros i l H. rewrite (lex_antisym (key b) (key a)).
    rewrite (key_under b a i l H).
    assert (Hp : rev (rpath (node a)) = rev (rpath (node b)) ++ i :: rev l).
    { rewrite H, rev_app_distr. simpl. rewrite <- app_assoc. reflexivity. }
    rewrite (pointedCompare_spec doc (node b) (node a) (offset b) i (rev l));
      auto.
    destruct (Z.leb_spec (offset b) (Z.of_nat i)); split; auto; split; lia.
Qed.

Lemma compare_total_order_witness :
  exists r,
    compare sample (mkLoc div_1 1) (mkLoc bold 0) = Ok r
    /\ (r = -1 \/ r = 0 \/ r = 1)
    /\ compare sample (mkLoc div_1 1) (mkLoc div_1 1) = Ok 0
    /\ compare sample (mkLoc bold 0) (mkLoc div_1 1) = Ok (- r).
Proof.
  destruct (compare_total_order sample (mkLoc div_1 1) (mkLoc bold 0)
              (mkLoc top_div 2) eq_refl eq_refl eq_refl eq_refl eq_refl)
    as (r & H1 & H2 & H3 & H4 & _).
  exists r. auto.
Defined.

(* ------------------------------------------------------------------ *)
(** ** Navigation *)




Lemma indexOf_from_nonneg (i : Z) (l : list Node) (el : Node) :
  0 <= i -> 0 <= indexOf_from i l el -> l <> [].
Proof. intros Hi H. destruct l; [simpl in H; lia | discriminate]. Qed.

Lemma scan_Some (doc : list tree) (s : DOMSpace) (first : option Node)
      (l : list Node) (found : DOMLoc) :
  scan doc s first l = Ok (Some found) ->
  0 <= offset found /\ 0 < childCount doc (node found).
Proof.
  induction l as [|c l IH]; simpl; [discriminate|].
  destruct (isRelevant doc s c); simpl; [exact IH|].
  destruct (same_node c first); [discriminate|].
  destruct (parentNode c) as [p|]; [|discriminate].
  destruct (new_DOMLoc p _) as [l'|] eqn:E; simpl; [|discriminate].
  intros H. inversion H; subst. apply new_DOMLoc_inv in E.
  destruct E as [-> O]. simpl. split; [exact O|].
  apply indexOf_from_nonneg in O; [|lia].
  unfold childCount. destruct (childNodes doc p); [congruence | simpl; lia].
Qed.

(** What [escapeIrrelevantNode] hands to [next] and [previous]: a location
    with an offset that is not negative, in a node of a supported kind. *)
Lemma escaped_supported (doc : list tree) (s : DOMSpace) (start : DOMLoc)
      (e : instance) :
  0 <= offset start ->
  escapeIrrelevantNode doc s start = Ok e ->
  0 <= offset (deref start e)
  /\ (is_container (nodeType doc (node (deref start e))) = true
      \/ nodeType doc (node (deref start e)) = TEXT_NODE).
Proof.
  intros O. unfold escapeIrrelevantNode.
  destruct (contains doc s start) as [[|]|]; simpl; try discriminate.
  destruct (normalizeOffset doc start) as [i|] eqn:N; simpl; [|discriminate].
  destruct (ancestorsAndSelf doc s _) as [chain|]; simpl; [|discriminate].
  destruct (scan doc s _ (rev chain)) as [[l|]|] eqn:S; simpl;
    try discriminate; intros H; inversion H; subst; simpl.
  - apply scan_Some in S. destruct S as [Ol Cl]. split; [exact Ol|].
    left. destruct (parent_is_container doc (node l) Cl) as [T|[T|T]];
      rewrite T; reflexivity.
  - rewrite (normalizeOffset_node doc start e N).
    unfold normalizeOffset in N.
    destruct (bound doc (node start)) as [b|] eqn:B.
    + rewrite (normalizedOffset_bound doc start b B) in N. simpl in N.
      split.
      * destruct (Z.min (offset start) b =? offset start).
        -- inversion N. simpl. exact O.
        -- pose proof (bound_nonneg doc _ _ B).
           rewrite new_DOMLoc_ok in N by lia. inversion N. simpl. lia.
      * unfold bound in B.
        destruct (nodeType doc (node start)); simpl; auto; discriminate.
    + rewrite (normalizedOffset_unsupported doc start B) in N. discriminate.
Qed.

(** C4, as the code has it: after escaping, at an element, document or
    fragment, [next] ascends when there is no child at the offset, proposes
    the start of that child when the child is relevant, and proposes the same
    node one offset further when it is not; at a text node it proposes the
    next offset while that is within the text and ascends otherwise.
    Ascending proposes the location in the parent just after the node, and
    answers none when there is no parent.  Every proposed location is
    returned only if the space contains it; none is returned otherwise. *)
Theorem next_steps (doc : list tree) (s : DOMSpace) (start : DOMLoc)
        (e : instance) :
  0 <= offset start ->
  escapeIrrelevantNode doc s start = Ok e ->
  let n := node (deref start e) in
  let o := offset (deref start e) in
  (is_container (nodeType doc n) = true \/ nodeType doc n = TEXT_NODE)
  /\ (is_container (nodeType doc n) = true ->
      (item (childNodes doc n) o = None ->
       next doc s start = ascend_after doc s n)
      /\ (forall c, item (childNodes doc n) o = Some c ->
                    isRelevant doc s c = true ->
                    next doc s start = clip doc s (mkLoc c 0))
      /\ (forall c, item (childNodes doc n) o = Some c ->
                    isRelevant doc s c = false ->
                    next doc s start = clip doc s (mkLoc n (o + 1))))
  /\ (nodeType doc n = TEXT_NODE ->
      (o + 1 <= textLength doc n ->
       next doc s start = clip doc s (mkLoc n (o + 1)))
      /\ (textLength doc n < o + 1 ->
          next doc s start = ascend_after doc s n))
  /\ (parentNode n = None -> ascend_after doc s n = Ok None)
  /\ (forall p, parentNode n = Some p ->
      exists i, item (childNodes doc p) i = Some n
                /\ ascend_after doc s n = clip doc s (mkLoc p (i + 1)))
  /\ (forall l, (contains doc s l = Ok true -> clip doc s l = Ok (Some l))
                /\ (contains doc s l = Ok false -> clip doc s l = Ok None)).
Proof.
  intros O He n o.
  destruct (escaped_supported doc s start e O He) as [Oo T].
  fold n in T. fold o in Oo.
  assert (Hn : deref start e = mkLoc n o)
    by (subst n o; destruct (deref start e); reflexivity).
  split; [exact T|].
  split.
  { intros Tc. split; [|split].
    - intros I. eapply next_at_end; eauto.
    - intros c I R. eapply next_at_child; eauto.
    - intros c I R. eapply next_over_child; eauto. }
  split.
  { intros Tt. split.
    - intros L. eapply next_in_text; eauto.
    - intros L. eapply next_text_end; eauto. }
  split.
  { intros P. unfold ascend_after. rewrite P. reflexivity. }
  split.
  { intros p P. destruct n as [r [|i up]]; [discriminate|].
    unfold parentNode in P. simpl in P. inversion P; subst p.
    assert (V : valid doc (mkNode r (i :: up))).
    { apply nodeType_valid. destruct T as [T|T].
      - destruct (nodeType doc _); discriminate.
      - rewrite T. discriminate. }
    exists (Z.of_nat i). split; [apply item_child; exact V|].
    apply ascend_after_child. exact V. }
  intros l. unfold clip. split; intros ->; reflexivity.
Qed.

Lemma next_steps_witness :
  next sample whole_document (mkLoc par 1)
  = clip sample whole_document (mkLoc bold 0).
Proof.
  destruct (next_steps sample whole_document (mkLoc par 1) This
              ltac:(simpl; lia) eq_refl) as (_ & C & _).
  destruct (C eq_refl) as (_ & D & _).
  apply (D bold); reflexivity.
Defined.

(** C4 as stated fails on the code.  In the "arbitrary span" of the test
    suite, [max] is offset 3 of a text of length 12: offset 4 is within the
    text, yet [next(max)] answers none and not offset 4.  And in the
    zero-width space at the start of the document, the child at offset 0 of
    the document exists and is relevant, yet [next] answers none and not the
    start of that child. *)
Lemma next_steps_not_as_stated :
  (spaceb sample arbitrary_span = true
   /\ escapeIrrelevantNode sample arbitrary_span (mkLoc text_another 3)
      = Ok This
   /\ nodeType sample text_another = TEXT_NODE
   /\ textLength sample text_another = 12
   /\ next sample arbitrary_span (mkLoc text_another 3) = Ok None)
  /\ (spaceb sample zero_width = true
      /\ escapeIrrelevantNode sample zero_width (mkLoc the_document 0)
         = Ok This
      /\ nodeType sample the_document = DOCUMENT_NODE
      /\ item (childNodes sample the_document) 0 = Some top_div
      /\ isRelevant sample zero_width top_div = true
      /\ next sample zero_width (mkLoc the_document 0) = Ok None).
Proof.
  repeat split; reflexivity.
Qed.

(** C3 at a space the constructor accepts: [max] sits in a text whose
    topmost contained ancestor is ruled out by the relevance test.
    [previous(min)] is none, but [next(max)] does not return: the scan of
    [escapeIrrelevantNode] meets the irrelevant ancestor as its first
    candidate and throws the internal error. *)
Theorem next_of_max_internal_error :
  new_DOMSpace sample (mkLoc the_document 0) (mkLoc text_A 1) without_top_div
  = Ok up_to_text_A
  /\ contains sample up_to_text_A (max up_to_text_A) = Ok true
  /\ ancestorsAndSelf sample up_to_text_A text_A
     = Ok [text_A; div_1; top_div]
  /\ isRelevant sample up_to_text_A top_div = false
  /\ next sample up_to_text_A (max up_to_text_A)
     = Throw (Error "internal error: we should always be able to escape a location which is inside the space")
  /\ previous sample up_to_text_A (min up_to_text_A) = Ok None.
Proof.
  repeat split; reflexivity.
Qed.

(* ------------------------------------------------------------------ *)
(** ** Conformance with the test suite *)

(** "moves forward (whole document)", "moves backwards (whole document)" and
    the two iteration tests. *)
Example iteration_of_sample :
  iterator sample whole_document 100 = Ok expectedPositions
  /\ reversed sample whole_document 100 = Ok (rev expectedPositions).
Proof. split; vm_compute; reflexivity. Qed.

(** "(parent - child positions)" of the [compare] tests, around the [b]
    element, which is the child of [p] at index 1. *)
Example compare_parent_child :
  compare sample (mkLoc par 1) (mkLoc bold 0) = Ok (-1)
  /\ compare sample (mkLoc par 0) (mkLoc bold 0) = Ok (-1)
  /\ compare sample (mkLoc par 2) (mkLoc bold 0) = Ok 1
  /\ compare sample (mkLoc par 3) (mkLoc bold 0) = Ok 1
  /\ compare sample (mkLoc bold 0) (mkLoc par 1) = Ok 1
  /\ compare sample (mkLoc bold 0) (mkLoc par 0) = Ok 1
  /\ compare sample (mkLoc bold 0) (mkLoc par 2) = Ok (-1)
  /\ compare sample (mkLoc bold 0) (mkLoc par 3) = Ok (-1)
  /\ compare sample (mkLoc bold 0) (mkLoc detached_div 0)
     = Throw ComparingDisconnectedNodes.
Proof. repeat split; reflexivity. Qed.

(** "returns the parent of the topmost irrelevant ancestor": with the [p]
    element ruled out, a location in [b] escapes to [(div, 1)]. *)
Example escape_of_sample :
  escapeIrrelevantNode sample
    (mkSpace (mkLoc the_document 0) (mkLoc the_document 1) without_par)
    (mkLoc bold 0)
  = Ok (Fresh (mkLoc div_1 1)).
Proof. reflexivity. Qed.

(* ------------------------------------------------------------------ *)
(** ** Locations: pointing at a node *)

(** X1: [makePointingTo] fails on a node without a parent; on a node of the
    forest that has a parent it returns the in-range, normalized location of
    the parent whose pointed node is that node. *)
Theorem makePointingTo_spec (doc : list tree) (n : Node) :
  (parentNode n = None ->
   makePointingTo doc n
   = Throw (Error "cannot point a node without a parent"))
  /\ (valid doc n ->
      forall p, parentNode n = Some p ->
      exists i,
        makePointingTo doc n = Ok (mkLoc p i)
        /\ 0 <= i < childCount doc p
        /\ pointedNode doc (mkLoc p i) = Some n
        /\ isNormalized doc (mkLoc p i) = Ok true).
Proof.
  split.
  - intros P. unfold makePointingTo. rewrite P. reflexivity.
  - intros V p P. destruct n as [r [|i up]]; [discriminate|].
    unfold parentNode in P. simpl in P. inversion P; subst p.
    destruct (valid_child doc r i up V) as [Vp Hi].
    pose proof (parent_type doc r i up V) as Tp.
    exists (Z.of_nat i). split; [apply makePointingTo_child; exact V|].
    split; [lia|]. split.
    + unfold pointedNode. simpl.
      rewrite (item_child doc r i up V).
      destruct (nodeType doc (mkNode r up)); try discriminate; reflexivity.
    + apply isNormalized_iff. exists (childCount doc (mkNode r up)).
      split; [apply bound_container; exact Tp | simpl; lia].
Qed.

Lemma makePointingTo_spec_witness :
  exists i,
    makePointingTo sample bold = Ok (mkLoc par i)
    /\ 0 <= i < childCount sample par
    /\ pointedNode sample (mkLoc par i) = Some bold
    /\ isNormalized sample (mkLoc par i) = Ok true.
Proof.
  apply (proj2 (makePointingTo_spec sample bold));
    [discriminate | reflexivity].
Defined.

(** X2: the pointed node of a location in a text node is the text node; in
    any other node it is the child at the offset, absent exactly when the
    offset is out of the range of the children; and [makePointingTo] of a
    pointed child gives the location back. *)
Theorem pointedNode_spec (doc : list tree) (l : DOMLoc) :
  (nodeType doc (node l) = TEXT_NODE -> pointedNode doc l = Some (node l))
  /\ (nodeType doc (node l) <> TEXT_NODE ->
      (pointedNode doc l = None <->
       offset l < 0 \/ childCount doc (node l) <= offset l)
      /\ forall c, pointedNode doc l = Some c ->
                   makePointingTo doc c = Ok l).
Proof.
  unfold pointedNode. split.
  - intros ->. reflexivity.
  - intros T.
    assert (E : match nodeType doc (node l) with
                | TEXT_NODE => Some (node l)
                | _ => item (childNodes doc (node l)) (offset l)
                end = item (childNodes doc (node l)) (offset l))
      by (destruct (nodeType doc (node l)); congruence).
    rewrite E. split; [apply item_None|].
    intros c I. destruct (item_childNodes_inv doc _ _ _ I) as [R ->].
    destruct l as [[r rp] o]. simpl in *.
    rewrite makePointingTo_child.
    + replace (Z.of_nat (Z.to_nat o)) with o by lia. reflexivity.
    + apply valid_of_child. lia.
Qed.

Lemma pointedNode_spec_witness :
  pointedNode sample (mkLoc par 3) = None
  /\ makePointingTo sample bold = Ok (mkLoc par 1).
Proof.
  destruct (proj2 (pointedNode_spec sample (mkLoc par 3))
              ltac:(discriminate)) as [N _].
  destruct (proj2 (pointedNode_spec sample (mkLoc par 1))
              ltac:(discriminate)) as [_ M].
  split; [apply N; right; vm_compute; discriminate | apply M; reflexivity].
Defined.

(** X3: [newIfDifferent] answers the receiver itself exactly when the node
    and the offset are the receiver's; otherwise it constructs the location,
    which fails on a negative offset.  Whenever it answers, the answer holds
    the node and the offset asked for. *)
Theorem newIfDifferent_spec (this : DOMLoc) (n : Node) (o : Z) :
  (newIfDifferent this n o = Ok This <-> n = node this /\ o = offset this)
  /\ (~ (n = node this /\ o = offset this) -> 0 <= o ->
      newIfDifferent this n o = Ok (Fresh (mkLoc n o)))
  /\ (~ (n = node this /\ o = offset this) -> o < 0 ->
      newIfDifferent this n o = Throw (Error "offset cannot be negative"))
  /\ (forall i, newIfDifferent this n o = Ok i -> deref this i = mkLoc n o).
Proof.
  unfold newIfDifferent.
  destruct (Node_eqb (node this) n && (offset this =? o)) eqn:E.
  - apply andb_true_iff in E. destruct E as [E1 E2].
    apply Node_eqb_eq in E1. apply Z.eqb_eq in E2.
    split; [|split; [|split]].
    + split; auto.
    + intros D. exfalso. apply D. auto.
    + intros D. exfalso. apply D. auto.
    + intros i Hi. inversion Hi. destruct this. simpl in *. congruence.
  - assert (D : ~ (n = node this /\ o = offset this)).
    { intros [-> ->]. rewrite Node_eqb_refl, Z.eqb_refl in E. discriminate. }
    unfold new_DOMLoc. split; [|split; [|split]].
    + split; [|tauto]. destruct (o <? 0); discriminate.
    + intros _ O. destruct (Z.ltb_spec o 0); [lia | reflexivity].
    + intros _ O. destruct (Z.ltb_spec o 0); [reflexivity | lia].
    + intros i. destruct (o <? 0); simpl; intros H; inversion H. reflexivity.
Qed.

Lemma newIfDifferent_spec_witness :
  newIfDifferent (mkLoc par 1) bold 0 = Ok (Fresh (mkLoc bold 0)).
Proof.
  apply (proj1 (proj2 (newIfDifferent_spec (mkLoc par 1) bold 0)));
    [intro C; destruct C as [C _]; discriminate C | lia].
Defined.

(** X4: [compare] throws exactly when the two nodes are in different trees,
    and then it throws [ComparingDisconnectedNodes]: the "neither preceding
    nor following" error cannot be raised. *)
Theorem compare_failure (doc : list tree) (a b : DOMLoc) :
  (forall e, compare doc a b = Throw e ->
             e = ComparingDisconnectedNodes
             /\ root (node a) <> root (node b))
  /\ (root (node a) <> root (node b) ->
      compare doc a b = Throw ComparingDisconnectedNodes).
Proof.
  split; [|apply compare_disconnected].
  intros e H. split; [eapply compare_throw; exact H|].
  intros R. unfold compare in H.
  destruct (equals a (Some b)); [discriminate|].
  destruct (Node_eqb (node a) (node b)) eqn:N; [discriminate|].
  unfold compareDocumentPosition in H. rewrite R, Nat.eqb_refl in H.
  destruct (path_position_values (rev (rpath (node a)))
                                 (rev (rpath (node b))))
    as [[_ E]|[E|[E|[E|E]]]]; try (rewrite E in H; simpl in H; discriminate).
  apply rev_inj in E. apply Node_eqb_neq in N. apply N.
  destruct (node a), (node b); simpl in *; congruence.
Qed.

Lemma compare_failure_witness :
  compare sample (mkLoc bold 0) (mkLoc detached_div 0)
  = Throw ComparingDisconnectedNodes.
Proof.
  apply (proj2 (compare_failure sample (mkLoc bold 0) (mkLoc detached_div 0))).
  discriminate.
Defined.

(* ------------------------------------------------------------------ *)
(** ** Spaces: what they contain *)

Lemma ancestor_rev (a n : Node) :
  ancestor a n <->
  root a = root n
  /\ exists i t, rev (rpath n) = rev (rpath a) ++ i :: t.
Proof.
  unfold ancestor. split; intros [R (i & l & H)]; split; auto.
  - exists i, (rev l). rewrite H, rev_app_distr. simpl.
    rewrite <- app_assoc. reflexivity.
  - exists i, (rev l). apply rev_inj. rewrite H, rev_app_distr. simpl.
    rewrite rev_involutive, <- app_assoc. reflexivity.
Qed.

(** The locations between the start and the end of a node are the in-range
    locations of the node and the locations under it. *)
Lemma spanning_inside (doc : list tree) (n : Node) (test : NodeTest)
      (l : DOMLoc) :
  locb doc l = true ->
  (inside (mkSpace (mkLoc n 0) (mkLoc n (childCount doc n)) test) l <->
   (node l = n /\ offset l <= childCount doc n) \/ ancestor n (node l)).
Proof.
  intros Ll. apply locb_inv in Ll. destruct Ll as [V O].
  unfold inside. cbn [min max node root].
  rewrite ancestor_rev.
  destruct (Nat.eq_dec (root (node l)) (root n)) as [R|R].
  2:{ split; [tauto|]. intros [[E _]|[E _]]; exfalso; apply R; congruence. }
  destruct (path_split (rev (rpath n)) (rev (rpath (node l))))
    as (P & p' & q' & Hp & Hq & Hd).
  assert (Kmin : forall o, key (mkLoc n o)
                           = map Z.of_nat P ++ (map Z.of_nat p' ++ [o]))
    by (intros o; apply key_split; exact Hp).
  rewrite !Kmin, (key_split l P q' Hq), !lex_app.
  destruct p' as [|x p'], q' as [|y q']; cbn [map app].
  - (* the node itself *)
    rewrite app_nil_r in Hp, Hq. cbn [lex].
    assert (E : node l = n).
    { destruct (node l), n. simpl in *. f_equal; [assumption|].
      apply rev_inj. congruence. }
    split.
    + intros (_ & _ & H). left. split; [exact E|].
      destruct (Z.eqb_spec (offset l) (childCount doc n)); [lia|].
      destruct (Z.ltb_spec (offset l) (childCount doc n)); lia.
    + intros [[_ H]|[_ (i & t & H)]].
      * split; [exact R|].
        destruct (Z.eqb_spec 0 (offset l)),
                 (Z.eqb_spec (offset l) (childCount doc n)),
                 (Z.ltb_spec 0 (offset l)),
                 (Z.ltb_spec (offset l) (childCount doc n)); lia.
      * exfalso. rewrite Hq, Hp in H.
        rewrite <- (app_nil_r P) in H at 1. apply app_inv_head in H.
        discriminate.
  - (* under the node *)
    rewrite app_nil_r in Hp.
    assert (Hy : Z.of_nat y < childCount doc n).
    { assert (Hl : rpath (node l) = rev q' ++ y :: rpath n).
      { apply rev_inj. rewrite Hq, rev_app_distr. simpl.
        rewrite rev_involutive, <- app_assoc, Hp. reflexivity. }
      destruct (node l) as [rl pl], n as [r rp]. simpl in *. subst rl pl.
      apply valid_suffix, valid_child in V. tauto. }
    split.
    + intros _. right. split; [congruence|]. exists y, q'.
      rewrite Hq, Hp. reflexivity.
    + intros _. split; [exact R|]. cbn [lex].
      destruct (map Z.of_nat q' ++ [offset l]) eqn:X;
        [apply app_eq_nil in X; destruct X; discriminate|].
      destruct (Z.eqb_spec 0 (Z.of_nat y)),
               (Z.eqb_spec (Z.of_nat y) (childCount doc n)),
               (Z.ltb_spec 0 (Z.of_nat y)),
               (Z.ltb_spec (Z.of_nat y) (childCount doc n)); lia.
  - (* above the node *)
    rewrite app_nil_r in Hq. cbn [lex]. split.
    + intros (_ & H1 & H2). exfalso.
      destruct (map Z.of_nat p' ++ [0]) eqn:X0;
        [apply app_eq_nil in X0; destruct X0; discriminate|].
      destruct (map Z.of_nat p' ++ [childCount doc n]) eqn:X1;
        [apply app_eq_nil in X1; destruct X1; discriminate|].
      cbn [lex] in H1, H2.
      destruct (Z.eqb_spec (Z.of_nat x) (offset l)),
               (Z.eqb_spec (offset l) (Z.of_nat x)),
               (Z.ltb_spec (Z.of_nat x) (offset l)),
               (Z.ltb_spec (offset l) (Z.of_nat x)); lia.
    + intros [[E _]|[_ (i & t & H)]]; exfalso.
      * rewrite E, Hp in Hq. rewrite <- (app_nil_r P) in Hq at 2.
        apply app_inv_head in Hq. discriminate.
      * rewrite Hq, Hp, <- app_assoc in H.
        rewrite <- (app_nil_r P) in H at 1. apply app_inv_head in H.
        discriminate.
  - (* apart from the node *)
    cbn [lex]. split.
    + intros (_ & H1 & H2). exfalso.
      destruct (Z.eqb_spec (Z.of_nat x) (Z.of_nat y)); [lia|].
      destruct (Z.eqb_spec (Z.of_nat y) (Z.of_nat x)); [lia|].
      destruct (Z.ltb_spec (Z.of_nat x) (Z.of_nat y)),
               (Z.ltb_spec (Z.of_nat y) (Z.of_nat x)); lia.
    + intros [[E _]|[_ (i & t & H)]]; exfalso.
      * rewrite E, Hp in Hq. apply app_inv_head in Hq.
        inversion Hq. congruence.
      * rewrite Hq, Hp, <- app_assoc in H. apply app_inv_head in H.
        inversion H. congruence.
Qed.

(** X5: [makeSpanningNode] fails with [CannotEscapeIrrelevantNode] on an
    irrelevant node and succeeds on a relevant one, never with the
    reversed-range error; the space it makes runs from offset 0 to the child
    count of the node and contains exactly the in-range locations of the node
    and all the locations under it. *)
Theorem makeSpanningNode_spec (doc : list tree) (n : Node) (test : NodeTest) :
  (isRelevantWith doc test n = false ->
   makeSpanningNode doc n test = Throw CannotEscapeIrrelevantNode)
  /\ (isRelevantWith doc test n = true ->
      let s := mkSpace (mkLoc n 0) (mkLoc n (childCount doc n)) test in
      makeSpanningNode doc n test = Ok s
      /\ forall l,
           locb doc l = true ->
           (contains doc s l = Ok true <->
            (node l = n /\ offset l <= childCount doc n)
            \/ ancestor n (node l))).
Proof.
  pose proof (childCount_nonneg doc n) as Cn.
  assert (U : makeSpanningNode doc n test
              = new_DOMSpace doc (mkLoc n 0) (mkLoc n (childCount doc n)) test).
  { unfold makeSpanningNode. rewrite !new_DOMLoc_ok by lia. reflexivity. }
  split.
  - intros R. rewrite U. unfold new_DOMSpace. cbn [node]. rewrite R.
    reflexivity.
  - intros R s.
    assert (M : makeSpanningNode doc n test = Ok s).
    { rewrite U. unfold new_DOMSpace. cbn [node]. rewrite R. cbn [andb negb].
      pose proof (isRelevantWith_valid doc test n R) as V.
      rewrite (compare_lex doc _ _
                 (locb_intro doc n (childCount doc n) V Cn)
                 (locb_intro doc n 0 V ltac:(lia)) eq_refl).
      cbn [bind]. unfold s.
      destruct (Z.eq_dec (childCount doc n) 0) as [E|E].
      - rewrite E, lex_refl. reflexivity.
      - rewrite lex_antisym, key_same_node_lt by lia. reflexivity. }
    split; [exact M|]. intros l Ll.
    rewrite U in M.
    pose proof (spaceb_intro doc _ _ _ _ M ltac:(simpl; lia) Cn) as Hs.
    rewrite (contains_lex doc s l Hs Ll).
    apply spanning_inside. exact Ll.
Qed.

Lemma makeSpanningNode_spec_witness :
  makeSpanningNode sample par any_node
  = Ok (mkSpace (mkLoc par 0) (mkLoc par (childCount sample par)) any_node)
  /\ contains sample
       (mkSpace (mkLoc par 0) (mkLoc par (childCount sample par)) any_node)
       (mkLoc bold_text 2) = Ok true.
Proof.
  destruct (proj2 (makeSpanningNode_spec sample par any_node) eq_refl)
    as [M C].
  split; [exact M|].
  apply (C (mkLoc bold_text 2) eq_refl). right.
  split; [reflexivity|]. exists 1%nat, [0%nat]. reflexivity.
Defined.

(** X6: in every space [min] and [max] are contained, and containment is
    convex: a location that compares between two contained locations is
    contained. *)
Theorem contains_convex (doc : list tree) (s : DOMSpace) :
  spaceb doc s = true ->
  contains doc s (min s) = Ok true
  /\ contains doc s (max s) = Ok true
  /\ forall a b c ra rc,
       locb doc a = true -> locb doc b = true -> locb doc c = true ->
       contains doc s a = Ok true -> contains doc s c = Ok true ->
       compare doc a b = Ok ra -> ra <= 0 ->
       compare doc b c = Ok rc -> rc <= 0 ->
       contains doc s b = Ok true.
Proof.
  intros Hs. split; [apply contains_min; exact Hs|].
  split; [apply contains_max; exact Hs|].
  intros a b c ra rc La Lb Lc Ca Cc Cab Ha Cbc Hc.
  apply (contains_lex doc s a Hs La) in Ca. destruct Ca as (Ra & A1 & A2).
  apply (contains_lex doc s c Hs Lc) in Cc. destruct Cc as (Rc & C1 & C2).
  assert (Rab : root (node a) = root (node b)).
  { destruct (Nat.eq_dec (root (node a)) (root (node b))); [assumption|].
    rewrite compare_disconnected in Cab by assumption. discriminate. }
  rewrite (compare_lex doc a b La Lb Rab) in Cab. inversion Cab; subst ra.
  rewrite (compare_lex doc b c Lb Lc) in Cbc by congruence.
  inversion Cbc; subst rc.
  apply (contains_lex doc s b Hs Lb). split; [congruence|]. split.
  - destruct (lex_range (key a) (key b)) as [E|[E|E]]; [| |lia].
    + rewrite (lex_le_lt_trans _ _ _ A1 E). lia.
    + apply lex_eq in E. rewrite <- E. exact A1.
  - destruct (lex_range (key b) (key c)) as [E|[E|E]]; [| |lia].
    + rewrite (lex_lt_le_trans _ _ _ E C2). lia.
    + apply lex_eq in E. rewrite E. exact C2.
Qed.

Lemma contains_convex_witness :
  contains sample arbitrary_span (mkLoc bold 1) = Ok true.
Proof.
  destruct (contains_convex sample arbitrary_span eq_refl) as (A & C & B).
  apply (B (min arbitrary_span) (mkLoc bold 1) (max arbitrary_span)
           (-1) (-1));
    try reflexivity; try assumption; lia.
Defined.

(* ------------------------------------------------------------------ *)
(** ** Escaping: the scanned chain *)

Section Chain.

Variable doc : list tree.

(** The address of a location pointing at an ancestor-or-self is a proper
    prefix of the address of any location in the node. *)
Lemma key_of_suffix (r j : nat) (l0 up : list nat) (o : Z) :
  key (mkLoc (mkNode r (l0 ++ j :: up)) o)
  = key (mkLoc (mkNode r up) (Z.of_nat j)) ++ (map Z.of_nat (rev l0) ++ [o]).
Proof.
  unfold key. simpl. rewrite rev_app_distr. simpl.
  rewrite <- !app_assoc, !map_app, <- !app_assoc. reflexivity.
Qed.

Lemma pointing_before (r j : nat) (l0 up : list nat) (o : Z) :
  lex (key (mkLoc (mkNode r up) (Z.of_nat j)))
      (key (mkLoc (mkNode r (l0 ++ j :: up)) o)) = -1.
Proof.
  rewrite key_of_suffix.
  destruct (map Z.of_nat (rev l0) ++ [o]) eqn:X;
    [apply app_eq_nil in X; destruct X; discriminate|].
  apply lex_prefix.
Qed.

(** If a location pointing at a node is before the space although the node
    holds a location of the space, the same goes for every ancestor. *)
Lemma not_contained_above (s : DOMSpace) (r i : nat) (up : list nat)
      (o : Z) (m : Node) :
  spaceb doc s = true ->
  valid doc (mkNode r (i :: up)) -> 0 <= o ->
  contains doc s (mkLoc (mkNode r (i :: up)) o) = Ok true ->
  contains doc s (mkLoc (mkNode r up) (Z.of_nat i)) = Ok false ->
  root m = r -> (exists l0, up = l0 ++ rpath m) ->
  containsNode doc s m = Ok false.
Proof.
  intros Hs V O C Cp Rm [l0 E]. destruct m as [rm [|j up']].
  - reflexivity.
  - simpl in Rm, E. subst rm up.
    destruct (valid_child doc r i _ V) as [Vp _].
    assert (Vm : valid doc (mkNode r (j :: up')))
      by (eapply valid_suffix; exact Vp).
    destruct (valid_child doc r j up' Vm) as [Vq _].
    rewrite (containsNode_child doc s r j up' Vm).
    apply contains_false_lex;
      [assumption | apply locb_intro; [assumption | lia] |].
    apply contains_false_lex in Cp;
      [|assumption | apply locb_intro; [assumption | lia]].
    apply contains_lex in C; [|assumption | apply locb_intro; assumption].
    intros (Rq & Q1 & Q2). apply Cp.
    destruct C as (Rx & X1 & X2). split; [exact Rx|].
    pose proof (pointing_before r j l0 up' (Z.of_nat i)) as P1.
    pose proof (pointing_before r i [] (l0 ++ j :: up') o) as P2.
    simpl in P2. split.
    + rewrite (lex_le_lt_trans _ _ _ Q1 P1). lia.
    + rewrite (lex_lt_le_trans _ _ _ P2 X2). lia.
Qed.

Lemma chain_members_iff (s : DOMSpace) (r : nat) (rp : list nat) :
  spaceb doc s = true ->
  forall o, valid doc (mkNode r rp) -> 0 <= o ->
  contains doc s (mkLoc (mkNode r rp) o) = Ok true ->
  exists chain,
    ancestorsAndSelf_at doc s r rp = Ok chain
    /\ forall m, In m chain <->
                 (root m = r /\ exists l0, rp = l0 ++ rpath m)
                 /\ containsNode doc s m = Ok true.
Proof.
  intros Hs. induction rp as [|i up IH]; intros o V O C.
  - exists []. split; [reflexivity|]. intros m. split; [intros []|].
    intros [[_ [l0 E]] H]. symmetry in E. apply app_eq_nil in E.
    destruct E as [_ E]. rewrite containsNode_root in H; [discriminate|].
    unfold parentNode. rewrite E. reflexivity.
  - rewrite (chain_cons doc s r i up V).
    destruct (valid_child doc r i up V) as [Vp Hi].
    destruct (contains_total doc s (mkLoc (mkNode r up) (Z.of_nat i)))
      as [[|] Cp]; rewrite Cp; cbn [bind].
    + destruct (IH (Z.of_nat i) Vp ltac:(lia) Cp) as (rest & E & M).
      rewrite E. cbn [bind]. eexists. split; [reflexivity|].
      intros m. cbn [In]. rewrite M. split.
      * intros [<-|[[Rm [l0 El]] Hm]].
        -- split; [split; [reflexivity | exists []; reflexivity]|].
           rewrite (containsNode_child doc s r i up V). exact Cp.
        -- split; [|exact Hm]. split; [exact Rm|].
           exists (i :: l0). simpl. congruence.
      * intros [[Rm [l0 El]] Hm]. destruct l0 as [|i' l0].
        -- left. destruct m. simpl in *. congruence.
        -- right. inversion El; subst. split; [|exact Hm].
           split; [reflexivity | exists l0; reflexivity].
    + exists []. split; [reflexivity|]. intros m. split; [intros []|].
      intros [[Rm [l0 El]] Hm]. exfalso. destruct l0 as [|i' l0].
      * assert (m = mkNode r (i :: up))
          by (destruct m; simpl in *; congruence).
        subst m. rewrite (containsNode_child doc s r i up V), Cp in Hm.
        discriminate.
      * inversion El; subst i'.
        rewrite (not_contained_above s r i up o m Hs V O C Cp Rm) in Hm;
          [discriminate|]. exists l0. assumption.
Qed.

End Chain.

(** X7: from a node that holds a location of the space,
    [escapeIrrelevantNode] scans exactly the contained nodes among the node
    and its ancestors; and the node of [min] is never among the contained
    nodes of its space. *)
Theorem ancestorsAndSelf_spec (doc : list tree) (s : DOMSpace) (n : Node)
        (o : Z) :
  spaceb doc s = true ->
  valid doc n -> 0 <= o ->
  contains doc s (mkLoc n o) = Ok true ->
  (exists chain,
      ancestorsAndSelf doc s n = Ok chain
      /\ forall m, In m chain <->
                   (m = n \/ ancestor m n)
                   /\ containsNode doc s m = Ok true)
  /\ containsNode doc s (node (min s)) = Ok false.
Proof.
  intros Hs V O C. split.
  - destruct n as [r rp].
    destruct (chain_members_iff doc s r rp Hs o V O C) as (chain & E & M).
    exists chain. split; [exact E|]. intros m. rewrite M.
    unfold ancestor. cbn [root rpath].
    split; intros [H Hm]; split; try exact Hm.
    + destruct H as [Rm [[|i l0] El]].
      * left. destruct m. simpl in *. congruence.
      * right. split; [exact Rm|].
        destruct (exists_last (l := i :: l0) ltac:(discriminate))
          as (l1 & j & E1).
        exists j, l1. rewrite El, E1, <- app_assoc. reflexivity.
    + destruct H as [->|[Rm (i & l0 & El)]].
      * split; [reflexivity | exists []; reflexivity].
      * split; [exact Rm|]. exists (l0 ++ [i]).
        rewrite <- app_assoc. exact El.
  - pose proof (chain_min doc s Hs) as Cm.
    destruct (space_inv doc s Hs) as (Lmin & _).
    apply locb_inv in Lmin. destruct Lmin as [Vm Om].
    unfold ancestorsAndSelf in Cm.
    destruct (node (min s)) as [r [|i up]]; [reflexivity|].
    cbn [root rpath] in Cm. rewrite (chain_cons doc s r i up Vm) in Cm.
    rewrite (containsNode_child doc s r i up Vm).
    destruct (contains_total doc s (mkLoc (mkNode r up) (Z.of_nat i)))
      as [[|] Cp]; [|exact Cp].
    rewrite Cp in Cm. cbn [bind] in Cm.
    destruct (ancestorsAndSelf_at doc s r up); discriminate.
Qed.

Lemma ancestorsAndSelf_spec_witness :
  (exists chain,
      ancestorsAndSelf sample arbitrary_span bold_text = Ok chain
      /\ forall m, In m chain <->
                   (m = bold_text \/ ancestor m bold_text)
                   /\ containsNode sample arbitrary_span m = Ok true)
  /\ containsNode sample arbitrary_span par = Ok false.
Proof.
  apply (ancestorsAndSelf_spec sample arbitrary_span bold_text 2 eq_refl);
    [discriminate | lia | reflexivity].
Defined.

(* ------------------------------------------------------------------ *)
(** ** Escaping: what comes out *)

Section Escape.

Variable doc : list tree.

Lemma scan_app_relevant (s : DOMSpace) (first : option Node)
      (pre l : list Node) :
  Forall (fun n => isRelevant doc s n = true) pre ->
  scan doc s first (pre ++ l) = scan doc s first l.
Proof.
  induction 1 as [|c pre Rc F IH]; simpl; [reflexivity|].
  rewrite Rc. exact IH.
Qed.

Lemma scan_split (s : DOMSpace) (first : option Node) (l : list Node)
      (found : DOMLoc) :
  scan doc s first l = Ok (Some found) ->
  exists pre cand post p,
    l = pre ++ cand :: post
    /\ Forall (fun n => isRelevant doc s n = true) pre
    /\ isRelevant doc s cand = false
    /\ parentNode cand = Some p
    /\ new_DOMLoc p (indexOf (childNodes doc p) cand) = Ok found.
Proof.
  induction l as [|c l IH]; simpl; [discriminate|].
  destruct (isRelevant doc s c) eqn:R; simpl.
  - intros H. destruct (IH H) as (pre & cand & post & p & -> & F & Rc & P & N).
    exists (c :: pre), cand, post, p. repeat split; auto.
  - destruct (same_node c first); [discriminate|].
    destruct (parentNode c) as [p|] eqn:P; [|discriminate].
    destruct (new_DOMLoc p _) as [l'|] eqn:N; simpl; [|discriminate].
    intros H. inversion H; subst.
    exists [], c, l, p. repeat split; auto.
Qed.

Lemma chain_suffix (s : DOMSpace) (r : nat) (rp : list nat)
      (l1 l2 : list Node) (j : nat) (up : list nat) :
  valid doc (mkNode r rp) ->
  ancestorsAndSelf_at doc s r rp = Ok (l1 ++ mkNode r (j :: up) :: l2) ->
  ancestorsAndSelf_at doc s r up = Ok l2
  /\ contains doc s (mkLoc (mkNode r up) (Z.of_nat j)) = Ok true
  /\ exists l0, rp = l0 ++ j :: up.
Proof.
  revert l1. induction rp as [|i up0 IH]; intros l1 V A.
  - simpl in A. inversion A. destruct l1; discriminate.
  - rewrite (chain_cons doc s r i up0 V) in A.
    destruct (valid_child doc r i up0 V) as [Vp _].
    destruct (contains_total doc s (mkLoc (mkNode r up0) (Z.of_nat i)))
      as [[|] Cp]; rewrite Cp in A; cbn [bind] in A.
    + destruct (ancestorsAndSelf_at doc s r up0) as [rest|] eqn:E;
        cbn [bind] in A; [|discriminate].
      inversion A as [A']. destruct l1 as [|c l1]; simpl in A'.
      * inversion A'; subst. split; [exact E|]. split; [exact Cp|].
        exists []. reflexivity.
      * inversion A'; subst.
        destruct (IH l1 Vp eq_refl) as (H1 & H2 & l0 & H3).
        split; [exact H1|]. split; [exact H2|].
        exists (i :: l0). simpl. congruence.
    + inversion A. destruct l1; discriminate.
Qed.

Lemma normalizeOffset_data (x : DOMLoc) (e : instance) :
  0 <= offset x ->
  normalizeOffset doc x = Ok e ->
  exists b, bound doc (node x) = Some b
            /\ deref x e = mkLoc (node x) (Z.min (offset x) b).
Proof.
  intros O N. destruct (bound doc (node x)) as [b|] eqn:B.
  - exists b. split; [reflexivity|].
    destruct (normalizeOffset_total doc x b B O) as (i & N' & D).
    congruence.
  - unfold normalizeOffset in N.
    rewrite (normalizedOffset_unsupported doc x B) in N. discriminate.
Qed.

(** The two ways [escapeIrrelevantNode] answers: the normalized location,
    when the scanned chain is relevant; or the location pointing at the
    topmost irrelevant node of the chain, from its relevant parent. *)
Lemma escape_cases (s : DOMSpace) (x : DOMLoc) (e : instance) :
  locb doc x = true ->
  escapeIrrelevantNode doc s x = Ok e ->
  contains doc s x = Ok true
  /\ ((normalizeOffset doc x = Ok e /\ relevant_chain doc s (node x))
      \/ exists r j up l0,
           node x = mkNode r (l0 ++ j :: up)
           /\ e = Fresh (mkLoc (mkNode r up) (Z.of_nat j))
           /\ isRelevant doc s (mkNode r (j :: up)) = false
           /\ valid doc (mkNode r (j :: up))
           /\ contains doc s (mkLoc (mkNode r up) (Z.of_nat j)) = Ok true
           /\ relevant_chain doc s (mkNode r up)).
Proof.
  intros Lx. apply locb_inv in Lx. destruct Lx as [V O].
  unfold escapeIrrelevantNode.
  destruct (contains doc s x) as [[|]|]; cbn [bind negb]; try discriminate.
  destruct (normalizeOffset doc x) as [i|] eqn:N; cbn [bind]; [|discriminate].
  rewrite (normalizeOffset_node doc x i N).
  destruct x as [[r rp] o]. cbn [node offset] in *.
  unfold ancestorsAndSelf. cbn [root rpath].
  destruct (chain_total doc s r rp V) as (chain & A & F). rewrite A.
  cbn [bind].
  destruct (scan doc s _ (rev chain)) as [[l|]|] eqn:S; cbn [bind];
    try discriminate; intros H; inversion H; subst e; clear H;
    (split; [reflexivity|]).
  - right.
    destruct (scan_split s _ _ _ S)
      as (pre & cand & post & p & E & Fp & Rc & P & Nl).
    assert (Ec : chain = rev post ++ cand :: rev pre).
    { apply rev_inj. rewrite E, rev_app_distr. simpl.
      rewrite !rev_involutive, <- app_assoc. reflexivity. }
    rewrite Forall_forall in F.
    destruct (F cand) as (l0 & j & up & Erp & ->).
    { rewrite Ec. apply in_or_app. right. left. reflexivity. }
    rewrite Ec in A.
    destruct (chain_suffix s r rp _ _ j up V A) as (A2 & Cp & l0' & Erp').
    assert (Vc : valid doc (mkNode r (j :: up)))
      by (eapply valid_suffix; rewrite <- Erp; exact V).
    unfold parentNode in P. simpl in P. inversion P; subst p.
    rewrite indexOf_child in Nl by exact Vc.
    apply new_DOMLoc_inv in Nl. destruct Nl as [-> _].
    exists r, j, up, l0. repeat split; auto; [congruence|].
    exists (rev pre). split; [exact A2 | apply Forall_rev; exact Fp].
  - left. split; [reflexivity|]. exists chain. split; [exact A|].
    apply scan_None in S. apply Forall_rev in S.
    rewrite rev_involutive in S. exact S.
Qed.

Lemma lex_sandwich (K : list Z) (b o : Z) (m : list Z) :
  lex (K ++ [b]) m = -1 -> lex m (K ++ [o]) <= 0 ->
  exists rest, m = K ++ rest /\ lex [b] rest = -1.
Proof.
  revert m. induction K as [|k K IH]; intros m H1 H2.
  - exists m. auto.
  - destruct m as [|x m]; simpl in H1, H2; [lia|].
    destruct (Z.eqb_spec k x) as [->|N].
    + rewrite Z.eqb_refl in H2.
      destruct (IH m H1 H2) as (rest & -> & L). exists rest. auto.
    + destruct (Z.eqb_spec x k); [congruence|].
      destruct (Z.ltb_spec k x), (Z.ltb_spec x k); lia.
Qed.

Lemma childCount_le_bound (c : Node) (e : Z) :
  bound doc c = Some e -> childCount doc c <= e.
Proof.
  unfold bound. destruct (nodeType doc c) eqn:T; intros H; inversion H;
    try lia.
  rewrite (childCount_text doc c T). apply textLength_nonneg.
Qed.

(** No normalized location in or under a node of a supported kind comes
    after the end of that node. *)
Lemma no_loc_beyond_bound (c : Node) (e : Z) (m : DOMLoc) (rest : list Z) :
  bound doc c = Some e ->
  locb doc m = true -> isNormalized doc m = Ok true ->
  root (node m) = root c ->
  key m = map Z.of_nat (rev (rpath c)) ++ rest ->
  lex [e] rest = -1 ->
  False.
Proof.
  intros Bc Lm Nm Hr Hk Hl. apply locb_inv in Lm. destruct Lm as [Vm Om].
  destruct rest as [|k rest]; simpl in Hl; [lia|].
  pose proof (childCount_le_bound c e Bc) as CE.
  destruct rest as [|k2 rest].
  - unfold key in Hk. apply app_inj_tail in Hk. destruct Hk as [Hp Ho].
    apply map_of_nat_inj, rev_inj in Hp.
    assert (E : node m = c) by (destruct (node m), c; simpl in *; congruence).
    apply isNormalized_iff in Nm. destruct Nm as (b & B & L).
    rewrite E, Bc in B. inversion B; subst b.
    destruct (Z.eqb_spec e k); [lia|]. destruct (Z.ltb_spec e k); lia.
  - unfold key in Hk. apply key_decode_list in Hk; [|discriminate].
    destruct Hk as (k' & A' & H1 & -> & _).
    assert (Hm : rpath (node m) = rev A' ++ k' :: rpath c).
    { apply rev_inj. rewrite H1, rev_app_distr. simpl.
      rewrite rev_involutive, <- app_assoc. reflexivity. }
    destruct (node m) as [rm pm]. simpl in *. subst rm pm.
    apply valid_suffix, valid_child in Vm. destruct Vm as [_ Hc].
    destruct c as [rc pc]. simpl in *.
    destruct (Z.eqb_spec e (Z.of_nat k')); [lia|].
    destruct (Z.ltb_spec e (Z.of_nat k')); lia.
Qed.

(** With a normalized [min], normalizing a location of the space does not
    leave the space. *)
Lemma normalized_contained (s : DOMSpace) (n : Node) (o b : Z) :
  spaceb doc s = true ->
  valid doc n -> 0 <= o ->
  isNormalized doc (min s) = Ok true ->
  contains doc s (mkLoc n o) = Ok true ->
  bound doc n = Some b ->
  contains doc s (mkLoc n (Z.min o b)) = Ok true.
Proof.
  intros Hs V O Nm C B.
  destruct (Z.min_spec o b) as [[_ E]|[Q E]]; rewrite E; [exact C|].
  destruct (Z.eq_dec b o) as [->|Q']; [exact C|].
  pose proof (bound_nonneg doc n b B) as Bn.
  destruct (space_inv doc s Hs) as (Lmin & _).
  apply contains_lex in C; [|assumption | apply locb_intro; assumption].
  apply contains_lex; [assumption | apply locb_intro; assumption |].
  apply (inside_pred s (mkLoc n o)); auto.
  - apply key_same_node_lt. lia.
  - intros G. destruct C as (R & C1 & _).
    unfold key in G, C1. cbn [node offset] in G, C1.
    destruct (lex_sandwich _ _ _ _ G C1) as (rest & Er & Lr).
    apply (no_loc_beyond_bound n b (min s) rest); auto.
Qed.

End Escape.

(** X8: with a normalized [min], [escapeIrrelevantNode] is idempotent:
    whatever location it answers, it answers that very location when it is
    applied to it again. *)
Theorem escapeIrrelevantNode_idempotent (doc : list tree) (s : DOMSpace)
        (x : DOMLoc) (e : instance) :
  spaceb doc s = true -> locb doc x = true ->
  isNormalized doc (min s) = Ok true ->
  escapeIrrelevantNode doc s x = Ok e ->
  escapeIrrelevantNode doc s (deref x e) = Ok This.
Proof.
  intros Hs Lx Nm He.
  destruct (escape_cases doc s x e Lx He)
    as [C [[N Ch]|(r & j & up & l0 & En & -> & Rc & Vc & Cp & Ch)]].
  - apply locb_inv in Lx. destruct Lx as [V O].
    destruct (normalizeOffset_data doc x e O N) as (b & B & ->).
    destruct x as [n o]. cbn [node offset] in *.
    eapply settled_intro; [|exact B | lia | exact Ch].
    apply normalized_contained; assumption.
  - simpl. destruct (valid_child doc r j up Vc) as [_ Hj].
    eapply settled_intro;
      [exact Cp | apply bound_container; eapply parent_type; exact Vc
       | lia | exact Ch].
Qed.

Lemma escapeIrrelevantNode_idempotent_witness :
  escapeIrrelevantNode sample
    (mkSpace (mkLoc the_document 0) (mkLoc the_document 1) without_par)
    (mkLoc div_1 1)
  = Ok This.
Proof.
  apply (escapeIrrelevantNode_idempotent sample
           (mkSpace (mkLoc the_document 0) (mkLoc the_document 1) without_par)
           (mkLoc bold 0) (Fresh (mkLoc div_1 1)));
    reflexivity.
Defined.

(** X9: when [escapeIrrelevantNode] answers a new location, that location is
    strictly before the given one: it is either the end of the same node, the
    given offset being out of range, or the location that points, from a
    strict ancestor, at an irrelevant node which is or contains the given
    node. *)
Theorem escapeIrrelevantNode_moves_back (doc : list tree) (s : DOMSpace)
        (x l : DOMLoc) :
  locb doc x = true ->
  escapeIrrelevantNode doc s x = Ok (Fresh l) ->
  compare doc l x = Ok (-1)
  /\ ((node l = node x /\ bound doc (node x) = Some (offset l)
       /\ offset l < offset x)
      \/ exists cand,
           pointedNode doc l = Some cand
           /\ isRelevant doc s cand = false
           /\ (cand = node x \/ ancestor cand (node x))
           /\ ancestor (node l) (node x)).
Proof.
  intros Lx He.
  destruct (escape_cases doc s x _ Lx He)
    as [C [[N Ch]|(r & j & up & l0 & En & E & Rc & Vc & Cp & Ch)]].
  - pose proof (locb_inv doc x Lx) as [V O].
    destruct (normalizeOffset_data doc x _ O N) as (b & B & D).
    simpl in D. subst l. cbn [node offset].
    pose proof (bound_nonneg doc _ _ B) as Bn.
    assert (Q : b < offset x).
    { destruct (Z.lt_ge_cases b (offset x)) as [Q|Q]; [exact Q|].
      assert (E : Z.min (offset x) b = offset x) by lia.
      exfalso. unfold normalizeOffset in N.
      rewrite (normalizedOffset_bound doc x b B) in N. cbn [bind] in N.
      rewrite E, Z.eqb_refl in N. discriminate. }
    replace (Z.min (offset x) b) with b by lia.
    split.
    + rewrite compare_lex;
        [|apply locb_intro; [exact V | lia] | exact Lx | reflexivity].
      f_equal. destruct x as [n o]. apply key_same_node_lt. exact Q.
    + left. auto.
  - inversion E; subst l. clear E. cbn [node offset].
    destruct (valid_child doc r j up Vc) as [Vp Hj].
    assert (Ex : x = mkLoc (mkNode r (l0 ++ j :: up)) (offset x))
      by (destruct x; simpl in *; congruence).
    assert (An : ancestor (mkNode r up) (node x)).
    { rewrite En. split; [reflexivity|]. exists j, l0. reflexivity. }
    split.
    + rewrite compare_lex;
        [|apply locb_intro; [exact Vp | lia] | exact Lx
         | rewrite En; reflexivity].
      f_equal. rewrite Ex. apply pointing_before.
    + right. exists (mkNode r (j :: up)).
      split.
      { unfold pointedNode. cbn [node offset].
        rewrite (item_child doc r j up Vc).
        pose proof (parent_type doc r j up Vc) as T.
        destruct (nodeType doc (mkNode r up)); try discriminate; reflexivity. }
      split; [exact Rc|]. split; [|exact An].
      rewrite En. destruct l0 as [|i l0].
      * left. reflexivity.
      * right. split; [reflexivity|].
        destruct (exists_last (l := i :: l0) ltac:(discriminate))
          as (l1 & k & E1).
        exists k, l1. cbn [rpath]. rewrite E1, <- app_assoc. reflexivity.
Qed.

Lemma escapeIrrelevantNode_moves_back_witness :
  compare sample (mkLoc div_1 1) (mkLoc bold 0) = Ok (-1).
Proof.
  apply (escapeIrrelevantNode_moves_back sample
           (mkSpace (mkLoc the_document 0) (mkLoc the_document 1) without_par)
           (mkLoc bold 0) (mkLoc div_1 1));
    reflexivity.
Defined.

(** X10: the scan of [escapeIrrelevantNode] goes from the outermost contained
    ancestor inwards.  When an irrelevant node of the chain has only relevant
    nodes above it in the chain, the answer is the location pointing at that
    node; when it is the outermost node of the chain, there is nothing to
    escape to and the internal error is thrown. *)
Theorem escapeIrrelevantNode_outermost (doc : list tree) (s : DOMSpace)
        (x : DOMLoc) (inner outer : list Node) (cand : Node) :
  locb doc x = true ->
  contains doc s x = Ok true ->
  bound doc (node x) <> None ->
  ancestorsAndSelf doc s (node x) = Ok (inner ++ cand :: outer) ->
  isRelevant doc s cand = false ->
  Forall (fun n => isRelevant doc s n = true) outer ->
  match outer with
  | [] =>
      escapeIrrelevantNode doc s x
      = Throw (Error "internal error: we should always be able to escape a location which is inside the space")
  | _ :: _ =>
      exists l, makePointingTo doc cand = Ok l
                /\ escapeIrrelevantNode doc s x = Ok (Fresh l)
  end.
Proof.
  intros Lx C B A Rc Fo. apply locb_inv in Lx. destruct Lx as [V O].
  destruct (bound doc (node x)) as [b|] eqn:Bx; [clear B|congruence].
  destruct (normalizeOffset_total doc x b Bx O) as (i & N & _).
  unfold escapeIrrelevantNode. rewrite C. cbn [bind negb]. rewrite N.
  cbn [bind]. rewrite (normalizeOffset_node doc x i N), A. cbn [bind].
  rewrite rev_app_distr. cbn [rev]. rewrite <- app_assoc. cbn [app].
  destruct outer as [|c0 outer'].
  - cbn [rev app nth_error scan]. rewrite Rc. cbn [negb same_node].
    rewrite Node_eqb_refl. reflexivity.
  - destruct x as [[r rp] o]. cbn [node offset root rpath] in *.
    unfold ancestorsAndSelf in A. cbn [root rpath] in A.
    destruct (chain_total doc s r rp V) as (chain & A' & F).
    rewrite A in A'. inversion A'; subst chain. clear A'.
    rewrite Forall_forall in F.
    destruct (F cand) as (l0 & j & up & Erp & ->).
    { apply in_or_app. right. left. reflexivity. }
    destruct (chain_suffix doc s r rp _ _ j up V A) as (A2 & _ & _).
    assert (Vc : valid doc (mkNode r (j :: up)))
      by (eapply valid_suffix; rewrite <- Erp; exact V).
    destruct (valid_child doc r j up Vc) as [Vp Hj].
    destruct (chain_total doc s r up Vp) as (chain & A' & F').
    rewrite A2 in A'. inversion A'; subst chain. clear A'.
    exists (mkLoc (mkNode r up) (Z.of_nat j)).
    split; [apply makePointingTo_child; exact Vc|].
    set (R := rev (c0 :: outer')).
    assert (FR : Forall (fun n => isRelevant doc s n = true) R)
      by (apply Forall_rev; exact Fo).
    assert (IR : forall t, In t R -> t <> mkNode r (j :: up)).
    { intros t It. unfold R in It. apply in_rev in It.
      rewrite Forall_forall in F'.
      destruct (F' t It) as (l1 & i' & up' & E1 & ->).
      intros Q. inversion Q as [[Q1 Q2]].
      apply (f_equal (@List.length nat)) in E1. rewrite length_app in E1.
      simpl in E1. subst up. lia. }
    destruct R as [|t R'] eqn:ER.
    { unfold R in ER. cbn [rev] in ER. destruct (rev outer'); discriminate. }
    cbn [app nth_error].
    change (t :: R' ++ mkNode r (j :: up) :: rev inner)
      with ((t :: R') ++ mkNode r (j :: up) :: rev inner).
    rewrite (scan_app_relevant doc s (Some t) (t :: R') _ FR).
    cbn [scan]. rewrite Rc. cbn [negb same_node].
    assert (Nt : Node_eqb (mkNode r (j :: up)) t = false).
    { apply Node_eqb_neq. intros Q. apply (IR t); [left; reflexivity|].
      congruence. }
    rewrite Nt. unfold parentNode. cbn [rpath root].
    rewrite indexOf_child by exact Vc.
    rewrite new_DOMLoc_ok by lia. reflexivity.
Qed.

Lemma escapeIrrelevantNode_outermost_witness :
  exists l, makePointingTo sample par = Ok l
            /\ escapeIrrelevantNode sample
                 (mkSpace (mkLoc the_document 0) (mkLoc the_document 1)
                          without_par)
                 (mkLoc bold_text 2)
               = Ok (Fresh l).
Proof.
  apply (escapeIrrelevantNode_outermost sample
           (mkSpace (mkLoc the_document 0) (mkLoc the_document 1) without_par)
           (mkLoc bold_text 2) [bold_text; bold] [div_1; top_div] par).
  - reflexivity.
  - reflexivity.
  - discriminate.
  - reflexivity.
  - reflexivity.
  - repeat constructor.
Defined.

(* ------------------------------------------------------------------ *)
(** ** Where a step lands *)

Section Landing.

Variable doc : list tree.

Lemma key_over_lt (n : Node) (a b : Z) (rest : list Z) :
  a < b -> lex (key (mkLoc n a) ++ rest) (key (mkLoc n b)) = -1.
Proof.
  intros H. unfold key. simpl. rewrite <- app_assoc, lex_app. simpl.
  destruct (Z.eqb_spec a b); [lia|]. destruct (Z.ltb_spec a b); lia.
Qed.

Lemma contains_root (s : DOMSpace) (l : DOMLoc) :
  contains doc s l = Ok true -> root (node l) = root (node (min s)).
Proof.
  intros C. destruct (Nat.eq_dec (root (node l)) (root (node (min s))))
    as [E|E]; [exact E|].
  rewrite (contains_other_root doc s l E) in C. discriminate.
Qed.

(** The escaped location is a normalized location at or before the given
    one. *)
Lemma escape_result (s : DOMSpace) (x : DOMLoc) (e : instance) :
  locb doc x = true ->
  escapeIrrelevantNode doc s x = Ok e ->
  locb doc (deref x e) = true
  /\ isNormalized doc (deref x e) = Ok true
  /\ root (node (deref x e)) = root (node x)
  /\ lex (key (deref x e)) (key x) <= 0.
Proof.
  intros Lx He.
  destruct (escape_cases doc s x e Lx He)
    as [C [[N Ch]|(r & j & up & l0 & En & -> & Rc & Vc & Cp & Ch)]].
  - pose proof (locb_inv doc x Lx) as [V O].
    destruct (normalizeOffset_data doc x e O N) as (b & B & ->).
    pose proof (bound_nonneg doc _ _ B) as Bn.
    split; [apply locb_intro; [exact V | lia]|].
    split; [apply isNormalized_iff; exists b; split; [exact B | simpl; lia]|].
    split; [reflexivity|].
    destruct x as [n o]. cbn [node offset] in *.
    destruct (Z.eq_dec (Z.min o b) o) as [->|Q].
    + rewrite lex_refl. lia.
    + rewrite key_same_node_lt by lia. lia.
  - cbn [deref]. destruct (valid_child doc r j up Vc) as [Vp Hj].
    split; [apply locb_intro; [exact Vp | lia]|].
    split.
    { apply isNormalized_iff. exists (childCount doc (mkNode r up)).
      split; [apply bound_container; eapply parent_type; exact Vc|].
      simpl. lia. }
    split; [rewrite En; reflexivity|].
    replace x with (mkLoc (mkNode r (l0 ++ j :: up)) (offset x))
      by (destruct x; simpl in *; congruence).
    rewrite pointing_before. lia.
Qed.

(** The three places where [next] can land. *)
Lemma next_shape (s : DOMSpace) (x : DOMLoc) (e : instance) (n : Node)
      (k : Z) (y : DOMLoc) :
  escapeIrrelevantNode doc s x = Ok e ->
  deref x e = mkLoc n k -> 0 <= k ->
  is_container (nodeType doc n) = true \/ nodeType doc n = TEXT_NODE ->
  next doc s x = Ok (Some y) ->
  (exists c, item (childNodes doc n) k = Some c
             /\ isRelevant doc s c = true /\ y = mkLoc c 0)
  \/ (exists b, bound doc n = Some b /\ k + 1 <= b /\ y = mkLoc n (k + 1))
  \/ (exists r i up, n = mkNode r (i :: up) /\ valid doc n
                     /\ y = mkLoc (mkNode r up) (Z.of_nat i + 1)).
Proof.
  intros He Hn O T H.
  pose proof (supported_valid doc n T) as V.
  assert (Up : ascend_after doc s n = Ok (Some y) ->
               exists r i up, n = mkNode r (i :: up) /\ valid doc n
                              /\ y = mkLoc (mkNode r up) (Z.of_nat i + 1)).
  { destruct n as [r [|i up]]; [discriminate|].
    rewrite (ascend_after_child doc s r i up V). intros U.
    apply clip_Some in U. destruct U as [-> _]. exists r, i, up. auto. }
  destruct T as [T|T].
  - destruct (item (childNodes doc n) k) as [c|] eqn:I.
    + destruct (item_childNodes_inv doc n c k I) as [Rk _].
      destruct (isRelevant doc s c) eqn:Rc.
      * rewrite (next_at_child doc s x e n k He Hn c T I Rc) in H.
        apply clip_Some in H. destruct H as [-> _].
        left. exists c. auto.
      * rewrite (next_over_child doc s x e n k He Hn c T I Rc) in H.
        apply clip_Some in H. destruct H as [-> _].
        right. left. exists (childCount doc n).
        split; [apply bound_container; exact T|]. split; [lia | reflexivity].
    + rewrite (next_at_end doc s x e n k He Hn T I) in H. auto.
  - destruct (Z_le_dec (k + 1) (textLength doc n)) as [Q|Q].
    + rewrite (next_in_text doc s x e n k He Hn T O Q) in H.
      apply clip_Some in H. destruct H as [-> _].
      right. left. exists (textLength doc n).
      split; [apply bound_text; exact T|]. auto.
    + rewrite (next_text_end doc s x e n k He Hn T) in H by lia. auto.
Qed.

(** The three places where [previous] can land. *)
Lemma previous_shape (s : DOMSpace) (x : DOMLoc) (e : instance) (n : Node)
      (k : Z) (y : DOMLoc) :
  escapeIrrelevantNode doc s x = Ok e ->
  deref x e = mkLoc n k -> 0 <= k ->
  is_container (nodeType doc n) = true \/ nodeType doc n = TEXT_NODE ->
  previous doc s x = Ok (Some y) ->
  (exists c, item (childNodes doc n) (k - 1) = Some c
             /\ isRelevant doc s c = true
             /\ y = mkLoc c (end_offset doc c))
  \/ (0 <= k - 1 /\ y = mkLoc n (k - 1))
  \/ (exists r i up, n = mkNode r (i :: up) /\ valid doc n
                     /\ y = mkLoc (mkNode r up) (Z.of_nat i)).
Proof.
  intros He Hn O T H.
  pose proof (supported_valid doc n T) as V.
  assert (Up : ascend_at doc s n = Ok (Some y) ->
               exists r i up, n = mkNode r (i :: up) /\ valid doc n
                              /\ y = mkLoc (mkNode r up) (Z.of_nat i)).
  { destruct n as [r [|i up]]; [discriminate|].
    rewrite (ascend_at_child doc s r i up V). intros U.
    apply clip_Some in U. destruct U as [-> _]. exists r, i, up. auto. }
  destruct T as [T|T].
  - destruct (item (childNodes doc n) (k - 1)) as [c|] eqn:I.
    + destruct (item_childNodes_inv doc n c (k - 1) I) as [Rk _].
      destruct (isRelevant doc s c) eqn:Rc.
      * rewrite (previous_into_child doc s x e n k He Hn c T I Rc) in H.
        apply clip_Some in H. destruct H as [-> _].
        left. exists c. auto.
      * rewrite (previous_over_child doc s x e n k He Hn c T I Rc) in H.
        apply clip_Some in H. destruct H as [-> _].
        right. left. split; [lia | reflexivity].
    + rewrite (previous_at_start doc s x e n k He Hn T I) in H. auto.
  - destruct (Z_le_dec 0 (k - 1)) as [Q|Q].
    + rewrite (previous_in_text doc s x e n k He Hn T Q) in H.
      apply clip_Some in H. destruct H as [-> _].
      right. left. auto.
    + rewrite (previous_text_start doc s x e n k He Hn T) in H by lia. auto.
Qed.

Lemma next_escaped (s : DOMSpace) (x y : DOMLoc) :
  next doc s x = Ok (Some y) ->
  exists e, escapeIrrelevantNode doc s x = Ok e.
Proof.
  unfold next. destruct (escapeIrrelevantNode doc s x) as [e|err];
    [eauto | discriminate].
Qed.

Lemma previous_escaped (s : DOMSpace) (x y : DOMLoc) :
  previous doc s x = Ok (Some y) ->
  exists e, escapeIrrelevantNode doc s x = Ok e.
Proof.
  unfold previous. destruct (escapeIrrelevantNode doc s x) as [e|err];
    [eauto | discriminate].
Qed.

Lemma parent_child_normalized (r i : nat) (up : list nat) (o : Z) :
  valid doc (mkNode r (i :: up)) -> o <= Z.of_nat i + 1 ->
  isNormalized doc (mkLoc (mkNode r up) o) = Ok true.
Proof.
  intros V L. destruct (valid_child doc r i up V) as [_ Hi].
  apply isNormalized_iff. exists (childCount doc (mkNode r up)).
  split; [apply bound_container; eapply parent_type; exact V|].
  simpl. lia.
Qed.

End Landing.

Lemma next_lands (doc : list tree) (s : DOMSpace) (x y : DOMLoc) :
  locb doc x = true ->
  next doc s x = Ok (Some y) ->
  locb doc y = true
  /\ lex (key x) (key y) = -1
  /\ contains doc s x = Ok true
  /\ contains doc s y = Ok true
  /\ isNormalized doc y = Ok true.
Proof.
  intros Lx H.
  destruct (next_escaped doc s x y H) as (e & He).
  pose proof (locb_inv doc x Lx) as [V O].
  destruct (escaped_supported doc s x e O He) as [Ok' T].
  destruct (deref x e) as [n k] eqn:Hn. cbn [node offset] in *.
  destruct (next_result doc s x e n k He Hn Ok' T)
    as [N|(y' & N & Cy & Ly & Ord)]; [congruence|].
  assert (y' = y) by congruence. subst y'.
  destruct (escape_cases doc s x e Lx He) as [Cx Cases].
  assert (L : lex (key x) (key y) = -1).
  { destruct Cases
      as [[Nx Ch]|(r & j & up & l0 & En & -> & Rc & Vc & Cp & Ch)].
    - destruct (normalizeOffset_data doc x e O Nx) as (b & B & D).
      rewrite Hn in D. inversion D; subst n k.
      replace x with (mkLoc (node x) (offset x)) at 1 by (destruct x; auto).
      apply Ord. destruct (Z.min_spec (offset x) b) as [[_ E]|[Q E]].
      + left. congruence.
      + right. rewrite E. auto.
    - cbn [deref] in Hn. inversion Hn; subst n k.
      pose proof (parent_type doc r j up Vc) as Tp.
      rewrite (next_over_child doc s x _ _ _ He eq_refl _ Tp
                 (item_child doc r j up Vc) Rc) in H.
      apply clip_Some in H. destruct H as [-> _].
      replace x with (mkLoc (mkNode r (l0 ++ j :: up)) (offset x))
        by (destruct x; simpl in *; congruence).
      rewrite key_of_suffix. apply key_over_lt. lia. }
  split; [exact Ly|]. split; [exact L|].
  split; [exact Cx|]. split; [exact Cy|].
  destruct (next_shape doc s x e n k y He Hn Ok' T H)
    as [(c & I & Rc & ->)|[(b & B & Q & ->)|(r & i & up & -> & Vn & ->)]].
  - apply isNormalized_iff. exists (end_offset doc c).
    split; [eapply bound_end; exact Rc|].
    simpl. eapply bound_nonneg. eapply bound_end. exact Rc.
  - apply isNormalized_iff. exists b. auto.
  - apply (parent_child_normalized doc r i up _ Vn). lia.
Qed.

(** X11: a location returned by [next] is strictly after the location given
    in document order, is contained in the space and is normalized; the
    location given was contained in the space. *)
Theorem next_forward (doc : list tree) (s : DOMSpace) (x y : DOMLoc) :
  locb doc x = true ->
  next doc s x = Ok (Some y) ->
  compare doc x y = Ok (-1)
  /\ contains doc s x = Ok true
  /\ contains doc s y = Ok true
  /\ isNormalized doc y = Ok true.
Proof.
  intros Lx H.
  destruct (next_lands doc s x y Lx H) as (Ly & L & Cx & Cy & Ny).
  split; [|auto].
  rewrite compare_lex; [rewrite L; reflexivity | exact Lx | exact Ly |].
  rewrite (contains_root doc s x Cx), (contains_root doc s y Cy).
  reflexivity.
Qed.

Lemma next_forward_witness :
  compare sample (mkLoc bold 0) (mkLoc div_1 2) = Ok (-1).
Proof.
  apply (next_forward sample
           (mkSpace (mkLoc the_document 0) (mkLoc the_document 1) without_par)
           (mkLoc bold 0) (mkLoc div_1 2));
    reflexivity.
Defined.

Lemma previous_lands (doc : list tree) (s : DOMSpace) (x y : DOMLoc) :
  locb doc x = true ->
  previous doc s x = Ok (Some y) ->
  locb doc y = true
  /\ lex (key y) (key x) = -1
  /\ contains doc s x = Ok true
  /\ contains doc s y = Ok true
  /\ isNormalized doc y = Ok true.
Proof.
  intros Lx H.
  destruct (previous_escaped doc s x y H) as (e & He).
  pose proof (locb_inv doc x Lx) as [V O].
  destruct (escaped_supported doc s x e O He) as [Ok' T].
  destruct (escape_result doc s x e Lx He) as (Le & Ne & Re & Lex).
  destruct (deref x e) as [n k] eqn:Hn. cbn [node offset] in *.
  destruct (previous_result doc s x e n k He Hn Ok' T)
    as [N|(y' & N & Cy & Ly & Ord)]; [congruence|].
  assert (y' = y) by congruence. subst y'.
  destruct (escape_cases doc s x e Lx He) as [Cx _].
  split; [exact Ly|].
  split; [exact (lex_lt_le_trans _ _ _ Ord Lex)|].
  split; [exact Cx|]. split; [exact Cy|].
  destruct (previous_shape doc s x e n k y He Hn Ok' T H)
    as [(c & I & Rc & ->)|[(Q & ->)|(r & i & up & -> & Vn & ->)]].
  - apply isNormalized_iff. exists (end_offset doc c).
    split; [eapply bound_end; exact Rc | simpl; lia].
  - apply isNormalized_iff in Ne. destruct Ne as (b & B & Q').
    apply isNormalized_iff. exists b. simpl in *. split; [exact B | lia].
  - apply (parent_child_normalized doc r i up _ Vn). lia.
Qed.

(** X12: a location returned by [previous] is strictly before the location
    given in document order, is contained in the space and is normalized; the
    location given was contained in the space. *)
Theorem previous_backward (doc : list tree) (s : DOMSpace) (x y : DOMLoc) :
  locb doc x = true ->
  previous doc s x = Ok (Some y) ->
  compare doc y x = Ok (-1)
  /\ contains doc s x = Ok true
  /\ contains doc s y = Ok true
  /\ isNormalized doc y = Ok true.
Proof.
  intros Lx H.
  destruct (previous_lands doc s x y Lx H) as (Ly & L & Cx & Cy & Ny).
  split; [|auto].
  rewrite compare_lex; [rewrite L; reflexivity | exact Ly | exact Lx |].
  rewrite (contains_root doc s x Cx), (contains_root doc s y Cy).
  reflexivity.
Qed.

Lemma previous_backward_witness :
  compare sample (mkLoc text_A 2) (mkLoc bold 0) = Ok (-1).
Proof.
  apply (previous_backward sample
           (mkSpace (mkLoc the_document 0) (mkLoc the_document 1) without_par)
           (mkLoc bold 0) (mkLoc text_A 2));
    reflexivity.
Defined.

(** X13: on a location of the document, [next] and [previous] fail exactly
    when [escapeIrrelevantNode] fails, and with its error: the steps
    themselves never throw. *)
Theorem steps_fail_with_escape (doc : list tree) (s : DOMSpace) (x : DOMLoc)
        (err : exn) :
  locb doc x = true ->
  (next doc s x = Throw err <-> escapeIrrelevantNode doc s x = Throw err)
  /\ (previous doc s x = Throw err
      <-> escapeIrrelevantNode doc s x = Throw err).
Proof.
  intros Lx. pose proof (locb_inv doc x Lx) as [V O].
  destruct (escapeIrrelevantNode doc s x) as [e|err'] eqn:He.
  - destruct (escaped_supported doc s x e O He) as [Ok' T].
    destruct (deref x e) as [n k] eqn:Hn. cbn [node offset] in *.
    split; split; intros H; try discriminate; exfalso.
    + destruct (next_result doc s x e n k He Hn Ok' T)
        as [N|(y & N & _)]; congruence.
    + destruct (previous_result doc s x e n k He Hn Ok' T)
        as [N|(y & N & _)]; congruence.
  - assert (N : next doc s x = Throw err')
      by (unfold next; rewrite He; reflexivity).
    assert (P : previous doc s x = Throw err')
      by (unfold previous; rewrite He; reflexivity).
    rewrite N, P. split; split; intros H; inversion H; reflexivity.
Qed.

Lemma steps_fail_with_escape_witness :
  next sample whole_document (mkLoc detached_div 0) = Throw DOMSpaceScopeError.
Proof.
  apply (proj1 (steps_fail_with_escape sample whole_document
                  (mkLoc detached_div 0) DOMSpaceScopeError eq_refl)).
  reflexivity.
Defined.

Lemma scan_throw (doc : list tree) (s : DOMSpace) (first : option Node)
      (l : list Node) (err : exn) :
  Forall (fun c => valid doc c /\ exists i up, rpath c = i :: up) l ->
  scan doc s first l = Throw err ->
  err = Error "internal error: we should always be able to escape a location which is inside the space"
  /\ exists pre c post,
       l = pre ++ c :: post
       /\ Forall (fun n => isRelevant doc s n = true) pre
       /\ isRelevant doc s c = false /\ first = Some c.
Proof.
  induction l as [|c l IH]; intros F; [discriminate|].
  inversion F as [|? ? [V (i & up & E)] F']; subst. simpl.
  destruct (isRelevant doc s c) eqn:R; simpl.
  - intros H. destruct (IH F' H) as (-> & pre & c' & post & -> & Fp & Rc & Ef).
    split; [reflexivity|]. exists (c :: pre), c', post. auto.
  - destruct first as [f|]; simpl.
    + destruct (Node_eqb c f) eqn:Q.
      * intros H. inversion H. split; [reflexivity|].
        apply Node_eqb_eq in Q. subst f. exists [], c, l. auto.
      * destruct c as [r rp]. simpl in E. subst rp.
        unfold parentNode. simpl. rewrite indexOf_child by exact V.
        rewrite new_DOMLoc_ok by lia. discriminate.
    + destruct c as [r rp]. simpl in E. subst rp.
      unfold parentNode. simpl. rewrite indexOf_child by exact V.
      rewrite new_DOMLoc_ok by lia. discriminate.
Qed.

(** X14: the three ways [escapeIrrelevantNode] fails on a location of the
    document: [DOMSpaceScopeError], when the space does not contain the
    location; the normalization error, when the location is contained and its
    node is of an unsupported kind; the internal error, when the location is
    contained and the outermost node of the scanned chain is irrelevant. *)
Theorem escapeIrrelevantNode_failures (doc : list tree) (s : DOMSpace)
        (x : DOMLoc) (err : exn) :
  locb doc x = true ->
  escapeIrrelevantNode doc s x = Throw err ->
  (err = DOMSpaceScopeError /\ contains doc s x = Ok false)
  \/ (err = Error "cannot normalize offset in a node of type"
      /\ contains doc s x = Ok true
      /\ nodeType doc (node x) = OTHER_NODE)
  \/ (err = Error "internal error: we should always be able to escape a location which is inside the space"
      /\ contains doc s x = Ok true
      /\ exists chain top,
           ancestorsAndSelf doc s (node x) = Ok (chain ++ [top])
           /\ isRelevant doc s top = false).
Proof.
  intros Lx. pose proof (locb_inv doc x Lx) as [V O].
  unfold escapeIrrelevantNode.
  destruct (contains_total doc s x) as [[|] C]; rewrite C; cbn [bind negb].
  2:{ intros H. inversion H. left. auto. }
  destruct (bound doc (node x)) as [b|] eqn:B.
  - destruct (normalizeOffset_total doc x b B O) as (i & N & _).
    rewrite N. cbn [bind]. rewrite (normalizeOffset_node doc x i N).
    destruct x as [[r rp] o]. cbn [node offset] in *.
    unfold ancestorsAndSelf. cbn [root rpath].
    destruct (chain_total doc s r rp V) as (chain & A & F). rewrite A.
    cbn [bind].
    destruct (scan doc s _ (rev chain)) as [[l|]|err'] eqn:S; cbn [bind];
      try discriminate.
    intros H. inversion H; subst err'. clear H.
    apply scan_throw in S.
    + destruct S as (-> & pre & c & post & E & Fp & Rc & Ef).
      right. right. split; [reflexivity|]. split; [reflexivity|].
      destruct pre as [|p pre].
      * exists (rev post), c. split; [|exact Rc]. f_equal.
        apply rev_inj. rewrite rev_app_distr, rev_involutive. exact E.
      * exfalso. rewrite E in Ef. simpl in Ef. inversion Ef; subst p.
        inversion Fp. congruence.
    + apply Forall_rev. eapply Forall_impl; [|exact F].
      intros c (l0 & j & up & Erp & ->).
      split; [|exists j, up; reflexivity].
      eapply valid_suffix. rewrite <- Erp. exact V.
  - unfold normalizeOffset.
    rewrite (normalizedOffset_unsupported doc x B). cbn [bind].
    intros H. inversion H. right. left. split; [reflexivity|].
    split; [reflexivity|]. unfold bound in B.
    destruct (nodeType doc (node x)); try discriminate; reflexivity.
Qed.

Lemma escapeIrrelevantNode_failures_witness :
  exists chain top,
    ancestorsAndSelf sample up_to_text_A text_A = Ok (chain ++ [top])
    /\ isRelevant sample up_to_text_A top = false.
Proof.
  destruct (escapeIrrelevantNode_failures sample up_to_text_A (mkLoc text_A 1)
              (Error "internal error: we should always be able to escape a location which is inside the space")
              eq_refl eq_refl)
    as [[E _]|[[E _]|[_ [_ H]]]];
    [discriminate E | discriminate E | exact H].
Defined.

(** X15: the steps of [previous].  After escaping, at an element, document
    or fragment, [previous] ascends when there is no child just before the
    offset, proposes the end of that child when the child is relevant (the
    length of its text, or the number of its children), and proposes the same
    node one offset back when it is not; at a text node it proposes the
    previous offset while that is not negative and ascends otherwise.
    Ascending proposes the location in the parent that points at the node,
    and answers none when there is no parent.  Every proposed location is
    returned only if the space contains it. *)
Theorem previous_steps (doc : list tree) (s : DOMSpace) (start : DOMLoc)
        (e : instance) :
  0 <= offset start ->
  escapeIrrelevantNode doc s start = Ok e ->
  let n := node (deref start e) in
  let o := offset (deref start e) in
  (is_container (nodeType doc n) = true \/ nodeType doc n = TEXT_NODE)
  /\ (is_container (nodeType doc n) = true ->
      (item (childNodes doc n) (o - 1) = None ->
       previous doc s start = ascend_at doc s n)
      /\ (forall c, item (childNodes doc n) (o - 1) = Some c ->
                    isRelevant doc s c = true ->
                    previous doc s start
                    = clip doc s (mkLoc c (match nodeType doc c with
                                           | TEXT_NODE => textLength doc c
                                           | _ => childCount doc c
                                           end)))
      /\ (forall c, item (childNodes doc n) (o - 1) = Some c ->
                    isRelevant doc s c = false ->
                    previous doc s start = clip doc s (mkLoc n (o - 1))))
  /\ (nodeType doc n = TEXT_NODE ->
      (0 <= o - 1 -> previous doc s start = clip doc s (mkLoc n (o - 1)))
      /\ (o - 1 < 0 -> previous doc s start = ascend_at doc s n))
  /\ (parentNode n = None -> ascend_at doc s n = Ok None)
  /\ (forall p, parentNode n = Some p ->
      exists i, item (childNodes doc p) i = Some n
                /\ ascend_at doc s n = clip doc s (mkLoc p i)).
Proof.
  intros O He n o.
  destruct (escaped_supported doc s start e O He) as [Oo T].
  fold n in T. fold o in Oo.
  assert (Hn : deref start e = mkLoc n o)
    by (subst n o; destruct (deref start e); reflexivity).
  split; [exact T|].
  split.
  { intros Tc. split; [|split].
    - intros I. eapply previous_at_start; eauto.
    - intros c I R. fold (end_offset doc c).
      eapply previous_into_child; eauto.
    - intros c I R. eapply previous_over_child; eauto. }
  split.
  { intros Tt. split.
    - intros L. eapply previous_in_text; eauto.
    - intros L. eapply previous_text_start; eauto. }
  split.
  { intros P. unfold ascend_at. rewrite P. reflexivity. }
  intros p P. destruct n as [r [|i up]]; [discriminate|].
  unfold parentNode in P. simpl in P. inversion P; subst p.
  assert (V : valid doc (mkNode r (i :: up)))
    by (apply supported_valid; exact T).
  exists (Z.of_nat i). split; [apply item_child; exact V|].
  apply ascend_at_child. exact V.
Qed.

Lemma previous_steps_witness :
  previous sample whole_document (mkLoc par 2)
  = clip sample whole_document (mkLoc bold 1).
Proof.
  destruct (previous_steps sample whole_document (mkLoc par 2) This
              ltac:(simpl; lia) eq_refl) as (_ & C & _).
  destruct (C eq_refl) as (_ & D & _).
  apply (D bold); reflexivity.
Defined.

(* ------------------------------------------------------------------ *)
(** ** Steps stay in relevant content *)

Section Relevance.

Variable doc : list tree.

Lemma all_relevant_at_suffix (s : DOMSpace) (r : nat) (l up : list nat) :
  all_relevant_at doc s r (l ++ up) = true ->
  all_relevant_at doc s r up = true.
Proof.
  induction l as [|i l IH]; simpl; [auto|].
  intros H. apply andb_true_iff in H. destruct H as [_ H]. auto.
Qed.

(** With [min] in relevant content, a node that holds a location of the space
    and whose scanned chain is relevant has only relevant ancestors: its
    ancestors that are not contained nodes are ancestors of [min]. *)
Lemma chain_all_relevant (s : DOMSpace) (r : nat) (rp : list nat) :
  spaceb doc s = true ->
  all_relevant doc s (node (min s)) = true ->
  forall o, valid doc (mkNode r rp) -> 0 <= o ->
  contains doc s (mkLoc (mkNode r rp) o) = Ok true ->
  relevant_chain doc s (mkNode r rp) ->
  all_relevant_at doc s r rp = true.
Proof.
  intros Hs Am. destruct (space_inv doc s Hs) as (Lmin & _).
  assert (Under : forall o up, valid doc (mkNode r up) -> 0 <= o ->
            contains doc s (mkLoc (mkNode r up) o) = Ok true ->
            (forall i up', up = i :: up' ->
               contains doc s (mkLoc (mkNode r up') (Z.of_nat i)) = Ok false) ->
            all_relevant_at doc s r up = true).
  { intros o up V O C Out.
    pose proof (contains_root doc s _ C) as Rt. simpl in Rt.
    unfold all_relevant in Am. destruct up as [|i up'].
    - rewrite <- Rt in Am.
      rewrite <- (app_nil_r (rpath (node (min s)))) in Am.
      exact (all_relevant_at_suffix s r _ [] Am).
    - specialize (Out i up' eq_refl).
      destruct (valid_child doc r i up' V) as [Vp Hi].
      apply contains_lex in C; [|exact Hs | apply locb_intro; assumption].
      apply contains_false_lex in Out;
        [|exact Hs | apply locb_intro; [exact Vp | lia]].
      destruct C as (_ & C1 & C2).
      assert (B1 : lex (key (mkLoc (mkNode r up') (Z.of_nat i))) (key (min s))
                   = -1).
      { assert (Q : lex (key (mkLoc (mkNode r up') (Z.of_nat i)))
                        (key (max s)) = -1).
        { eapply lex_lt_le_trans; [|exact C2].
          rewrite key_child. apply lex_prefix. }
        destruct (Z.eq_dec (lex (key (mkLoc (mkNode r up') (Z.of_nat i)))
                                (key (min s))) (-1)) as [E|E]; [exact E|].
        exfalso. apply Out. split; [simpl; congruence|].
        split; [|lia]. rewrite lex_antisym.
        pose proof (lex_range (key (mkLoc (mkNode r up') (Z.of_nat i)))
                              (key (min s))).
        lia. }
      assert (B2 : lex (key (min s))
                       (key (mkLoc (mkNode r up') (Z.of_nat i + 1))) = -1).
      { eapply lex_le_lt_trans; [exact C1|].
        rewrite key_child. apply key_child_lt. lia. }
      destruct (under_child (mkNode r up') i (min s)
                  ltac:(simpl; congruence) B1 B2) as (l & En).
      rewrite En in Am. simpl in Am.
      exact (all_relevant_at_suffix s r l (i :: up') Am). }
  induction rp as [|i up IH]; intros o V O C Ch.
  - apply (Under o [] V O C). intros; discriminate.
  - destruct (valid_child doc r i up V) as [Vp Hi].
    destruct (contains_total doc s (mkLoc (mkNode r up) (Z.of_nat i)))
      as [[|] Cp].
    + destruct Ch as (chain & A & F).
      unfold ancestorsAndSelf in A. cbn [root rpath] in A.
      rewrite (chain_cons doc s r i up V), Cp in A. cbn [bind] in A.
      destruct (ancestorsAndSelf_at doc s r up) as [rest|] eqn:E;
        cbn [bind] in A; [|discriminate].
      inversion A; subst chain. inversion F as [|? ? Rn Fr]; subst.
      simpl. rewrite Rn. simpl.
      apply (IH (Z.of_nat i) Vp ltac:(lia) Cp).
      exists rest. split; [exact E | exact Fr].
    + apply (Under o (i :: up) V O C).
      intros i' up' Q. inversion Q; subst. exact Cp.
Qed.

Lemma escaped_all_relevant (s : DOMSpace) (x : DOMLoc) (e : instance) :
  spaceb doc s = true ->
  all_relevant doc s (node (min s)) = true ->
  locb doc x = true ->
  escapeIrrelevantNode doc s x = Ok e ->
  all_relevant doc s (node (deref x e)) = true.
Proof.
  intros Hs Am Lx He. pose proof (locb_inv doc x Lx) as [V O].
  destruct (escape_cases doc s x e Lx He)
    as [C [[N Ch]|(r & j & up & l0 & En & -> & Rc & Vc & Cp & Ch)]].
  - rewrite (normalizeOffset_node doc x e N).
    destruct x as [[r rp] o]. cbn [node offset] in *.
    exact (chain_all_relevant s r rp Hs Am o V O C Ch).
  - cbn [deref node]. destruct (valid_child doc r j up Vc) as [Vp _].
    exact (chain_all_relevant s r up Hs Am (Z.of_nat j) Vp ltac:(lia) Cp Ch).
Qed.

End Relevance.

Lemma landing_all_relevant (doc : list tree) (s : DOMSpace) (x y : DOMLoc) :
  spaceb doc s = true ->
  all_relevant doc s (node (min s)) = true ->
  locb doc x = true ->
  next doc s x = Ok (Some y) \/ previous doc s x = Ok (Some y) ->
  all_relevant doc s (node y) = true.
Proof.
  intros Hs Am Lx H. pose proof (locb_inv doc x Lx) as [V O].
  assert (He : exists e, escapeIrrelevantNode doc s x = Ok e).
  { destruct H as [H|H];
      [eapply next_escaped | eapply previous_escaped]; exact H. }
  destruct He as (e & He).
  destruct (escaped_supported doc s x e O He) as [Ok' T].
  pose proof (escaped_all_relevant doc s x e Hs Am Lx He) as Ae.
  destruct (deref x e) as [n k] eqn:Hn. cbn [node offset] in *.
  assert (Child : forall c j, item (childNodes doc n) j = Some c ->
            isRelevant doc s c = true -> all_relevant doc s c = true).
  { intros c j I Rc. destruct (item_childNodes_inv doc n c j I) as [_ ->].
    unfold all_relevant in *. simpl. rewrite Ae, andb_true_r. exact Rc. }
  assert (Parent : forall r i up, n = mkNode r (i :: up) ->
            all_relevant doc s (mkNode r up) = true).
  { intros r i up ->. unfold all_relevant in *. simpl in *.
    apply andb_true_iff in Ae. tauto. }
  destruct H as [H|H].
  - destruct (next_shape doc s x e n k y He Hn Ok' T H)
      as [(c & I & Rc & ->)|[(b & B & Q & ->)|(r & i & up & E & Vn & ->)]];
      simpl; eauto.
  - destruct (previous_shape doc s x e n k y He Hn Ok' T H)
      as [(c & I & Rc & ->)|[(Q & ->)|(r & i & up & E & Vn & ->)]];
      simpl; eauto.
Qed.

(** X16: when the node of [min] and all its ancestors are relevant, every
    location that [next] or [previous] returns is in a relevant node all of
    whose ancestors are relevant. *)
Theorem steps_stay_relevant (doc : list tree) (s : DOMSpace) (x y : DOMLoc) :
  spaceb doc s = true ->
  all_relevant doc s (node (min s)) = true ->
  locb doc x = true ->
  next doc s x = Ok (Some y) \/ previous doc s x = Ok (Some y) ->
  all_relevant doc s (node y) = true.
Proof.
  exact (landing_all_relevant doc s x y).
Qed.

Lemma steps_stay_relevant_witness :
  all_relevant sample
    (mkSpace (mkLoc the_document 0) (mkLoc the_document 1) without_par)
    div_1 = true.
Proof.
  apply (steps_stay_relevant sample
           (mkSpace (mkLoc the_document 0) (mkLoc the_document 1) without_par)
           (mkLoc bold 0) (mkLoc div_1 2));
    [reflexivity | reflexivity | reflexivity | left; reflexivity].
Defined.

(* ------------------------------------------------------------------ *)
(** ** Iteration *)

Section Generators.

Variable step : DOMLoc -> result (option DOMLoc).
Variable P Q : DOMLoc -> Prop.
Variable R : DOMLoc -> DOMLoc -> Prop.

Hypothesis R_trans : forall a b c, R a b -> R b c -> R a c.
Hypothesis step_lands :
  forall x y, P x -> step x = Ok (Some y) -> P y /\ R x y /\ Q y.

Lemma iterate_sorted (fuel : nat) :
  forall x L, P x -> iterate step fuel x = Ok L ->
  Forall P L
  /\ Forall (fun l => l = x \/ (R x l /\ Q l)) L
  /\ StronglySorted R L
  /\ links step L
  /\ (fuel <> O -> hd_error L = Some x).
Proof.
  induction fuel as [|fuel IH]; intros x L Px H.
  - inversion H. split; [constructor|]. split; [constructor|].
    split; [constructor|]. split; [exact I|]. intros N. congruence.
  - cbn [iterate] in H. destruct (step x) as [[y|]|err] eqn:Sx;
      cbn [bind] in H; [| |discriminate].
    + destruct (iterate step fuel y) as [rest|err] eqn:It; cbn [bind] in H;
        [|discriminate].
      inversion H; subst L. clear H.
      destruct (step_lands x y Px Sx) as (Py & Rxy & Qy).
      destruct (IH y rest Py It) as (F1 & F2 & So & Li & Hd).
      assert (F3 : Forall (fun l => R x l /\ Q l) rest).
      { eapply Forall_impl; [|exact F2]. intros l [->|[Ryl Ql]]; [auto|].
        split; [eapply R_trans; eauto | exact Ql]. }
      split; [constructor; assumption|].
      split.
      { constructor; [left; reflexivity|].
        eapply Forall_impl; [|exact F3]. intros l Hl. right. exact Hl. }
      split.
      { constructor; [exact So|].
        eapply Forall_impl; [|exact F3]. intros l [Hl _]. exact Hl. }
      split; [|intros _; reflexivity].
      destruct fuel as [|fuel'].
      * inversion It. exact I.
      * specialize (Hd ltac:(discriminate)). destruct rest as [|y' rest'];
          [discriminate|]. inversion Hd; subst y'.
        split; [exact Sx | exact Li].
    + inversion H; subst L. split; [constructor; [exact Px | constructor]|].
      split; [constructor; [left; reflexivity | constructor]|].
      split; [constructor; constructor|]. split; [exact I|].
      intros _. reflexivity.
Qed.

(** A generator that was not cut short stopped on a location from which
    there is no step. *)
Lemma iterate_end (fuel : nat) :
  forall x L, iterate step fuel x = Ok L -> (List.length L < fuel)%nat ->
  exists L' z, L = L' ++ [z] /\ step z = Ok None.
Proof.
  induction fuel as [|fuel IH]; intros x L H Len; [lia|].
  cbn [iterate] in H. destruct (step x) as [[y|]|err] eqn:Sx;
    cbn [bind] in H; [| |discriminate].
  - destruct (iterate step fuel y) as [rest|err] eqn:It; cbn [bind] in H;
      [|discriminate].
    inversion H; subst L. simpl in Len.
    destruct (IH y rest It ltac:(lia)) as (L' & z & -> & Sz).
    exists (x :: L'), z. auto.
  - inversion H; subst L. exists [], x. auto.
Qed.

Lemma iterate_of_links (L : list DOMLoc) :
  forall fuel x L' z,
  links step (x :: L) -> x :: L = L' ++ [z] -> step z = Ok None ->
  (List.length (x :: L) < fuel)%nat ->
  iterate step fuel x = Ok (x :: L).
Proof.
  induction L as [|y L IH]; intros fuel x L' z Li E Sz Len.
  - destruct L' as [|a L']; [|destruct L'; discriminate].
    inversion E; subst z. destruct fuel; [simpl in Len; lia|].
    cbn [iterate]. rewrite Sz. reflexivity.
  - destruct fuel; [simpl in Len; lia|]. destruct Li as [Sx Li].
    cbn [iterate]. rewrite Sx. cbn [bind].
    destruct L' as [|a L']; [discriminate|]. inversion E; subst a.
    rewrite (IH fuel y L' z Li H1 Sz ltac:(simpl in *; lia)). reflexivity.
Qed.

Lemma links_snoc (A : list DOMLoc) (w z : DOMLoc) :
  links step (A ++ [w]) -> step w = Ok (Some z) ->
  links step (A ++ [w; z]).
Proof.
  induction A as [|a A IH]; intros Li Sw.
  - simpl. auto.
  - destruct A as [|a' A'].
    + simpl in *. tauto.
    + simpl in Li. destruct Li as [Sa Li]. simpl. split; [exact Sa|].
      apply IH; assumption.
Qed.

End Generators.

Lemma sorted_strengthen {A : Type} (R R' : A -> A -> Prop) (G : A -> Prop)
      (l : list A) :
  (forall a b, G a -> G b -> R a b -> R' a b) ->
  Forall G l -> StronglySorted R l -> StronglySorted R' l.
Proof.
  intros Imp F S. induction S as [|a l S IH Fa]; [constructor|].
  inversion F as [|? ? Ga Fl]; subst. constructor; [auto|].
  rewrite Forall_forall in *. intros b Ib. apply Imp; auto.
Qed.

Lemma lex_lt_trans_key (a b c : DOMLoc) :
  lex (key a) (key b) = -1 -> lex (key b) (key c) = -1 ->
  lex (key a) (key c) = -1.
Proof. apply lex_trans. Qed.


(** X17: the locations that the iterator of a space yields start with [min]
    and are in strictly ascending document order, each one before all those
    that follow it; all of them are contained in the space, and all but the
    first are normalized. *)
Theorem iterator_ascending (doc : list tree) (s : DOMSpace) (fuel : nat)
        (L : list DOMLoc) :
  spaceb doc s = true ->
  iterator doc s fuel = Ok L ->
  (fuel <> O -> hd_error L = Some (min s))
  /\ StronglySorted (fun a b => compare doc a b = Ok (-1)) L
  /\ Forall (fun l => contains doc s l = Ok true) L
  /\ Forall (fun l => isNormalized doc l = Ok true) (tl L).
Proof.
  intros Hs H. destruct (space_inv doc s Hs) as (Lmin & _).
  pose proof (contains_min doc s Hs) as Cmin.
  destruct (iterate_sorted (next doc s)
              (fun l => locb doc l = true /\ contains doc s l = Ok true)
              (fun l => isNormalized doc l = Ok true)
              (fun a b => lex (key a) (key b) = -1)
              lex_lt_trans_key) with (fuel := fuel) (x := min s) (L := L)
    as (F1 & F2 & So & _ & Hd); auto.
  { intros x y [Lx Cx] Sx.
    destruct (next_lands doc s x y Lx Sx) as (Ly & Lxy & _ & Cy & Ny). auto. }
  split; [exact Hd|]. split.
  { eapply sorted_strengthen; [|exact F1|exact So].
    intros a b [La Ca] [Lb Cb] Lab. simpl in Lab.
    rewrite compare_lex, Lab; auto.
    rewrite (contains_root doc s a Ca), (contains_root doc s b Cb).
    reflexivity. }
  split.
  { eapply Forall_impl; [|exact F1]. intros l [_ Hl]. exact Hl. }
  destruct L as [|x L]; [constructor|]. simpl.
  assert (Ex : x = min s).
  { destruct fuel; [discriminate|].
    specialize (Hd ltac:(discriminate)). inversion Hd. reflexivity. }
  subst x.
  inversion So as [|? ? _ Fx]; subst. inversion F2 as [|? ? _ F2']; subst.
  rewrite Forall_forall in *. intros l Il.
  destruct (F2' l Il) as [->|[_ N]]; [|exact N].
  specialize (Fx _ Il). rewrite lex_refl in Fx. discriminate.
Qed.

Lemma iterator_ascending_witness :
  StronglySorted (fun a b => compare sample a b = Ok (-1)) expectedPositions.
Proof.
  apply (iterator_ascending sample whole_document 100 expectedPositions
                            eq_refl eq_refl).
Defined.



(* ------------------------------------------------------------------ *)
(** ** Iterating backward undoes iterating forward *)

Section Reversal.

Variable doc : list tree.
Variable s : DOMSpace.

Hypothesis Hs : spaceb doc s = true.
Hypothesis Nmin : isNormalized doc (min s) = Ok true.
Hypothesis Nmax : isNormalized doc (max s) = Ok true.
Hypothesis Amin : all_relevant doc s (node (min s)) = true.
Hypothesis Amax : all_relevant doc s (node (max s)) = true.

Lemma at_rest_intro (l : DOMLoc) :
  locb doc l = true -> contains doc s l = Ok true ->
  isNormalized doc l = Ok true ->
  all_relevant doc s (node l) = true ->
  at_rest doc s l.
Proof.
  intros Ll C N A. pose proof (locb_inv doc l Ll) as [V O].
  split; [exact Ll|]. split; [exact C|]. split.
  - apply escape_This_iff. split; [exact C|]. split; [exact N|].
    destruct l as [[r rp] o]. apply all_relevant_chain; assumption.
  - unfold all_relevant in A. destruct (node l) as [r rp]. simpl in *.
    destruct rp; simpl in A; apply andb_true_iff in A; tauto.
Qed.

Lemma at_rest_min : at_rest doc s (min s).
Proof.
  destruct (space_inv doc s Hs) as (Lmin & _).
  apply at_rest_intro; auto. apply contains_min. exact Hs.
Qed.

Lemma at_rest_next (x y : DOMLoc) :
  at_rest doc s x -> next doc s x = Ok (Some y) ->
  at_rest doc s y
  /\ lex (key x) (key y) = -1 /\ previous doc s y = Ok (Some x).
Proof.
  intros (Lx & Cx & Ex & Rx) Sx.
  destruct (next_lands doc s x y Lx Sx) as (Ly & Lxy & _ & Cy & Ny).
  split; [|split; [exact Lxy|]].
  - apply at_rest_intro; auto.
    apply (landing_all_relevant doc s x y Hs Amin Lx). left. exact Sx.
  - pose proof (locb_inv doc x Lx) as [V O]. destruct x as [n o].
    apply previous_of_next; auto.
Qed.

Lemma links_reverse (L : list DOMLoc) :
  Forall (at_rest doc s) L -> links (next doc s) L ->
  links (previous doc s) (rev L).
Proof.
  induction L as [|x L IH]; intros F Li; [exact I|].
  inversion F as [|? ? Rx FL]; subst.
  destruct L as [|y L]; [exact I|]. destruct Li as [Sx Li].
  specialize (IH FL Li). cbn [rev] in *. rewrite <- app_assoc. cbn [app].
  apply links_snoc; [exact IH|].
  apply (at_rest_next x y Rx Sx).
Qed.

Lemma end_is_max (z : DOMLoc) :
  at_rest doc s z -> next doc s z = Ok None -> z = max s.
Proof.
  intros (Lz & Cz & Ez & Rz) Sz.
  destruct (space_inv doc s Hs) as (_ & Lmax & Rt & _).
  pose proof (locb_inv doc z Lz) as [V O].
  pose proof (proj1 (contains_lex doc s z Hs Lz) Cz) as (Rz' & _ & Lzm).
  destruct (Z.eq_dec (lex (key z) (key (max s))) (-1)) as [E|E].
  - exfalso. destruct z as [n o]. cbn [node offset] in *.
    destruct (next_exists doc s n o Hs O Ez Rz Nmax Amax E) as (y & Sy).
    congruence.
  - apply key_inj; [congruence|]. apply lex_eq.
    pose proof (lex_range (key z) (key (max s))). lia.
Qed.

End Reversal.

(** X19: in a space whose end points are normalized and lie in relevant
    content, iterating backward undoes iterating forward: when the iterator
    runs to its end, [reversed] yields the same locations in the opposite
    order, and the last location of the iterator is [max]. *)
Theorem reversed_of_iterator (doc : list tree) (s : DOMSpace) (fuel : nat)
        (L : list DOMLoc) :
  spaceb doc s = true ->
  isNormalized doc (min s) = Ok true ->
  isNormalized doc (max s) = Ok true ->
  all_relevant doc s (node (min s)) = true ->
  all_relevant doc s (node (max s)) = true ->
  iterator doc s fuel = Ok L ->
  (List.length L < fuel)%nat ->
  reversed doc s fuel = Ok (rev L) /\ hd_error (rev L) = Some (max s).
Proof.
  intros Hs Nmin Nmax Amin Amax H Len.
  destruct (iterate_sorted (next doc s) (at_rest doc s) (fun _ => True)
              (fun a b => lex (key a) (key b) = -1) lex_lt_trans_key)
    with (fuel := fuel) (x := min s) (L := L)
    as (F & _ & _ & Li & Hd); auto.
  { intros x y Rx Sx.
    destruct (at_rest_next doc s Hs Amin x y Rx Sx) as (Ry & Lxy & _). auto. }
  { apply at_rest_min; assumption. }
  destruct (iterate_end (next doc s) fuel (min s) L H Len)
    as (L' & z & E & Sz).
  assert (Rz : at_rest doc s z).
  { rewrite Forall_forall in F. apply F. rewrite E. apply in_or_app.
    right. left. reflexivity. }
  pose proof (end_is_max doc s Hs Nmax Amax z Rz Sz) as Ez. subst z.
  assert (ER : rev L = max s :: rev L')
    by (rewrite E, rev_app_distr; reflexivity).
  split; [|rewrite ER; reflexivity].
  pose proof (links_reverse doc s Hs Amin L F Li) as LR.
  specialize (Hd ltac:(lia)).
  destruct L as [|x L0]; [discriminate|]. inversion Hd; subst x.
  unfold reversed. rewrite ER in *.
  apply (iterate_of_links (previous doc s) (rev L') fuel (max s)
           (rev L0) (min s)).
  - exact LR.
  - rewrite <- ER. reflexivity.
  - apply previous_of_min. exact Hs.
  - rewrite <- ER, length_rev. exact Len.
Qed.

Lemma reversed_of_iterator_witness :
  reversed sample whole_document 100 = Ok (rev expectedPositions)
  /\ hd_error (rev expectedPositions) = Some (max whole_document).
Proof.
  apply (reversed_of_iterator sample whole_document 100 expectedPositions);
    [reflexivity | reflexivity | reflexivity | reflexivity | reflexivity
     | reflexivity | simpl; lia].
Defined.

(* ------------------------------------------------------------------ *)
(** ** Iteration ends *)







(* ------------------------------------------------------------------ *)
(** ** Equality of locations *)

(** X21: [equals] answers false on an absent location, is true exactly on a
    location with the same node and the same offset, and agrees with
    [compare]: [compare] answers 0 exactly when [equals] is true. *)
Theorem equals_spec (doc : list tree) (a b : DOMLoc) :
  equals a None = false
  /\ (equals a (Some b) = true <-> a = b)
  /\ (compare doc a b = Ok 0 <-> equals a (Some b) = true).
Proof.
  split; [reflexivity|]. split.
  - unfold equals. rewrite andb_true_iff, Node_eqb_eq, Z.eqb_eq.
    destruct a, b. simpl. split.
    + intros [-> ->]. reflexivity.
    + intros E. inversion E. auto.
  - unfold compare. destruct (equals a (Some b)); [tauto|].
    split; [|discriminate]. intros H. exfalso.
    destruct (Node_eqb (node a) (node b)).
    { destruct (offset a - offset b <? 0); discriminate. }
    destruct (negb (Z.land _ DOCUMENT_POSITION_DISCONNECTED =? 0));
      [discriminate|].
    assert (PC : forall n o c, pointedCompare doc n o c <> 0).
    { intros n o c. unfold pointedCompare.
      destruct (item (childNodes doc n) o); [|discriminate].
      destruct (_ || _); discriminate. }
    destruct (negb (Z.land _ DOCUMENT_POSITION_FOLLOWING =? 0)).
    { destruct (negb (Z.land _ DOCUMENT_POSITION_CONTAINED_BY =? 0));
        [inversion H as [H']; exact (PC _ _ _ H') | discriminate]. }
    destruct (Z.land _ DOCUMENT_POSITION_PRECEDING =? 0); [discriminate|].
    destruct (_ && _); discriminate.
Qed.

(* ------------------------------------------------------------------ *)
(** ** Locations built by the methods *)

(** X22: from a location of the document, every location that [next],
    [previous] or [escapeIrrelevantNode] answers is a location of the
    document too: its node is a node of the same tree and its offset is not
    negative. *)
Theorem answers_are_locations (doc : list tree) (s : DOMSpace)
        (x y : DOMLoc) :
  locb doc x = true ->
  next doc s x = Ok (Some y) \/ previous doc s x = Ok (Some y)
  \/ escapeIrrelevantNode doc s x = Ok (Fresh y) ->
  locb doc y = true /\ root (node y) = root (node x).
Proof.
  intros Lx [H|[H|H]].
  - destruct (next_lands doc s x y Lx H) as (Ly & _ & Cx & Cy & _).
    split; [exact Ly|].
    rewrite (contains_root doc s x Cx), (contains_root doc s y Cy).
    reflexivity.
  - destruct (previous_lands doc s x y Lx H) as (Ly & _ & Cx & Cy & _).
    split; [exact Ly|].
    rewrite (contains_root doc s x Cx), (contains_root doc s y Cy).
    reflexivity.
  - destruct (escape_result doc s x _ Lx H) as (Ly & _ & Rt & _).
    split; [exact Ly | exact Rt].
Qed.

Lemma answers_are_locations_witness :
  locb sample (mkLoc div_1 1) = true
  /\ root (node (mkLoc div_1 1)) = root (node (mkLoc bold 0)).
Proof.
  apply (answers_are_locations sample
           (mkSpace (mkLoc the_document 0) (mkLoc the_document 1) without_par)
           (mkLoc bold 0) (mkLoc div_1 1) eq_refl).
  right. right. reflexivity.
Defined.
